(** * gammapy: PSF maps and RGB plotting, a shallow embedding

    The development follows [gammapy/irf/psf/psf_map.py] (class [PSFMap]) and
    [gammapy/visualization/utils.py] (function [plot_map_rgb]).

    Numbers.  The source computes with numpy float64 arrays.  The model keeps
    the special values of IEEE arithmetic (the two infinities and NaN), which
    several statements are about, and computes exactly on the finite values:
    a finite float is a canonical rational [Qc].  Rounding and the sign of
    zero are outside the model; a property stated by the source "within
    floating tolerance" is an exact equality here.  Where rounding decides
    what can be said of the code, the arithmetic in question is written a
    second time on the binary64 numbers of the kernel (module [Binary64]).

    Arrays.  A numpy array is its shape together with its indexing function;
    broadcasting, reductions along an axis and [keepdims] are written out on
    that representation. *)

From Stdlib Require Import String List ZArith QArith Qcanon Bool Lia Arith Sorted.
From Stdlib Require PrimFloat.
Import ListNotations.

Set Implicit Arguments.
Local Open Scope string_scope.
Local Open Scope list_scope.
Local Open Scope nat_scope.

(* ------------------------------------------------------------------ *)
(** ** Floating-point values *)

Module Float.

Inductive float : Type :=
| Fin (q : Qc)
| PInf
| NInf
| NaN.

Definition zero : float := Fin 0%Qc.
Definition one : float := Fin 1%Qc.
Definition inf : float := PInf.

Definition is_finite (x : float) : bool :=
  match x with Fin _ => true | _ => false end.

Definition is_nan (x : float) : bool :=
  match x with NaN => true | _ => false end.

(** [x + y]: NaN is absorbing and the two infinities cancel to NaN. *)
Definition add (x y : float) : float :=
  match x, y with
  | NaN, _ | _, NaN => NaN
  | Fin a, Fin b => Fin (a + b)%Qc
  | PInf, NInf | NInf, PInf => NaN
  | PInf, _ | _, PInf => PInf
  | NInf, _ | _, NInf => NInf
  end.

(** An infinity carrying the sign of a comparison with zero; [Eq] is the
    invalid case. *)
Definition signed_inf (c : comparison) : float :=
  match c with Eq => NaN | Lt => NInf | Gt => PInf end.

Definition flip (c : comparison) : comparison := CompOpp c.

Definition mul (x y : float) : float :=
  match x, y with
  | NaN, _ | _, NaN => NaN
  | Fin a, Fin b => Fin (a * b)%Qc
  | PInf, Fin b | Fin b, PInf => signed_inf (b ?= 0)%Qc
  | NInf, Fin b | Fin b, NInf => signed_inf (flip (b ?= 0)%Qc)
  | PInf, PInf | NInf, NInf => PInf
  | PInf, NInf | NInf, PInf => NInf
  end.

(** [x / y].  A finite value over zero is an infinity of the sign of the
    numerator, zero over zero is NaN (zero is the positive zero). *)
Definition div (x y : float) : float :=
  match x, y with
  | NaN, _ | _, NaN => NaN
  | Fin a, Fin b =>
      match (b ?= 0)%Qc with
      | Eq => signed_inf (a ?= 0)%Qc
      | _ => Fin (a / b)%Qc
      end
  | Fin _, PInf | Fin _, NInf => zero
  | PInf, Fin b => match (b ?= 0)%Qc with Lt => NInf | _ => PInf end
  | NInf, Fin b => match (b ?= 0)%Qc with Lt => PInf | _ => NInf end
  | PInf, PInf | PInf, NInf | NInf, PInf | NInf, NInf => NaN
  end.

(** Comparisons: every comparison with NaN is false. *)
Definition ltb (x y : float) : bool :=
  match x, y with
  | NaN, _ | _, NaN => false
  | Fin a, Fin b => match (a ?= b)%Qc with Lt => true | _ => false end
  | Fin _, PInf | NInf, Fin _ | NInf, PInf => true
  | Fin _, NInf | PInf, _ | NInf, NInf => false
  end.

Definition leb (x y : float) : bool :=
  match x, y with
  | NaN, _ | _, NaN => false
  | Fin a, Fin b => match (a ?= b)%Qc with Gt => false | _ => true end
  | Fin _, PInf | NInf, _ | PInf, PInf => true
  | Fin _, NInf | PInf, Fin _ | PInf, NInf => false
  end.

(** [np.maximum] and [np.minimum] propagate NaN. *)
Definition maximum (x y : float) : float :=
  match x, y with
  | NaN, _ | _, NaN => NaN
  | _, _ => if ltb x y then y else x
  end.

Definition minimum (x y : float) : float :=
  match x, y with
  | NaN, _ | _, NaN => NaN
  | _, _ => if ltb y x then y else x
  end.

(** [np.clip(x, lo, hi)] is [minimum(maximum(x, lo), hi)]. *)
Definition clip (x lo hi : float) : float := minimum (maximum x lo) hi.

(** [np.sum] of a flat sequence. *)
Definition sum (l : list float) : float := fold_right add zero l.

(** The same sum on finite values. *)
Definition Qcsum (l : list Qc) : Qc := fold_right Qcplus 0%Qc l.

(** [np.isnan], [np.nansum] and [np.nanmean]: NaN entries are dropped; the
    mean of nothing is NaN. *)
Definition drop_nan (l : list float) : list float :=
  filter (fun x => negb (is_nan x)) l.

Definition of_nat (n : nat) : float := Fin (Q2Qc (inject_Z (Z.of_nat n))).

Definition nansum (l : list float) : float := sum (drop_nan l).

Definition nanmean (l : list float) : float :=
  div (nansum l) (of_nat (List.length (drop_nan l))).

End Float.

Import Float.

Arguments Float.sum : simpl never.

Declare Scope float_scope.
Delimit Scope float_scope with fl.
Bind Scope float_scope with float.
Infix "+" := add : float_scope.
Infix "*" := mul : float_scope.
Infix "/" := div : float_scope.
Infix "<?" := ltb : float_scope.
Infix "<=?" := leb : float_scope.

(* ------------------------------------------------------------------ *)
(** ** Exceptions *)

Inductive exception : Type :=
| ValueError (msg : string)
| KeyError (key : string)
| AttributeError (msg : string)
| IndexError (msg : string).

Inductive result (A : Type) : Type :=
| Ok (a : A)
| Raise (e : exception).

Arguments Ok {A} a.
Arguments Raise {A} e.

Definition bind {A B : Type} (r : result A) (k : A -> result B) : result B :=
  match r with
  | Ok a => k a
  | Raise e => Raise e
  end.

Notation "x <- r ;; k" := (bind r (fun x => k))
  (at level 61, r at next level, right associativity).

Definition raises {A : Type} (r : result A) : Prop :=
  exists e, r = Raise e.

(* ------------------------------------------------------------------ *)
(** ** numpy arrays *)

Module Numpy.

(** An array is a shape and an indexing function; [item a idx] is read only
    at index tuples inside the shape. *)
Record ndarray : Type := mk_ndarray {
  shape : list nat;
  item : list nat -> float
}.

(** [np.zeros(shape)]. *)
Definition zeros (s : list nat) : ndarray :=
  {| shape := s; item := fun _ => zero |}.

(** All index tuples of a shape, in row-major (C) order. *)
Fixpoint indices (s : list nat) : list (list nat) :=
  match s with
  | [] => [[]]
  | n :: s' => flat_map (fun i => map (cons i) (indices s')) (seq 0 n)
  end.

(** [a.ravel()] and [a.sum()]. *)
Definition ravel (a : ndarray) : list float := map (item a) (indices (shape a)).
Definition np_sum (a : ndarray) : float := Float.sum (ravel a).

(** A ufunc of one argument, applied elementwise. *)
Definition map_array (f : float -> float) (a : ndarray) : ndarray :=
  {| shape := shape a; item := fun idx => f (item a idx) |}.

(** [np.clip(a, lo, hi)]. *)
Definition np_clip (a : ndarray) (lo hi : float) : ndarray :=
  map_array (fun x => clip x lo hi) a.

(** *** Broadcasting

    Shapes are aligned on their last axes; an axis of length 1 is stretched.
    Two shapes that disagree on an axis where neither is 1 cannot be
    broadcast and numpy raises [ValueError]. *)
Fixpoint broadcast_rev (r1 r2 : list nat) : option (list nat) :=
  match r1, r2 with
  | [], r | r, [] => Some r
  | n1 :: t1, n2 :: t2 =>
      match broadcast_rev t1 t2 with
      | None => None
      | Some t =>
          if n1 =? n2 then Some (n1 :: t)
          else if n1 =? 1 then Some (n2 :: t)
          else if n2 =? 1 then Some (n1 :: t)
          else None
      end
  end.

Definition broadcast_shapes (s1 s2 : list nat) : option (list nat) :=
  option_map (@rev nat) (broadcast_rev (rev s1) (rev s2)).

(** The index of an operand of shape [s] that an index tuple [idx] of the
    broadcast result reads: leading axes the operand lacks are dropped and
    its axes of length 1 are read at 0. *)
Fixpoint stretch (s idx : list nat) : list nat :=
  match s, idx with
  | n :: s', i :: idx' => (if n =? 1 then 0 else i) :: stretch s' idx'
  | _, _ => []
  end.

Definition broadcast_index (s idx : list nat) : list nat :=
  stretch s (skipn (List.length idx - List.length s) idx).

(** A ufunc of two arguments, with broadcasting. *)
Definition binary (f : float -> float -> float) (a b : ndarray) : result ndarray :=
  match broadcast_shapes (shape a) (shape b) with
  | Some s =>
      Ok {| shape := s;
            item := fun idx => f (item a (broadcast_index (shape a) idx))
                                 (item b (broadcast_index (shape b) idx)) |}
  | None => Raise (ValueError "operands could not be broadcast together")
  end.

Definition multiply := binary mul.
Definition divide := binary div.

(** *** Reduction along one axis *)

Definition insert_at (k i : nat) (idx : list nat) : list nat :=
  firstn k idx ++ i :: skipn k idx.

Definition remove_at (k : nat) (s : list nat) : list nat :=
  firstn k s ++ skipn (S k) s.

Definition set_at (k i : nat) (idx : list nat) : list nat :=
  firstn k idx ++ i :: skipn (S k) idx.

(** [func.reduce(a, axis=axis, keepdims=keepdims)] for a reduction [func] of
    a sequence: the entry at an index tuple of the result collects the
    entries of [a] along [axis]. *)
Definition reduce (func : list float -> float) (axis : nat) (keepdims : bool)
    (a : ndarray) : ndarray :=
  {| shape := if keepdims then set_at axis 1 (shape a)
              else remove_at axis (shape a);
     item := fun idx =>
       func (map (fun i => item a (if keepdims then set_at axis i idx
                                   else insert_at axis i idx))
                 (seq 0 (nth axis (shape a) 0))) |}.

End Numpy.

Import Numpy.

(* ------------------------------------------------------------------ *)
(** ** Maps, geometries and axes

    The map library is a collaborator of [PSFMap]; what the source reads of
    it is the record structure below.  Its coordinate transformations and its
    interpolation are parameters of the development (section [PSF]). *)

Record SkyCoord : Type := { lon : Qc; lat : Qc }.

Inductive axis_interp : Type := lin | log.

(** A non-spatial axis: name, strictly monotonic bin edges and interpolation
    mode.  The bin centres are derived from the edges. *)
Record MapAxis : Type := {
  name : string;
  edges : list Qc;
  interp : axis_interp
}.

Definition nbin (ax : MapAxis) : nat := List.length (edges ax) - 1.

(** Consecutive pairs of a sequence: [(l[:-1], l[1:])]. *)
Fixpoint pairs (l : list Qc) : list (Qc * Qc) :=
  match l with
  | a :: (b :: _) as l' => (a, b) :: pairs l'
  | _ => []
  end.

(** [axis.bin_width]. *)
Definition bin_width (ax : MapAxis) : list Qc :=
  map (fun '(a, b) => (b - a)%Qc) (pairs (edges ax)).

(** [np.max] of a sequence raises [ValueError] on an empty one. *)
Definition Qcmax (a b : Qc) : Qc :=
  match (a ?= b)%Qc with Lt => b | _ => a end.

Definition np_max (l : list Qc) : result Qc :=
  match l with
  | [] => Raise (ValueError "zero-size array to reduction operation maximum which has no identity")
  | a :: l' => Ok (fold_left Qcmax l' a)
  end.

(** [np.min] of the two components of a width. *)
Definition np_min2 (w : Qc * Qc) : Qc :=
  match (snd w ?= fst w)%Qc with Lt => snd w | _ => fst w end.

(** Python's builtin [min(a, b)]: [b] when [b < a], otherwise [a]. *)
Definition py_min (a b : Qc) : Qc :=
  match (b ?= a)%Qc with Lt => b | _ => a end.

(** A WCS geometry: non-spatial axes (in the order given at construction),
    number of pixels (x, y), centre and angular width (x, y). *)
Record Geom : Type := {
  axes : list MapAxis;
  npix : nat * nat;
  center_skydir : SkyCoord;
  width : Qc * Qc;
  is_allsky : bool
}.

(** [geom.axes[name]] raises [KeyError] for an unknown name. *)
Definition axes_get (nm : string) (g : Geom) : result MapAxis :=
  match find (fun ax => String.eqb (name ax) nm) (axes g) with
  | Some ax => Ok ax
  | None => Raise (KeyError nm)
  end.

(** Position of a named axis in the axes list. *)
Fixpoint axes_index (nm : string) (l : list MapAxis) : option nat :=
  match l with
  | [] => None
  | ax :: l' => if String.eqb (name ax) nm then Some 0
                else option_map S (axes_index nm l')
  end.

(** [geom.axes.index_data(name)]: the data array lists the non-spatial axes
    in reverse order, before the two spatial axes (y, x). *)
Definition index_data (nm : string) (g : Geom) : result nat :=
  match axes_index nm (axes g) with
  | Some i => Ok (List.length (axes g) - 1 - i)
  | None => Raise (KeyError nm)
  end.

Definition data_shape (g : Geom) : list nat :=
  rev (map nbin (axes g)) ++ [snd (npix g); fst (npix g)].

(** [geom.to_image()]: the geometry without its non-spatial axes. *)
Definition Geom_to_image (g : Geom) : Geom :=
  {| axes := []; npix := npix g; center_skydir := center_skydir g;
     width := width g; is_allsky := is_allsky g |}.

Record Map : Type := {
  geom : Geom;
  data : ndarray;
  unit : string
}.

(** [Map.from_geom(geom, data=data, unit=unit)]. *)
Definition from_geom (g : Geom) (d : ndarray) (u : string) : Map :=
  {| geom := g; data := d; unit := u |}.

(** A coordinate handed to the interpolation: a sky position and a value on
    each named non-spatial axis (the [coords] dict of the source). *)
Record Coord : Type := {
  c_skycoord : SkyCoord;
  c_axes : list (string * Qc)
}.

Inductive interp_method : Type := linear | nearest.

(** A [MapCoord]: the positions of a sequence of events and, under optional
    keys, their true energies and offsets.  All arrays of a [MapCoord] have
    the same length (they are broadcast against each other at creation). *)
Record MapCoord : Type := {
  skycoord : list SkyCoord;
  energy_true : option (list Qc);
  rad : option (list Qc)
}.

(** [coords[key]] raises [KeyError] when the key is absent. *)
Definition getitem (key : string) (field : option (list Qc)) : result (list Qc) :=
  match field with
  | Some v => Ok v
  | None => Raise (KeyError key)
  end.

(** The PSF map with its optional exposure map. *)
Record PSFMap : Type := {
  psf_map : Map;
  exposure_map : option Map
}.

(** [IRFLikePSF]: the PSF map seen as an IRF with axes
    [energy_true, rad, lat_idx, lon_idx]. *)
Record IRFLikePSF : Type := {
  irf_axes : list MapAxis;
  irf_data : ndarray;
  irf_unit : string
}.

(** The dict built by [_get_irf_coords]. *)
Record irf_coords : Type := {
  lon_idx : list Qc;
  lat_idx : list Qc;
  irf_energy_true : list Qc;
  irf_rad : option (list Qc)
}.

(** [PSFKernel]: a kernel map. *)
Record PSFKernel : Type := { psf_kernel_map : Map }.

(** The [region] argument of [to_region_nd_map]: a sky region or a single
    position. *)
Inductive region_arg (SkyRegion : Type) : Type :=
| region_sky (r : SkyRegion)
| region_coord (c : SkyCoord).

Arguments region_sky {SkyRegion} r.
Arguments region_coord {SkyRegion} c.

(** The [random_state] argument of [sample_coord]:
    [{int, 'random-seed', 'global-rng', RandomState}]. *)
Inductive random_state_arg (RandomState : Type) : Type :=
| rs_int (seed : Z)
| rs_random_seed
| rs_global_rng
| rs_instance (r : RandomState).

Arguments rs_int {RandomState} seed.
Arguments rs_random_seed {RandomState}.
Arguments rs_global_rng {RandomState}.
Arguments rs_instance {RandomState} r.

(** What a call can observe of its environment: the state of numpy's global
    generator and the entropy the operating system hands to a generator
    created without a seed. *)
Record World (RandomState : Type) : Type := {
  global_rng : RandomState;
  os_entropy : Z
}.

(* ------------------------------------------------------------------ *)
(** ** The PSF map *)

Section PSF.

(** *** Collaborators

    The map, coordinate, IRF, spectral-model and random-number libraries are
    used through the following operations; the statements below hold for
    every behaviour of them. *)

(** Centre of a bin of a log axis, [exp((ln lo + ln hi) / 2)]. *)
Variable log_center : Qc -> Qc -> Qc.

(** [Map.interp_by_coord(coords, method, fill_value)] at one coordinate. *)
Variable interp_by_coord : Map -> Coord -> interp_method -> option float -> float.

(** [geom.coord_to_pix((lon, lat))] at one position: pixel coordinates. *)
Variable coord_to_pix : Geom -> SkyCoord -> Qc * Qc.

(** Sky regions and the pixels [(idx_y, idx_x)] a region selects on a
    geometry ([np.where] of the region mask). *)
Variable SkyRegion : Type.
Variable region_mask : Geom -> SkyRegion -> list (nat * nat).

(** [geom.to_odd_npix(max_radius)] and [geom.separation(center)] at the
    pixel [(iy, ix)]. *)
Variable to_odd_npix : Geom -> Qc -> Geom.
Variable separation : Geom -> SkyCoord -> nat -> nat -> Qc.

(** [skycoord.directional_offset_by(position_angle, separation)]: the
    great-circle displacement of one position. *)
Variable directional_offset_by : SkyCoord -> Qc -> Qc -> SkyCoord.

(** [PSF.containment(rad, energy_true, lat_idx, lon_idx)]: the cumulative
    response of the IRF at one coordinate. *)
Variable PSF_containment : IRFLikePSF -> Qc -> Qc -> Qc -> Qc -> float.

(** Spectral models, the default power law of a given index, and the weight
    a model gives to bin [e] of an energy axis. *)
Variable SpectralModel : Type.
Variable PowerLawSpectralModel : Qc -> SpectralModel.
Variable spectral_weight : SpectralModel -> MapAxis -> nat -> float.

(** numpy's generator: its state, seeding from an integer and one draw of
    [random_sample()], a float in the half-open interval [0, 1). *)
Variable RandomState : Type.
Variable seed_state : Z -> RandomState.
Variable random_sample : RandomState -> Qc * RandomState.

(** *** Axes *)

(** [axis.center]. *)
Definition center (ax : MapAxis) : list Qc :=
  map (fun '(a, b) =>
         match interp ax with
         | lin => ((a + b) / Q2Qc 2)%Qc
         | log => log_center a b
         end)
      (pairs (edges ax)).

(** [axis.pix_to_coord] at a bin index. *)
Definition pix_to_coord (ax : MapAxis) (pix : nat) : Qc := nth pix (center ax) 0%Qc.

(** [MapAxis.from_edges(edges, name=name)]. *)
Definition from_edges (e : list Qc) (nm : string) : MapAxis :=
  {| name := nm; edges := e; interp := lin |}.

(** [np.arange(n + 1) - 0.5]. *)
Definition pixel_edges (n : nat) : list Qc :=
  map (fun k => (Q2Qc (inject_Z (Z.of_nat k)) - Q2Qc (1 # 2))%Qc) (seq 0 (n + 1)).

(** The coordinates of the non-spatial axes at an index tuple [idx] of the
    data array (reverse axis order), as [geom.get_coord()] gives them. *)
Definition axes_coord (g : Geom) (idx : list nat) : list (string * Qc) :=
  map (fun '(ax, i) => (name ax, pix_to_coord ax i))
      (combine (axes g) (rev (firstn (List.length (axes g)) idx))).

(** *** Region reduction *)

(** Modelled from the spec: the geometry of the reduced map, a part of
    [Map.to_region_nd_map]: the same axes over a single spatial pixel. *)
Definition region_geom (g : Geom) (c : SkyCoord) : Geom :=
  {| axes := axes g; npix := (1, 1); center_skydir := c;
     width := (0%Qc, 0%Qc); is_allsky := false |}.

(** The values of a map at the pixels of a region, for the non-spatial part
    of an index tuple. *)
Definition region_values (m : Map) (r : SkyRegion) (idx : list nat) : list float :=
  map (fun '(iy, ix) =>
         item (data m) (firstn (List.length (axes (geom m))) idx ++ [iy; ix]))
      (region_mask (geom m) r).

(** Modelled from the spec: [Map.to_region_nd_map(region, func)] of the map
    library, which is not among the sources.  The response is reduced with
    [func] over the pixels of the spatial region; in the degenerate case of
    a single position the result is the map evaluated at that position.  The
    result has one spatial pixel. *)
Definition Map_to_region_nd_map (m : Map) (region : region_arg SkyRegion)
    (func : list float -> float) : Map :=
  let n := List.length (axes (geom m)) in
  match region with
  | region_coord c =>
      {| geom := region_geom (geom m) c;
         data := {| shape := rev (map nbin (axes (geom m))) ++ [1; 1];
                    item := fun idx =>
                      interp_by_coord m
                        {| c_skycoord := c; c_axes := axes_coord (geom m) idx |}
                        nearest None |};
         unit := unit m |}
  | region_sky r =>
      {| geom := region_geom (geom m) (center_skydir (geom m));
         data := {| shape := rev (map nbin (axes (geom m))) ++ [1; 1];
                    item := fun idx =>
                      func (map (fun '(iy, ix) =>
                                   item (data m) (firstn n idx ++ [iy; ix]))
                                (region_mask (geom m) r)) |};
         unit := unit m |}
  end.

(** [PSFMap.to_region_nd_map(region)]. *)
Definition to_region_nd_map (self : PSFMap) (region : option (region_arg SkyRegion))
    : PSFMap :=
  let region :=
    match region with
    | None => region_coord (center_skydir (geom (psf_map self)))
    | Some r => r
    end in
  (* TODO: compute an exposure weighted mean PSF here *)
  let psf := Map_to_region_nd_map (psf_map self) region nanmean in
  let exposure :=
    match exposure_map self with
    | Some e => Some (Map_to_region_nd_map e region nanmean)
    | None => None
    end in
  {| psf_map := psf; exposure_map := exposure |}.

(** *** Containment *)

(** [PSFMap._psf_irf]. *)
Definition _psf_irf (self : PSFMap) : result IRFLikePSF :=
  let g := geom (psf_map self) in
  let '(npix_x, npix_y) := npix g in
  let axis_lon := from_edges (pixel_edges npix_x) "lon_idx" in
  let axis_lat := from_edges (pixel_edges npix_y) "lat_idx" in
  energy_axis <- axes_get "energy_true" g ;;
  rad_axis <- axes_get "rad" g ;;
  Ok {| irf_axes := [energy_axis; rad_axis; axis_lat; axis_lon];
        irf_data := data (psf_map self);
        irf_unit := unit (psf_map self) |}.

(** [PSFMap._get_irf_coords(coords)]. *)
Definition _get_irf_coords (self : PSFMap) (coords : MapCoord) : result irf_coords :=
  let g := Geom_to_image (geom (psf_map self)) in
  let pix := map (coord_to_pix g) (skycoord coords) in
  energy <- getitem "energy_true" (energy_true coords) ;;
  Ok {| lon_idx := map fst pix;
        lat_idx := map snd pix;
        irf_energy_true := energy;
        irf_rad := rad coords |}.

(** Modelled from the spec: the inversion of the cumulative response, a part
    of [PSF.containment_radius]: the first radius of the grid [r0 :: rads]
    whose cumulative response reaches [fraction], the radius that encloses
    the fraction; the last radius of the grid when none does. *)
Fixpoint enclosing_radius (cdf : Qc -> float) (fraction : Qc) (r0 : Qc)
    (rads : list Qc) : Qc :=
  match rads with
  | [] => r0
  | r :: rads' =>
      if (Fin fraction <=? cdf r0)%fl then r0
      else enclosing_radius cdf fraction r rads'
  end.

(** Modelled from the spec: [PSF.containment_radius(fraction, **coords)] of
    the IRF base class, which is not among the sources.  It inverts the
    cumulative response at each position and energy to find the angular
    radius enclosing the given probability fraction, and fails if the
    fraction is outside [0, 1]. *)
Definition PSF_containment_radius (irf : IRFLikePSF) (fraction : Qc)
    (coords : irf_coords) : result (list Qc) :=
  match (fraction ?= 0)%Qc, (fraction ?= 1)%Qc with
  | Lt, _ | _, Gt => Raise (ValueError "containment fraction outside [0, 1]")
  | _, _ =>
      let rads :=
        match find (fun ax => String.eqb (name ax) "rad") (irf_axes irf) with
        | Some ax => center ax
        | None => []
        end in
      Ok (map (fun '(e, (y, x)) =>
                 enclosing_radius (fun r => PSF_containment irf r e y x)
                                  fraction (hd 0%Qc rads) (tl rads))
              (combine (irf_energy_true coords)
                       (combine (lat_idx coords) (lon_idx coords))))
  end.

(** [PSFMap.containment_radius(fraction, coords)]. *)
Definition containment_radius (self : PSFMap) (fraction : Qc) (coords : MapCoord)
    : result (list Qc) :=
  coords <- _get_irf_coords self coords ;;
  irf <- _psf_irf self ;;
  PSF_containment_radius irf fraction coords.

(** *** Kernels *)

(** Modelled from the spec: [geom.upsample(factor)] of the map library, which
    is not among the sources: the oversampled grid has [factor] times as
    many pixels along each spatial axis, over the same region of the sky. *)
Definition upsample (g : Geom) (factor : nat) : Geom :=
  {| axes := axes g;
     npix := (fst (npix g) * factor, snd (npix g) * factor);
     center_skydir := center_skydir g;
     width := width g;
     is_allsky := is_allsky g |}.

(** Modelled from the spec: [geom.downsample(factor)], the inverse change of
    the number of pixels. *)
Definition Geom_downsample (g : Geom) (factor : nat) : Geom :=
  {| axes := axes g;
     npix := (fst (npix g) / factor, snd (npix g) / factor);
     center_skydir := center_skydir g;
     width := width g;
     is_allsky := is_allsky g |}.

(** Modelled from the spec: the pixels merged by [Map.downsample], the block
    of [factor * factor] entries of the two last (spatial) axes that a
    downsampled index tuple collects. *)
Definition block (factor : nat) (idx : list nat) : list (list nat) :=
  let k := List.length idx - 2 in
  flat_map (fun di =>
      map (fun dj => firstn k idx ++ [nth k idx 0 * factor + di;
                                      nth (S k) idx 0 * factor + dj])
          (seq 0 factor))
    (seq 0 factor).

Definition mean (l : list float) : float :=
  (Float.sum l / of_nat (List.length l))%fl.

(** Modelled from the spec: [Map.downsample(factor, preserve_counts)] of the
    map library, which is not among the sources.  Downsampling by the
    oversampling factor merges each block of [factor * factor] pixels; with
    [preserve_counts] the block is summed, which preserves the total mass. *)
Definition downsample (m : Map) (factor : nat) (preserve_counts : bool) : result Map :=
  if factor =? 0 then Raise (ValueError "downsampling factor must be positive")
  else
    let s := shape (data m) in
    let k := List.length s - 2 in
    let func := if preserve_counts then Float.sum else mean in
    Ok {| geom := Geom_downsample (geom m) factor;
          data := {| shape := firstn k s ++ [nth k s 0 / factor; nth (S k) s 0 / factor];
                     item := fun idx => func (map (item (data m)) (block factor idx)) |};
          unit := unit m |}.

(** Modelled from the spec: [PSFKernel(kernel_map, normalize)] of the kernel
    module, which is not among the sources.  Normalising scales the kernel
    so that its total mass is 1: the data are divided by their sum. *)
Definition PSFKernel_init (kernel_map : Map) (normalize : bool) : PSFKernel :=
  if normalize then
    let total := np_sum (data kernel_map) in
    {| psf_kernel_map :=
         {| geom := geom kernel_map;
            data := map_array (fun x => (x / total)%fl) (data kernel_map);
            unit := unit kernel_map |} |}
  else {| psf_kernel_map := kernel_map |}.

(** The interpolated PSF on the upsampled grid, for every energy of the
    target geometry: the array [data] of [get_psf_kernel]. *)
Definition kernel_data (m : Map) (position : SkyCoord) (energy : list Qc)
    (geom_upsampled : Geom) (rad : nat -> nat -> Qc) : ndarray :=
  {| shape := [List.length energy; snd (npix geom_upsampled); fst (npix geom_upsampled)];
     item := fun idx =>
       interp_by_coord m
         {| c_skycoord := position;
            c_axes := [("energy_true", nth (nth 0 idx 0) energy 0%Qc);
                       ("rad", rad (nth 1 idx 0) (nth 2 idx 0))] |}
         linear None |}.

(** The block [if max_radius is None: ...] of [get_psf_kernel]: the default
    radius is the largest offset of the PSF map, bounded by half the smaller
    width of the target geometry. *)
Definition kernel_max_radius (self : PSFMap) (geom_ : Geom) (max_radius : option Qc)
    : result Qc :=
  match max_radius with
  | None =>
      rad_axis <- axes_get "rad" (geom (psf_map self)) ;;
      max_radius <- np_max (center rad_axis) ;;
      let min_radius_geom := (np_min2 (width geom_) / Q2Qc 2)%Qc in
      Ok (py_min max_radius min_radius_geom)
  | Some r => Ok r
  end.

(** [PSFMap.get_psf_kernel(position, geom, max_radius=None, factor=4)]. *)
Definition get_psf_kernel (self : PSFMap) (position : option SkyCoord) (geom_ : Geom)
    (max_radius : option Qc) (factor : nat) : result PSFKernel :=
  (* TODO: try to simplify...is the oversampling needed? *)
  let position :=
    match position with
    | None => center_skydir (geom (psf_map self))
    | Some p => p
    end in
  max_radius <- kernel_max_radius self geom_ max_radius ;;
  let geom_ := to_odd_npix geom_ max_radius in
  let geom_upsampled := upsample geom_ factor in
  let rad := separation geom_upsampled (center_skydir geom_) in
  energy_axis <- axes_get "energy_true" geom_ ;;
  let energy := center energy_axis in
  let data := kernel_data (psf_map self) position energy geom_upsampled rad in
  let kernel_map := from_geom geom_upsampled (np_clip data zero inf) "" in
  kernel_map <- downsample kernel_map factor true ;;
  Ok (PSFKernel_init kernel_map true).

Definition factor_default : nat := 4.

(** Modelled from the spec: [axes.squash(name)] and [axes.drop(name)] of the
    map library, the geometry after a reduction along an axis: the axis is
    kept with a single bin over its whole range, or removed. *)
Definition squash_axis (ax : MapAxis) : MapAxis :=
  {| name := name ax;
     edges := [hd 0%Qc (edges ax); last (edges ax) 0%Qc];
     interp := interp ax |}.

Definition squash (nm : string) (g : Geom) : Geom :=
  {| axes := map (fun ax => if String.eqb (name ax) nm then squash_axis ax else ax)
                 (axes g);
     npix := npix g; center_skydir := center_skydir g;
     width := width g; is_allsky := is_allsky g |}.

Definition drop (nm : string) (g : Geom) : Geom :=
  {| axes := filter (fun ax => negb (String.eqb (name ax) nm)) (axes g);
     npix := npix g; center_skydir := center_skydir g;
     width := width g; is_allsky := is_allsky g |}.

(** [PSFMap.from_geom(geom)]: maps of zeros, the exposure on the geometry
    with the offset axis squashed. *)
Definition PSFMap_from_geom (g : Geom) : PSFMap :=
  let geom_exposure_psf := squash "rad" g in
  let exposure_psf := from_geom geom_exposure_psf (zeros (data_shape geom_exposure_psf)) "m2 s" in
  let psf_map_ := from_geom g (zeros (data_shape g)) "sr-1" in
  {| psf_map := psf_map_; exposure_map := Some exposure_psf |}.

(** *** Sampling *)

(** [random_state.uniform(low=0.0, high=1.0, size)]: each sample is
    [low + (high - low) * random_sample()]. *)
Definition uniform_low_default : Qc := 0%Qc.
Definition uniform_high_default : Qc := 1%Qc.

Fixpoint uniform (low high : Qc) (size : nat) (s : RandomState)
    : list Qc * RandomState :=
  match size with
  | 0 => ([], s)
  | S n =>
      let (u, s') := random_sample s in
      let (us, s'') := uniform low high n s' in
      ((low + (high - low) * u)%Qc :: us, s'')
  end.

(** Modelled from the spec: [get_random_state(init)] of the random utility
    module, which is not among the sources.  It supplies a reproducible
    generator from a seed, or an existing generator instance; the docstring
    of [sample_coord] lists the accepted values. *)
Definition get_random_state (init : random_state_arg RandomState)
    (w : World RandomState) : RandomState :=
  match init with
  | rs_int seed => seed_state seed
  | rs_random_seed => seed_state (os_entropy w)
  | rs_global_rng => global_rng w
  | rs_instance r => r
  end.

(** The generator is an object: draws from the global generator advance the
    state held by the environment. *)
Definition put_random_state (init : random_state_arg RandomState)
    (s : RandomState) (w : World RandomState) : World RandomState :=
  match init with
  | rs_global_rng => {| global_rng := s; os_entropy := os_entropy w |}
  | _ => w
  end.

(** [np.cumsum]. *)
Fixpoint cumsum_from (acc : float) (l : list float) : list float :=
  match l with
  | [] => []
  | x :: l' => (acc + x)%fl :: cumsum_from (acc + x)%fl l'
  end.

Definition cumsum (l : list float) : list float := cumsum_from zero l.

(** Modelled from the spec: the inversion of a cumulative distribution
    function, a part of [InverseCDFSampler]: the index of the first entry of
    the cumulative distribution above [u]; the last index when there is
    none. *)
Fixpoint invert_cdf (u : float) (cdf : list float) : nat :=
  match cdf with
  | [] => 0
  | c :: cdf' =>
      if (u <? c)%fl then 0
      else match cdf' with
           | [] => 0
           | _ => S (invert_cdf u cdf')
           end
  end.

(** Modelled from the spec: [InverseCDFSampler(pdf, axis=1, random_state)
    .sample_axis()] of the random utility module, which is not among the
    sources.  For each row of probability masses it draws a bin index by
    inverting the cumulative distribution function of the row at a uniform
    random number. *)
Definition sample_axis (pdf : list (list float)) (s : RandomState)
    : list nat * RandomState :=
  let (choice, s') := uniform uniform_low_default 1%Qc (List.length pdf) s in
  (map (fun '(row, u) =>
          let cdf := cumsum row in
          invert_cdf (Fin u) (map (fun c => (c / last cdf zero)%fl) cdf))
       (combine pdf choice),
   s').

(** The probability masses of [sample_coord]: for every event, the
    interpolated density at each bin of the offset axis times the bin centre
    times the bin width. *)
Definition sample_pdf (m : Map) (rad_axis : MapAxis) (positions : list SkyCoord)
    (energy : list Qc) : list (list float) :=
  map (fun '(p, e) =>
         map (fun '(r, w) =>
                (interp_by_coord m
                   {| c_skycoord := p;
                      c_axes := [("energy_true", e); ("rad", r)] |}
                   linear None
                 * Fin r * Fin w)%fl)
             (combine (center rad_axis) (bin_width rad_axis)))
      (combine positions energy).

(** [PSFMap.sample_coord(map_coord, random_state=0)]. *)
Definition sample_coord (self : PSFMap) (map_coord : MapCoord)
    (random_state : random_state_arg RandomState) (w : World RandomState)
    : result MapCoord * World RandomState :=
  let rs := get_random_state random_state w in
  match axes_get "rad" (geom (psf_map self)) with
  | Raise e => (Raise e, w)
  | Ok rad_axis =>
      match getitem "energy_true" (energy_true map_coord) with
      | Raise e => (Raise e, w)
      | Ok energy =>
          let pdf := sample_pdf (psf_map self) rad_axis (skycoord map_coord) energy in
          let (pix_coord, rs1) := sample_axis pdf rs in
          let separation := map (pix_to_coord rad_axis) pix_coord in
          let (position_angle, rs2) :=
            uniform (Q2Qc 360) uniform_high_default
                    (List.length (skycoord map_coord)) rs1 in
          let event_positions :=
            map (fun '(p, (a, sep)) => directional_offset_by p a sep)
                (combine (skycoord map_coord) (combine position_angle separation)) in
          (Ok {| skycoord := event_positions;
                 energy_true := Some energy;
                 rad := None |},
           put_random_state random_state rs2 w)
      end
  end.

Definition random_state_default : random_state_arg RandomState := rs_int 0%Z.

(** *** Energy marginalisation *)

(** Modelled from the spec: [Map.sum_over_axes(axes_names, keepdims)] of
    the map library, which is not among the sources: the data are summed
    along each named axis; with [keepdims] the axis is kept with one bin. *)
Definition sum_over_axis (m : Map) (nm : string) (keepdims : bool) : result Map :=
  k <- index_data nm (geom m) ;;
  Ok {| geom := if keepdims then squash nm (geom m) else drop nm (geom m);
        data := reduce Float.sum k keepdims (data m);
        unit := unit m |}.

(** Modelled from the spec: [Map.sum_over_axes], one named axis after the
    other. *)
Fixpoint sum_over_axes (m : Map) (axes_names : list string) (keepdims : bool)
    : result Map :=
  match axes_names with
  | [] => Ok m
  | nm :: rest =>
      m' <- sum_over_axis m nm keepdims ;;
      sum_over_axes m' rest keepdims
  end.

(** Modelled from the spec: [_map_spectrum_weight(map, spectrum)] of the
    makers utilities, which are not among the sources: each energy slice of
    the map is multiplied by the weight the spectral model gives to that
    energy bin. *)
Definition _map_spectrum_weight (m : Map) (spectrum : SpectralModel) : result Map :=
  energy_axis <- axes_get "energy_true" (geom m) ;;
  k <- index_data "energy_true" (geom m) ;;
  Ok {| geom := geom m;
        data := {| shape := shape (data m);
                   item := fun idx =>
                     (item (data m) idx
                      * spectral_weight spectrum energy_axis (nth k idx 0))%fl |};
        unit := unit m |}.

(** [if spectrum is None: spectrum = PowerLawSpectralModel(index=2.0)]. *)
Definition spectrum_or_default (spectrum : option SpectralModel) : SpectralModel :=
  match spectrum with
  | None => PowerLawSpectralModel (Q2Qc 2)
  | Some s => s
  end.

(** [PSFMap.to_image(spectrum=None, keepdims=True)]. *)
Definition to_image (self : PSFMap) (spectrum : option SpectralModel)
    (keepdims : bool) : result PSFMap :=
  let spectrum := spectrum_or_default spectrum in
  exposure_map_ <-
    match exposure_map self with
    | Some e => Ok e
    | None => Raise (AttributeError "'NoneType' object has no attribute 'geom'")
    end ;;
  exp_weighed <- _map_spectrum_weight exposure_map_ spectrum ;;
  exposure <- sum_over_axes exp_weighed ["energy_true"] keepdims ;;
  weighted <- multiply (data exp_weighed) (data (psf_map self)) ;;
  psf_data <- divide weighted (data exposure) ;;
  let psf_map_ := from_geom (geom (psf_map self)) psf_data "sr-1" in
  psf <- sum_over_axes psf_map_ ["energy_true"] keepdims ;;
  Ok {| psf_map := psf; exposure_map := Some exposure |}.

(** The index tuple of a reduced array: with [keepdims] the reduced axis is
    still there, with one entry. *)
Definition lead (keepdims : bool) (idx : list nat) : list nat :=
  if keepdims then 0 :: idx else idx.

(** The spectrum-weighted exposure of energy bin [e] at the pixel [(y, x)],
    and its sum over the [ne] energy bins. *)
Definition weighted_exposure (em : Map) (spectrum : SpectralModel)
    (energy_axis : MapAxis) (y x e : nat) : float :=
  (item (data em) [e; 0; y; x] * spectral_weight spectrum energy_axis e)%fl.

Definition summed_exposure (em : Map) (spectrum : SpectralModel)
    (energy_axis : MapAxis) (ne y x : nat) : float :=
  Float.sum (map (weighted_exposure em spectrum energy_axis y x) (seq 0 ne)).

(** A PSF map and its exposure map [em] have consistent geometries: the
    non-spatial axes of both are [rad, energy_true], the PSF data have shape
    [(ne, nr, ny, nx)] and the exposure data, whose offset axis has a single
    bin, [(ne, 1, ny, nx)]. *)
Definition consistent (self : PSFMap) (em : Map) (energy_axis : MapAxis)
    (ne nr ny nx : nat) : Prop :=
  exposure_map self = Some em
  /\ map name (axes (geom (psf_map self))) = ["rad"; "energy_true"]
  /\ (exists rad_axis, axes (geom em) = [rad_axis; energy_axis]
                       /\ name rad_axis = "rad"
                       /\ name energy_axis = "energy_true")
  /\ shape (data (psf_map self)) = [ne; nr; ny; nx]
  /\ shape (data em) = [ne; 1; ny; nx].

End PSF.

(* ------------------------------------------------------------------ *)
(** ** RGB plotting *)

Section Plot.

(** The matplotlib axes, the keyword arguments, and the remainder of
    [plot_map_rgb] after its check of the geometry: scaling of the three
    slices, [make_lupton_rgb], [imshow] and the formatting of the axes. *)
Variable WCSAxes : Type.
Variable Kwargs : Type.
Variable draw_rgb : Map -> option WCSAxes -> Kwargs -> result WCSAxes.

(** [geom.axes[0]]. *)
Definition axes_item0 (g : Geom) : result MapAxis :=
  match axes g with
  | ax :: _ => Ok ax
  | [] => Raise (IndexError "list index out of range")
  end.

(** [plot_map_rgb(map_, ax=None, **kwargs)].  The condition
    [len(geom.axes) != 1 or geom.axes[0].nbin != 3] evaluates its second
    operand only when the first is false. *)
Definition plot_map_rgb (map_ : Map) (ax : option WCSAxes) (kwargs : Kwargs)
    : result WCSAxes :=
  let geom_ := geom map_ in
  let msg := "One non-spatial axis with exactly 3 bins is needed to plot an RGB image" in
  if negb (List.length (axes geom_) =? 1) then Raise (ValueError msg)
  else
    ax0 <- axes_item0 geom_ ;;
    if negb (nbin ax0 =? 3) then Raise (ValueError msg)
    else draw_rgb map_ ax kwargs.

End Plot.

(* ------------------------------------------------------------------ *)
(** ** More of the PSF map: maps of radii and maps from table PSFs *)

(** [np.ones(shape)]. *)
Definition ones (s : list nat) : ndarray :=
  {| shape := s; item := fun _ => one |}.

(** [EnergyDependentTablePSF]: what [from_energy_dependent_table_psf] reads
    of a table PSF, its axes [energy_true, rad] and its exposure, one value
    per energy, with its unit. *)
Record EnergyDependentTablePSF : Type := {
  table_axes : list MapAxis;
  table_exposure : list float;
  table_exposure_unit : string
}.

Section TablePSF.

Variable log_center : Qc -> Qc -> Qc.
Variable coord_to_pix : Geom -> SkyCoord -> Qc * Qc.
Variable PSF_containment : IRFLikePSF -> Qc -> Qc -> Qc -> Qc -> float.

(** [geom.get_coord().skycoord] at the pixel [(iy, ix)], and the unit of the
    radii that [containment_radius] returns. *)
Variable pix_to_skycoord : Geom -> nat -> nat -> SkyCoord.
Variable radius_unit : string.

(** [table_psf.evaluate(energy_true, rad).to_value("sr-1")] at one energy
    and offset, and [WcsGeom.create(npix, proj="CAR", binsz, axes)]. *)
Variable table_evaluate : EnergyDependentTablePSF -> Qc -> Qc -> float.
Variable WcsGeom_create : nat * nat -> Qc -> list MapAxis -> Geom.

Definition fraction_default : Qc := Q2Qc (68 # 100).

(** [PSFMap.containment_radius_map(energy_true, fraction=0.68)]: the scalar
    energy is broadcast against the positions of all pixels of the image
    geometry, and the radii fill a map on that geometry. *)
Definition containment_radius_map (self : PSFMap) (energy_true_ : Qc) (fraction : Qc)
    : result Map :=
  let g := Geom_to_image (geom (psf_map self)) in
  let nx := fst (npix g) in
  let ny := snd (npix g) in
  let positions :=
    map (fun idx => pix_to_skycoord g (nth 0 idx 0) (nth 1 idx 0)) (indices [ny; nx]) in
  let coords :=
    {| skycoord := positions;
       energy_true := Some (repeat energy_true_ (List.length positions));
       rad := None |} in
  data_ <- containment_radius log_center coord_to_pix PSF_containment self fraction coords ;;
  Ok (from_geom g
        {| shape := [ny; nx];
           item := fun idx => Fin (nth (nth 0 idx 0 * nx + nth 1 idx 0) data_ 0%Qc) |}
        radius_unit).

(** [PSFMap.from_energy_dependent_table_psf(table_psf, geom=None)]. *)
Definition from_energy_dependent_table_psf (table_psf : EnergyDependentTablePSF)
    (geom_ : option Geom) : result PSFMap :=
  let g :=
    match geom_ with
    | None => WcsGeom_create (2, 1) (Q2Qc 180) (rev (table_axes table_psf))
    | Some g => g
    end in
  energy_axis <- axes_get "energy_true" g ;;
  k_energy <- index_data "energy_true" g ;;
  rad_axis <- axes_get "rad" g ;;
  k_rad <- index_data "rad" g ;;
  let data_ :=
    {| shape := data_shape g;
       item := fun idx =>
         table_evaluate table_psf
           (pix_to_coord log_center energy_axis (nth k_energy idx 0))
           (pix_to_coord log_center rad_axis (nth k_rad idx 0)) |} in
  let psf_map_ := from_geom g data_ "sr-1" in
  let geom_exposure := squash "rad" g in
  let exposure_map_ := from_geom geom_exposure (ones (data_shape geom_exposure)) "cm2 s" in
  let exposure_ :=
    {| shape := [List.length (table_exposure table_psf); 1; 1; 1];
       item := fun idx => nth (nth 0 idx 0) (table_exposure table_psf) NaN |} in
  quantity <- multiply (data exposure_map_) exposure_ ;;
  Ok {| psf_map := psf_map_;
        exposure_map :=
          Some {| geom := geom_exposure; data := quantity;
                  unit := table_exposure_unit table_psf |} |}.

End TablePSF.

(** A natural number as a rational: the value of an integer pixel index on
    an axis. *)
Definition Qc_of_nat (k : nat) : Qc := Q2Qc (inject_Z (Z.of_nat k)).

(* ------------------------------------------------------------------ *)
(** ** More of the plotting utilities *)

(** Equality of floats, [x == y]: NaN is not equal to itself. *)
Definition float_eqb (x y : float) : bool :=
  match x, y with
  | Fin a, Fin b => match (a ?= b)%Qc with Eq => true | _ => false end
  | PInf, PInf | NInf, NInf => true
  | _, _ => false
  end.

(** [x - y], by way of the opposite. *)
Definition float_opp (x : float) : float :=
  match x with
  | Fin a => Fin (- a)%Qc
  | PInf => NInf
  | NInf => PInf
  | NaN => NaN
  end.

Definition float_sub (x y : float) : float := (x + float_opp y)%fl.

(** [np.diff] of a one-dimensional array. *)
Fixpoint np_diff (l : list float) : list float :=
  match l with
  | a :: (b :: _) as l' => float_sub b a :: np_diff l'
  | _ => []
  end.

(** A one-dimensional array from and to a sequence. *)
Definition of_list (l : list float) : ndarray :=
  {| shape := [List.length l]; item := fun idx => nth (nth 0 idx 0) l NaN |}.

(** [x[0]] and [x[-1]] raise [IndexError] on an empty array. *)
Definition first_item (x : list float) : result float :=
  match x with
  | a :: _ => Ok a
  | [] => Raise (IndexError "index 0 is out of bounds for axis 0 with size 0")
  end.

Definition last_item (x : list float) : result float :=
  match x with
  | a :: x' => Ok (last x' a)
  | [] => Raise (IndexError "index -1 is out of bounds for axis 0 with size 0")
  end.

(** *** Keyword arguments

    A dict of keyword arguments is a sequence of bindings in insertion
    order; its keys are distinct. *)

Inductive value : Type :=
| VNone
| VStr (s : string)
| VNum (q : Qc)
| VHandlerMap.

Definition kwargs_dict : Type := list (string * value).

Fixpoint dict_get (k : string) (d : kwargs_dict) : option value :=
  match d with
  | [] => None
  | (k', v) :: d' => if String.eqb k' k then Some v else dict_get k d'
  end.

(** [d[k] = v]: an existing key keeps its place. *)
Fixpoint dict_set (k : string) (v : value) (d : kwargs_dict) : kwargs_dict :=
  match d with
  | [] => [(k, v)]
  | (k', v') :: d' =>
      if String.eqb k' k then (k, v) :: d' else (k', v') :: dict_set k v d'
  end.

Definition dict_remove (k : string) (d : kwargs_dict) : kwargs_dict :=
  filter (fun kv => negb (String.eqb (fst kv) k)) d.

(** [d.setdefault(k, v)] and [d.update(other)]. *)
Definition dict_setdefault (k : string) (v : value) (d : kwargs_dict) : kwargs_dict :=
  match dict_get k d with
  | Some _ => d
  | None => dict_set k v d
  end.

Definition dict_update (d other : kwargs_dict) : kwargs_dict :=
  fold_left (fun acc kv => dict_set (fst kv) (snd kv) acc) other d.

(** *** [plot_contour_line] *)

(** The block [# close contour]: the first point is appended unless the
    contour already ends on it.  The second comparison is made only when the
    first holds. *)
Definition close_contour (x y : list float) : result (list float * list float) :=
  x0 <- first_item x ;;
  xl <- last_item x ;;
  closed <-
    (if float_eqb x0 xl then
       y0 <- first_item y ;;
       yl <- last_item y ;;
       Ok (float_eqb y0 yl)
     else Ok false) ;;
  if closed then Ok (x, y)
  else
    y0 <- first_item y ;;
    Ok (x ++ [x0], y ++ [y0]).

(** The marker and the colour: taken out of the keyword arguments when
    given, ["+"] and ["b"] otherwise. *)
Definition pop_or (k : string) (default : value) (kwargs : kwargs_dict)
    : value * kwargs_dict :=
  match dict_get k kwargs with
  | Some v => (v, dict_remove k kwargs)
  | None => (default, kwargs)
  end.

(** The two calls of [ax.plot] that [plot_contour_line] makes. *)
Record contour_plot : Type := {
  curve : list (float * float);
  curve_fmt : string;
  curve_color : value;
  curve_kwargs : kwargs_dict;
  points_x : list float;
  points_y : list float;
  points_linestyle : string;
  points_marker : value;
  points_color : value
}.

Section Contour.

(** [np.sqrt], and [CubicSpline(t, np.c_[xf, yf], bc_type="periodic")]
    evaluated at [ts]. *)
Variable np_sqrt : float -> float.
Variable cubic_spline :
  list float -> list float -> list float -> list float -> result (list (float * float)).

(** [np.linspace(0, stop, 50)]. *)
Definition linspace_50 (stop : float) : list float :=
  map (fun i => (of_nat i * (stop / of_nat 49))%fl) (seq 0 50).

(** The curve parameter: the cumulative distance of each point from the
    first one. *)
Definition contour_parameter (xf yf : list float) : result (list float) :=
  let dx := map (fun d => (d * d)%fl) (np_diff xf) in
  let dy := map (fun d => (d * d)%fl) (np_diff yf) in
  s <- binary add (of_list dx) (of_list dy) ;;
  let dist := zero :: map np_sqrt (ravel s) in
  Ok (cumsum dist).

(** [plot_contour_line(ax, x, y, **kwargs)]. *)
Definition plot_contour_line (x y : list float) (kwargs : kwargs_dict)
    : result contour_plot :=
  closed <- close_contour x y ;;
  let '(xf, yf) := closed in
  t <- contour_parameter xf yf ;;
  t_last <- last_item t ;;
  let ts := linspace_50 t_last in
  out <- cubic_spline t xf yf ts ;;
  let '(marker, kwargs1) := pop_or "marker" (VStr "+") kwargs in
  let '(color, kwargs2) := pop_or "color" (VStr "b") kwargs1 in
  Ok {| curve := out; curve_fmt := "-"; curve_color := color;
        curve_kwargs := kwargs2;
        points_x := xf; points_y := yf; points_linestyle := "";
        points_marker := marker; points_color := color |}.

End Contour.

(** *** [plot_spectrum_datasets_off_regions] *)

Record Dataset : Type := { ds_name : string; ds_counts_off : nat }.

(** Legend handles: the proxy patch of a region, a handle of a legend that
    is already on the axes, and the pairs that the function makes of them. *)
Inductive handle : Type :=
| Patch (kwargs : kwargs_dict)
| old_handle (n : nat)
| handle_pair (a b : handle).

(** What the function does to the axes: the regions it draws, in order, and
    the call of [ax.legend] it makes, if any. *)
Record off_regions_plot : Type := {
  region_calls : list (Dataset * kwargs_dict);
  legend_call : option (list handle * list string * kwargs_dict)
}.

(** [zip(prop_cycle(), datasets)]: the cycle is repeated for ever; an empty
    cycle yields nothing. *)
Definition zip_cycle (cycle : list kwargs_dict) (datasets : list Dataset)
    : list (kwargs_dict * Dataset) :=
  match cycle with
  | [] => []
  | _ =>
      map (fun '(i, dataset) => (nth (i mod List.length cycle) cycle [], dataset))
          (combine (seq 0 (List.length datasets)) datasets)
  end.

(** [kwargs.pop("prop_cycle", plt.rcParams["axes.prop_cycle"])]. *)
Definition chosen_cycle (rc_prop_cycle : list kwargs_dict)
    (prop_cycle : option (list kwargs_dict)) : list kwargs_dict :=
  match prop_cycle with
  | None => rc_prop_cycle
  | Some c => c
  end.

(** [legend or legend is None and len(datasets) <= 10]. *)
Definition wants_legend (legend : option bool) (datasets : list Dataset) : bool :=
  match legend with
  | Some true => true
  | Some false => false
  | None => List.length datasets <=? 10
  end.

(** The keyword arguments of one region. *)
Definition region_kwargs (kwargs props : kwargs_dict) : kwargs_dict :=
  let plot_kwargs := kwargs in
  let plot_kwargs := dict_set "facecolor" (VStr "None") plot_kwargs in
  let plot_kwargs := dict_setdefault "edgecolor" VNone plot_kwargs in
  dict_update plot_kwargs props.

(** [plot_spectrum_datasets_off_regions(datasets, ax, legend, legend_kwargs,
    **kwargs)].  [ax] is [None] or the axes with the legend they carry, if
    any; [prop_cycle] is the keyword argument of that name, the cycle of
    [rcParams] when it is not given. *)
Definition plot_spectrum_datasets_off_regions
    (rc_prop_cycle : list kwargs_dict)
    (datasets : list Dataset)
    (ax : option (option (list handle * list string)))
    (legend : option bool) (legend_kwargs : option kwargs_dict)
    (prop_cycle : option (list kwargs_dict)) (kwargs : kwargs_dict)
    : result off_regions_plot :=
  ax_legend <-
    match ax with
    | None =>
        match datasets with
        | [] => Raise (IndexError "list index out of range")
        | _ => Ok None
        end
    | Some l => Ok l
    end ;;
  let legend := wants_legend legend datasets in
  let legend_kwargs :=
    match legend_kwargs with
    | None | Some [] => []
    | Some d => d
    end in
  let prop_cycle := chosen_cycle rc_prop_cycle prop_cycle in
  let drawn :=
    map (fun '(props, dataset) => (dataset, region_kwargs kwargs props))
        (zip_cycle prop_cycle datasets) in
  let handles := if legend then map (fun '(_, kw) => Patch kw) drawn else [] in
  let labels := if legend then map (fun '(dataset, _) => ds_name dataset) drawn else [] in
  if legend then
    let '(handles, labels) :=
      match ax_legend with
      | Some (old_handles, old_texts) => (old_handles ++ handles, old_texts ++ labels)
      | None => (handles, labels)
      end in
    let handles := map (fun h => handle_pair h h) handles in
    let legend_kwargs := dict_setdefault "handletextpad" (VNum (Q2Qc (1 # 2))) legend_kwargs in
    let legend_kwargs := dict_set "handler_map" VHandlerMap legend_kwargs in
    Ok {| region_calls := drawn;
          legend_call := Some (handles, labels, legend_kwargs) |}
  else Ok {| region_calls := drawn; legend_call := None |}.

(** *** The scaling of the three bands in [plot_map_rgb] *)

(** [np.nanmax] of a flattened array: [ValueError] on an empty array, NaN
    when all entries are NaN. *)
Definition np_nanmax (l : list float) : result float :=
  match l with
  | [] => Raise (ValueError "zero-size array to reduction operation fmax which has no identity")
  | _ =>
      match drop_nan l with
      | [] => Ok NaN
      | a :: l' => Ok (fold_left maximum l' a)
      end
  end.

(** [data_slice / np.nanmax(data_slice.flatten())], the scaling of one band
    in the list comprehension of [plot_map_rgb]. *)
Definition scale_slice (data_slice : ndarray) : result ndarray :=
  m <- np_nanmax (ravel data_slice) ;;
  Ok (map_array (fun v => (v / m)%fl) data_slice).

(* ------------------------------------------------------------------ *)
(** ** The energy marginalisation in binary64

    numpy rounds every product, quotient and sum to binary64, which the exact
    arithmetic of [Float] does not show.  The arithmetic of [to_image] at one
    offset bin and pixel is written here on binary64 numbers. *)

Module Binary64.




(** A sum along the energy axis, the first axis of the data: the slices are
    added in their order. *)
Definition sum (l : list PrimFloat.float) : PrimFloat.float :=
  match l with
  | [] => PrimFloat.zero
  | a :: l' => fold_left PrimFloat.add l' a
  end.


End Binary64.

(* ------------------------------------------------------------------ *)
(** ** A concrete instance

    Small maps and simple collaborators on which the definitions run. *)

Module Demo.

Definition qc (n : Z) (d : positive) : Qc := Q2Qc (n # d).

Definition log_center (a b : Qc) : Qc := ((a + b) / Q2Qc 2)%Qc.

(** Two offset bins with centres 1/4 and 3/4, two energy bins. *)
Definition rad_axis : MapAxis :=
  {| name := "rad"; edges := [qc 0 1; qc 1 2; qc 1 1]; interp := lin |}.

Definition energy_axis : MapAxis :=
  {| name := "energy_true"; edges := [qc 1 1; qc 2 1; qc 3 1]; interp := lin |}.

Definition origin : SkyCoord := {| lon := qc 0 1; lat := qc 0 1 |}.

Definition psf_geom : Geom :=
  {| axes := [rad_axis; energy_axis]; npix := (1, 1); center_skydir := origin;
     width := (qc 2 1, qc 2 1); is_allsky := false |}.

Definition exposure_geom : Geom := squash "rad" psf_geom.

(** A target geometry for kernels: one pixel, the energy axis only. *)
Definition kernel_geom : Geom :=
  {| axes := [energy_axis]; npix := (1, 1); center_skydir := origin;
     width := (qc 2 1, qc 2 1); is_allsky := false |}.

Definition constant (s : list nat) (v : float) : ndarray :=
  {| shape := s; item := fun _ => v |}.

(** A PSF map of constant density [v] with a given exposure per energy. *)
Definition psf_of (v : float) (exposure : nat -> float) : PSFMap :=
  {| psf_map := from_geom psf_geom (constant [2; 2; 1; 1] v) "sr-1";
     exposure_map :=
       Some (from_geom exposure_geom
               {| shape := [2; 1; 1; 1]; item := fun idx => exposure (nth 0 idx 0) |}
               "m2 s") |}.

Definition flat_psf : PSFMap := psf_of (Fin (qc 1 1)) (fun _ => Fin (qc 1 1)).

(** The map that [PSFMap.from_geom] creates: zeros everywhere. *)
Definition empty_psf : PSFMap := PSFMap_from_geom psf_geom.

(** Collaborators: interpolation reads the density of the first bin, pixel
    coordinates are the sky coordinates, a region is its list of pixels, the
    cumulative response grows linearly with the offset. *)
Definition interp_by_coord (m : Map) (c : Coord) (_ : interp_method)
    (_ : option float) : float := item (data m) [0; 0; 0; 0].

Definition coord_to_pix (g : Geom) (c : SkyCoord) : Qc * Qc := (lon c, lat c).

Definition SkyRegion : Type := list (nat * nat).
Definition region_mask (g : Geom) (r : SkyRegion) : list (nat * nat) := r.

Definition to_odd_npix (g : Geom) (r : Qc) : Geom := g.
Definition separation (g : Geom) (c : SkyCoord) (iy ix : nat) : Qc := qc 0 1.

Definition PSF_containment (irf : IRFLikePSF) (r e y x : Qc) : float := Fin r.

Definition SpectralModel : Type := Datatypes.unit.
Definition PowerLawSpectralModel (index : Qc) : SpectralModel := tt.
Definition spectral_weight (s : SpectralModel) (ax : MapAxis) (e : nat) : float :=
  Fin (qc 1 1).

(** A stand-in for the displacement on the sphere. *)
Definition directional_offset_by (p : SkyCoord) (angle sep : Qc) : SkyCoord :=
  {| lon := (lon p + sep)%Qc; lat := (lat p + angle)%Qc |}.

(** A generator that replays a tape of draws. *)
Definition RandomState : Type := list Qc.
Definition seed_state (seed : Z) : RandomState := [qc 1 2; qc 1 4].
Definition random_sample (s : RandomState) : Qc * RandomState :=
  (hd (qc 0 1) s, tl s).

Definition world : World RandomState :=
  {| global_rng := [qc 1 2; qc 3 4]; os_entropy := 7%Z |}.

(** A map with a single non-spatial axis of three bins, and the stand-ins
    for the plotting back end. *)
Definition rgb_axis : MapAxis :=
  {| name := "energy"; edges := [qc 1 10; qc 1 5; qc 1 2; qc 10 1]; interp := log |}.

Definition rgb_map : Map :=
  from_geom {| axes := [rgb_axis]; npix := (1, 1); center_skydir := origin;
               width := (qc 2 1, qc 2 1); is_allsky := false |}
            (constant [3; 1; 1] (Fin (qc 1 1))) "".

Definition draw_rgb (m : Map) (ax : option Datatypes.unit) (kwargs : Datatypes.unit)
    : result Datatypes.unit := Ok tt.

(** One event at the origin with true energy 3/2. *)
Definition one_event : MapCoord :=
  {| skycoord := [origin]; energy_true := Some [qc 3 2]; rad := None |}.

(** A PSF map without axes, and a target geometry without energy axis. *)
Definition bare_geom : Geom :=
  {| axes := []; npix := (1, 1); center_skydir := origin;
     width := (qc 2 1, qc 2 1); is_allsky := false |}.

Definition bare_psf : PSFMap :=
  {| psf_map := from_geom bare_geom (constant [1; 1] (Fin (qc 1 1))) "sr-1";
     exposure_map := None |}.

(** A table PSF with one exposure value per energy bin, and its evaluation. *)
Definition table : EnergyDependentTablePSF :=
  {| table_axes := [energy_axis; rad_axis];
     table_exposure := [Fin (qc 2 1); Fin (qc 3 1)];
     table_exposure_unit := "cm2 s" |}.

Definition table_evaluate (t : EnergyDependentTablePSF) (e r : Qc) : float :=
  Fin (e * r)%Qc.

Definition WcsGeom_create (n : nat * nat) (binsz : Qc) (ax : list MapAxis) : Geom :=
  {| axes := ax; npix := n; center_skydir := origin;
     width := (qc 360 1, qc 180 1); is_allsky := true |}.

Definition energy_geom : Geom :=
  {| axes := [energy_axis]; npix := (1, 1); center_skydir := origin;
     width := (qc 2 1, qc 2 1); is_allsky := false |}.

(** Sky position of a pixel: the pixel indices themselves. *)
Definition pix_to_skycoord (g : Geom) (iy ix : nat) : SkyCoord :=
  {| lon := Qc_of_nat ix; lat := Qc_of_nat iy |}.

(** Stand-ins for the square root and the spline. *)
Definition np_sqrt (v : float) : float := v.
Definition cubic_spline (t xf yf ts : list float) : result (list (float * float)) :=
  Ok (combine ts ts).

(** One band of an image: a row of three pixels, the last one not
    measured. *)
Definition band : ndarray :=
  {| shape := [1; 3];
     item := fun idx =>
       match idx with
       | [_; 0] => Fin (qc 1 1)
       | [_; 1] => Fin (qc 2 1)
       | _ => NaN
       end |}.

(** A band without counts. *)
Definition dark_band : ndarray := zeros [2; 2].

Definition off_a : Dataset := {| ds_name := "a"; ds_counts_off := 0 |}.
Definition off_b : Dataset := {| ds_name := "b"; ds_counts_off := 1 |}.

Definition color_cycle : list kwargs_dict :=
  [[("color", VStr "C0")]; [("color", VStr "C1"); ("linestyle", VStr "--")]].

End Demo.

(* ------------------------------------------------------------------ *)
(** * Properties *)

(** ** Floating-point sums *)

Lemma add_comm (x y : float) : (x + y = y + x)%fl.
Proof.
  destruct x, y; simpl; try reflexivity.
  f_equal. apply Qcplus_comm.
Qed.

Lemma add_assoc (x y z : float) : (x + (y + z) = (x + y) + z)%fl.
Proof.
  destruct x, y, z; simpl; try reflexivity.
  f_equal. apply Qcplus_assoc.
Qed.

Lemma add_zero_l (x : float) : (zero + x = x)%fl.
Proof.
  destruct x; simpl; try reflexivity.
  f_equal. apply Qcplus_0_l.
Qed.

Lemma add_zero_r (x : float) : (x + zero = x)%fl.
Proof. rewrite add_comm. apply add_zero_l. Qed.

Lemma sum_cons (x : float) (l : list float) :
  Float.sum (x :: l) = (x + Float.sum l)%fl.
Proof. reflexivity. Qed.

Lemma sum_nil : Float.sum [] = zero.
Proof. reflexivity. Qed.

Lemma sum_app (l1 l2 : list float) :
  Float.sum (l1 ++ l2) = (Float.sum l1 + Float.sum l2)%fl.
Proof.
  induction l1 as [| x l1 IH]; cbn [app].
  - rewrite sum_nil. symmetry. apply add_zero_l.
  - rewrite !sum_cons, IH. apply add_assoc.
Qed.

Lemma sum_flat_map {A : Type} (f : A -> list float) (l : list A) :
  Float.sum (flat_map f l) = Float.sum (map (fun a => Float.sum (f a)) l).
Proof.
  induction l as [| a l IH]; cbn [map flat_map].
  - reflexivity.
  - rewrite sum_app, sum_cons, IH. reflexivity.
Qed.

Lemma sum_map_add {A : Type} (f g : A -> float) (l : list A) :
  Float.sum (map (fun a => f a + g a)%fl l)
  = (Float.sum (map f l) + Float.sum (map g l))%fl.
Proof.
  induction l as [| a l IH]; cbn [map flat_map].
  - rewrite sum_nil. symmetry. apply add_zero_l.
  - rewrite !sum_cons, IH.
    rewrite <- !add_assoc. f_equal.
    rewrite !add_assoc. f_equal. apply add_comm.
Qed.

(** Two nested sums can be exchanged. *)
Lemma sum_swap {A B : Type} (f : A -> B -> float) (la : list A) (lb : list B) :
  Float.sum (map (fun a => Float.sum (map (f a) lb)) la)
  = Float.sum (map (fun b => Float.sum (map (fun a => f a b) la)) lb).
Proof.
  induction la as [| a la IH]; cbn [map].
  - induction lb as [| b lb IHb]; cbn [map]; [reflexivity |].
    rewrite sum_cons, <- IHb, !sum_nil. reflexivity.
  - rewrite sum_cons, IH, <- sum_map_add. reflexivity.
Qed.

Lemma sum_map_ext {A : Type} (f g : A -> float) (l : list A) :
  (forall a, In a l -> f a = g a) ->
  Float.sum (map f l) = Float.sum (map g l).
Proof. intros H. f_equal. apply map_ext_in. exact H. Qed.

Lemma map_seq_from {A : Type} (g : nat -> A) (a n : nat) :
  map g (seq a n) = map (fun d => g (a + d)) (seq 0 n).
Proof.
  revert a. induction n as [| n IH]; intros a.
  - reflexivity.
  - rewrite !seq_S, !map_app, IH. cbn [map Nat.add]. reflexivity.
Qed.

(** Summing blocks of [f] consecutive entries, then the blocks. *)
Lemma sum_blocks (g : nat -> float) (f n : nat) :
  Float.sum (map (fun i => Float.sum (map (fun d => g (i * f + d)) (seq 0 f))) (seq 0 n))
  = Float.sum (map g (seq 0 (n * f))).
Proof.
  induction n as [| n IH].
  - reflexivity.
  - replace (S n * f) with (n * f + f) by lia.
    rewrite seq_S, map_app, sum_app, IH. cbn [map Nat.add].
    rewrite sum_cons, sum_nil, add_zero_r.
    rewrite seq_app, map_app, sum_app. f_equal.
    cbn [Nat.add]. rewrite (map_seq_from g (n * f) f). reflexivity.
Qed.

(* ------------------------------------------------------------------ *)
(** ** RGB plotting *)

(** C9.  [plot_map_rgb] rejects a map with its [ValueError] exactly when the
    geometry of the map does not consist of one non-spatial axis with 3 bins:
    if the geometry is not of that form the call raises the [ValueError] of
    the check, and if it is, the check lets the map through and the result of
    the call is that of the drawing code. *)
Theorem plot_map_rgb_check
    (WCSAxes Kwargs : Type)
    (draw_rgb : Map -> option WCSAxes -> Kwargs -> result WCSAxes)
    (map_ : Map) (ax : option WCSAxes) (kwargs : Kwargs) :
  let rgb := exists a, axes (geom map_) = [a] /\ nbin a = 3 in
  (~ rgb ->
   plot_map_rgb draw_rgb map_ ax kwargs
   = Raise (ValueError "One non-spatial axis with exactly 3 bins is needed to plot an RGB image"))
  /\ (rgb -> plot_map_rgb draw_rgb map_ ax kwargs = draw_rgb map_ ax kwargs).
Proof.
  intros rgb. unfold plot_map_rgb, axes_item0, rgb.
  destruct (axes (geom map_)) as [| a [| b l]] eqn:E; cbn.
  - split; [reflexivity |].
    intros [a [H _]]. discriminate H.
  - destruct (nbin a =? 3) eqn:N; cbn.
    + split; [| reflexivity].
      intros H. exfalso. apply H. exists a. split; [reflexivity |].
      apply Nat.eqb_eq. exact N.
    + split; [reflexivity |].
      intros [a' [H1 H2]]. injection H1 as <-.
      apply Nat.eqb_neq in N. contradiction.
  - split; [reflexivity |].
    intros [a' [H _]]. discriminate H.
Qed.

Lemma plot_map_rgb_check_witness :
  plot_map_rgb Demo.draw_rgb Demo.rgb_map None tt = Demo.draw_rgb Demo.rgb_map None tt.
Proof.
  apply (proj2 (plot_map_rgb_check Demo.draw_rgb Demo.rgb_map None tt)).
  exists Demo.rgb_axis. split; reflexivity.
Defined.

(* ------------------------------------------------------------------ *)
(** ** Sampling of event positions *)

Section Sampling.

Variable log_center : Qc -> Qc -> Qc.
Variable interp_by_coord : Map -> Coord -> interp_method -> option float -> float.
Variable directional_offset_by : SkyCoord -> Qc -> Qc -> SkyCoord.
Variable RandomState : Type.
Variable seed_state : Z -> RandomState.
Variable random_sample : RandomState -> Qc * RandomState.

Local Abbreviation sample :=
  (sample_coord log_center interp_by_coord directional_offset_by
                seed_state random_sample).

(** C10.  [sample_coord] leaves the true energies alone: whenever it returns
    coordinates, their [energy_true] entry is the one of the input, same
    values in the same order; and it does return coordinates as soon as the
    PSF map has an offset axis and the input has an [energy_true] entry. *)
Theorem sample_coord_energy_true_unchanged
    (self : PSFMap) (map_coord : MapCoord)
    (random_state : random_state_arg RandomState) (w : World RandomState) :
  (forall out w',
      sample self map_coord random_state w = (Ok out, w') ->
      energy_true out = energy_true map_coord)
  /\ (forall rad_axis energy,
        axes_get "rad" (geom (psf_map self)) = Ok rad_axis ->
        energy_true map_coord = Some energy ->
        exists positions w',
          sample self map_coord random_state w
          = (Ok {| skycoord := positions; energy_true := Some energy; rad := None |},
             w')).
Proof.
  unfold sample_coord. split.
  - intros out w'.
    destruct (axes_get "rad" (geom (psf_map self))) as [rad_axis | e];
      [| discriminate].
    destruct (energy_true map_coord) as [energy |]; cbn [getitem];
      [| discriminate].
    destruct (sample_axis _ _ _) as [pix rs1].
    destruct (uniform _ _ _ _ _) as [angle rs2].
    intros H. injection H as <- _. reflexivity.
  - intros rad_axis energy -> ->. cbn [getitem].
    destruct (sample_axis _ _ _) as [pix rs1].
    destruct (uniform _ _ _ _ _) as [angle rs2].
    eexists. eexists. reflexivity.
Qed.

(** C5.  With an integer seed the outcome of [sample_coord] is a function of
    the PSF map, the input coordinates and the seed alone: two runs, from
    whatever states of the global generator and of the entropy source,
    return identical coordinates, and neither run touches those states. *)
Theorem sample_coord_seed_reproducible
    (self : PSFMap) (map_coord : MapCoord) (seed : Z)
    (w1 w2 : World RandomState) :
  fst (sample self map_coord (rs_int seed) w1)
  = fst (sample self map_coord (rs_int seed) w2)
  /\ snd (sample self map_coord (rs_int seed) w1) = w1
  /\ snd (sample self map_coord (rs_int seed) w2) = w2.
Proof.
  unfold sample_coord. cbn [get_random_state].
  destruct (axes_get "rad" (geom (psf_map self))) as [rad_axis | e];
    [| repeat split].
  destruct (getitem "energy_true" (energy_true map_coord)) as [energy | e];
    [| repeat split].
  destruct (sample_axis _ _ _) as [pix rs1].
  destruct (uniform _ _ _ _ _) as [angle rs2].
  repeat split.
Qed.

End Sampling.

Lemma sample_coord_energy_true_unchanged_witness :
  exists positions w',
    sample_coord Demo.log_center Demo.interp_by_coord Demo.directional_offset_by
                 Demo.seed_state Demo.random_sample
                 Demo.flat_psf Demo.one_event (rs_int 0%Z) Demo.world
    = (Ok {| skycoord := positions; energy_true := Some [Demo.qc 3 2]; rad := None |},
       w').
Proof.
  apply (proj2 (sample_coord_energy_true_unchanged
                  Demo.log_center Demo.interp_by_coord Demo.directional_offset_by
                  Demo.seed_state Demo.random_sample
                  Demo.flat_psf Demo.one_event (rs_int 0%Z) Demo.world)
               Demo.rad_axis [Demo.qc 3 2]); reflexivity.
Defined.

(** By contrast, with numpy's global generator the outcome follows the state
    of that generator. *)
Lemma sample_coord_global_rng_follows_state :
  fst (sample_coord Demo.log_center Demo.interp_by_coord Demo.directional_offset_by
                    Demo.seed_state Demo.random_sample
                    Demo.flat_psf Demo.one_event rs_global_rng Demo.world)
  <> fst (sample_coord Demo.log_center Demo.interp_by_coord Demo.directional_offset_by
                       Demo.seed_state Demo.random_sample
                       Demo.flat_psf Demo.one_event rs_global_rng
                       {| global_rng := [Demo.qc 1 2; Demo.qc 1 4]; os_entropy := 7%Z |}).
Proof. vm_compute. discriminate. Qed.

(** Equality of concrete rationals, up to the proofs of canonicity. *)
Ltac qc_eq := apply Qc_is_canon; vm_compute; reflexivity.

(** Every position angle that [random_state.uniform(360, size=n)] draws lies
    in the interval (1, 360]: the call sets [low] to 360 and leaves [high]
    at its default 1. *)
Lemma uniform_360_range
    (RandomState : Type) (random_sample : RandomState -> Qc * RandomState)
    (Hrange : forall s, (0 <= fst (random_sample s) /\ fst (random_sample s) < 1)%Qc)
    (n : nat) (s : RandomState) :
  Forall (fun a => (1 < a /\ a <= Q2Qc 360)%Qc)
         (fst (uniform random_sample (Q2Qc 360) uniform_high_default n s)).
Proof.
  revert s. induction n as [| n IH]; intros s; cbn [uniform].
  - constructor.
  - specialize (Hrange s). destruct (random_sample s) as [u s'].
    specialize (IH s'). destruct (uniform _ _ _ _ _) as [us s''].
    cbn [fst] in *. constructor; [| exact IH].
    destruct Hrange as [H0 H1]. unfold uniform_high_default.
    replace (Q2Qc 360 + (1 - Q2Qc 360) * u)%Qc
      with (1 + Q2Qc 359 * (1 - u))%Qc
      by (replace (Q2Qc 360) with (Q2Qc 359 + 1)%Qc by qc_eq; ring).
    split.
    + apply Qclt_minus_iff.
      replace (1 + Q2Qc 359 * (1 - u) + - (1))%Qc with ((1 - u) * Q2Qc 359)%Qc by ring.
      replace 0%Qc with (0 * Q2Qc 359)%Qc by ring.
      apply Qcmult_lt_compat_r; [reflexivity |].
      apply Qclt_minus_iff in H1. exact H1.
    + apply Qcle_minus_iff.
      replace (Q2Qc 360 + - (1 + Q2Qc 359 * (1 - u)))%Qc with (u * Q2Qc 359)%Qc
        by (replace (Q2Qc 360) with (Q2Qc 359 + 1)%Qc by qc_eq; ring).
      replace 0%Qc with (0 * Q2Qc 359)%Qc by ring.
      apply Qcmult_le_compat_r; [exact H0 | discriminate].
Qed.

(** C3.  The probability masses and the inversion of their cumulative
    distribution are as described, and the event is displaced along a great
    circle, but the position angle is not drawn from [0, 360): on one event,
    with a generator whose draws are 1/2 and then 0, the offset bin is the
    second one (separation 3/4) and the position angle handed to
    [directional_offset_by] is 360 degrees. *)
Theorem sample_coord_position_angle_360
    (directional_offset_by : SkyCoord -> Qc -> Qc -> SkyCoord) :
  fst (sample_coord Demo.log_center Demo.interp_by_coord directional_offset_by
                    Demo.seed_state Demo.random_sample
                    Demo.flat_psf Demo.one_event
                    (rs_instance [Demo.qc 1 2; Demo.qc 0 1]) Demo.world)
  = Ok {| skycoord := [directional_offset_by Demo.origin (Q2Qc 360) (Demo.qc 3 4)];
          energy_true := Some [Demo.qc 3 2];
          rad := None |}.
Proof.
  vm_compute. repeat (f_equal; try qc_eq).
Qed.

(* ------------------------------------------------------------------ *)
(** ** Containment radius *)

Lemma leb_fin_le (a b : Qc) : (a <= b)%Qc -> (Fin a <=? Fin b)%fl = true.
Proof.
  intros H. unfold leb. pose proof (proj1 (Qcle_alt a b) H) as H'.
  destruct (a ?= b)%Qc; try reflexivity. now elim H'.
Qed.

Lemma leb_fin_inv (a b : Qc) : (Fin a <=? Fin b)%fl = true -> (a <= b)%Qc.
Proof.
  unfold leb. intros H. apply Qcle_alt. intros E. rewrite E in H. discriminate H.
Qed.

Lemma leb_fin_trans (f1 f2 : Qc) (c : float) :
  (f1 <= f2)%Qc -> (Fin f2 <=? c)%fl = true -> (Fin f1 <=? c)%fl = true.
Proof.
  intros H12. destruct c as [b | | |]; try (cbn; intros; assumption).
  intros H. apply leb_fin_le. apply Qcle_trans with f2; [exact H12 |].
  apply leb_fin_inv. exact H.
Qed.

(** On a sorted grid the enclosing radius is at least the first radius. *)
Lemma enclosing_radius_ge_first (cdf : Qc -> float) (fraction : Qc) (rads : list Qc) :
  forall r0, Sorted Qcle (r0 :: rads) ->
             (r0 <= enclosing_radius cdf fraction r0 rads)%Qc.
Proof.
  induction rads as [| r rads IH]; intros r0 Hs; cbn [enclosing_radius].
  - apply Qcle_refl.
  - destruct (Fin fraction <=? cdf r0)%fl; [apply Qcle_refl |].
    inversion Hs as [| ? ? Hs' Hhd]; subst.
    inversion Hhd as [| ? ? Hle]; subst.
    apply Qcle_trans with r; [exact Hle | apply IH; exact Hs'].
Qed.

(** On a sorted grid the enclosing radius grows with the fraction. *)
Lemma enclosing_radius_monotone (cdf : Qc -> float) (f1 f2 : Qc) (rads : list Qc) :
  (f1 <= f2)%Qc ->
  forall r0, Sorted Qcle (r0 :: rads) ->
             (enclosing_radius cdf f1 r0 rads <= enclosing_radius cdf f2 r0 rads)%Qc.
Proof.
  intros H12. induction rads as [| r rads IH]; intros r0 Hs; cbn [enclosing_radius].
  - apply Qcle_refl.
  - inversion Hs as [| ? ? Hs' Hhd]; subst.
    inversion Hhd as [| ? ? Hle]; subst.
    destruct (Fin f2 <=? cdf r0)%fl eqn:E2.
    + rewrite (leb_fin_trans _ H12 E2). apply Qcle_refl.
    + destruct (Fin f1 <=? cdf r0)%fl.
      * apply Qcle_trans with r; [exact Hle |].
        apply enclosing_radius_ge_first. exact Hs'.
      * apply IH. exact Hs'.
Qed.

Lemma Forall2_map_same {A B : Type} (R : B -> B -> Prop) (f g : A -> B) (l : list A) :
  (forall a, R (f a) (g a)) -> Forall2 R (map f l) (map g l).
Proof.
  intros H. induction l as [| a l IH]; cbn [map]; constructor; auto.
Qed.

Lemma axes_get_name (nm : string) (g : Geom) (ax : MapAxis) :
  axes_get nm g = Ok ax -> name ax = nm.
Proof.
  unfold axes_get. destruct (find _ (axes g)) as [a |] eqn:E; [| discriminate].
  intros H. injection H as <-.
  apply find_some in E. destruct E as [_ E].
  apply String.eqb_eq. exact E.
Qed.

Section Containment.

Variable log_center : Qc -> Qc -> Qc.
Variable coord_to_pix : Geom -> SkyCoord -> Qc * Qc.
Variable PSF_containment : IRFLikePSF -> Qc -> Qc -> Qc -> Qc -> float.

Local Abbreviation radius := (containment_radius log_center coord_to_pix PSF_containment).

(** C7.  A containment fraction outside [0, 1] makes [containment_radius]
    raise, whatever the coordinates: the call ends in an exception and
    yields no radii. *)
Theorem containment_radius_fraction_range
    (self : PSFMap) (fraction : Qc) (coords : MapCoord) :
  (fraction < 0 \/ 1 < fraction)%Qc ->
  raises (radius self fraction coords).
Proof.
  intros Hf. unfold containment_radius, bind.
  destruct (_get_irf_coords coord_to_pix self coords) as [c | e];
    [| exists e; reflexivity].
  destruct (_psf_irf self) as [irf | e]; [| exists e; reflexivity].
  unfold PSF_containment_radius.
  destruct Hf as [H | H].
  - rewrite (proj1 (Qclt_alt fraction 0) H). eexists. reflexivity.
  - rewrite (proj1 (Qcgt_alt fraction 1) H).
    destruct (fraction ?= 0)%Qc; eexists; reflexivity.
Qed.

(** C4.  At fixed coordinates the containment radius does not decrease when
    the fraction grows: for fractions [f1 <= f2] in (0, 1), on a PSF map
    whose offset axis has increasing bin centres and for coordinates that
    carry the true energy, both calls return and the radii for [f1] are, one
    by one, at most those for [f2]. *)
Theorem containment_radius_monotone
    (self : PSFMap) (coords : MapCoord) (f1 f2 : Qc)
    (energy_axis rad_axis : MapAxis) (energy : list Qc) :
  (0 < f1)%Qc -> (f1 <= f2)%Qc -> (f2 < 1)%Qc ->
  axes_get "energy_true" (geom (psf_map self)) = Ok energy_axis ->
  axes_get "rad" (geom (psf_map self)) = Ok rad_axis ->
  Sorted Qcle (center log_center rad_axis) ->
  energy_true coords = Some energy ->
  exists r1 r2,
    radius self f1 coords = Ok r1
    /\ radius self f2 coords = Ok r2
    /\ Forall2 Qcle r1 r2.
Proof.
  intros H0 H12 H1 He Hr Hs Hk.
  assert (Hf1 : (0 < f1 /\ f1 < 1)%Qc).
  { split; [exact H0 | apply Qcle_lt_trans with f2; assumption]. }
  assert (Hf2 : (0 < f2 /\ f2 < 1)%Qc).
  { split; [apply Qclt_le_trans with f1; assumption | exact H1]. }
  pose proof (axes_get_name _ _ He) as Hne.
  pose proof (axes_get_name _ _ Hr) as Hnr.
  unfold containment_radius, _get_irf_coords, _psf_irf.
  rewrite Hk. cbn [getitem bind].
  destruct (npix (geom (psf_map self))) as [npix_x npix_y].
  rewrite He, Hr. cbn [bind].
  unfold PSF_containment_radius. cbn [irf_axes find].
  rewrite Hne, Hnr. cbn [String.eqb Ascii.eqb Bool.eqb].
  destruct Hf1 as [Ha1 Hb1]. destruct Hf2 as [Ha2 Hb2].
  rewrite (proj1 (Qcgt_alt f1 0) Ha1), (proj1 (Qcgt_alt f2 0) Ha2).
  rewrite (proj1 (Qclt_alt f1 1) Hb1), (proj1 (Qclt_alt f2 1) Hb2).
  eexists. eexists. split; [reflexivity |]. split; [reflexivity |].
  cbn [irf_energy_true lat_idx lon_idx].
  apply Forall2_map_same. intros [e [y x]].
  destruct (center log_center rad_axis) as [| r0 rads]; cbn [hd tl].
  - apply Qcle_refl.
  - apply enclosing_radius_monotone; assumption.
Qed.

End Containment.

Lemma containment_radius_fraction_range_witness :
  raises (containment_radius Demo.log_center Demo.coord_to_pix Demo.PSF_containment
                             Demo.flat_psf (Demo.qc 3 2) Demo.one_event).
Proof.
  apply (@containment_radius_fraction_range
           Demo.log_center Demo.coord_to_pix Demo.PSF_containment
           Demo.flat_psf (Demo.qc 3 2) Demo.one_event).
  right. reflexivity.
Defined.

Lemma containment_radius_monotone_witness :
  exists r1 r2,
    containment_radius Demo.log_center Demo.coord_to_pix Demo.PSF_containment
                       Demo.flat_psf (Demo.qc 1 5) Demo.one_event = Ok r1
    /\ containment_radius Demo.log_center Demo.coord_to_pix Demo.PSF_containment
                          Demo.flat_psf (Demo.qc 1 2) Demo.one_event = Ok r2
    /\ Forall2 Qcle r1 r2.
Proof.
  apply (@containment_radius_monotone
           Demo.log_center Demo.coord_to_pix Demo.PSF_containment
           Demo.flat_psf Demo.one_event (Demo.qc 1 5) (Demo.qc 1 2)
           Demo.energy_axis Demo.rad_axis [Demo.qc 3 2]).
  - reflexivity.
  - discriminate.
  - reflexivity.
  - reflexivity.
  - reflexivity.
  - repeat constructor. discriminate.
  - reflexivity.
Defined.

(* ------------------------------------------------------------------ *)
(** ** Region reduction *)

(** The mean of a single value, NaN or not, is that value. *)
Lemma nanmean_singleton (v : float) : nanmean [v] = v.
Proof.
  assert (H1 : Q2Qc (inject_Z (Z.of_nat 1)) = 1%Qc) by qc_eq.
  destruct v as [a | | |]; unfold nanmean, nansum, drop_nan, of_nat;
    cbn [filter is_nan negb List.length]; rewrite ?H1;
    try reflexivity.
  rewrite sum_cons, sum_nil. cbn [add zero div].
  replace (1 ?= 0)%Qc with Gt by reflexivity.
  f_equal. field. discriminate.
Qed.

Section Region.

Variable log_center : Qc -> Qc -> Qc.
Variable interp_by_coord : Map -> Coord -> interp_method -> option float -> float.
Variable SkyRegion : Type.
Variable region_mask : Geom -> SkyRegion -> list (nat * nat).

Local Abbreviation reduce_region :=
  (to_region_nd_map log_center interp_by_coord region_mask).

(** C6.  Over a sky region [to_region_nd_map] takes the plain mean (NaN
    entries apart) of the PSF map over the pixels of the region, and of the
    exposure map when there is one; the mean of the PSF is not weighted by
    the exposure, the reduced PSF being the same whatever the exposure map;
    and over a region of a single pixel the reduced value is the value of
    the map at that pixel. *)
Theorem to_region_nd_map_unweighted_mean (self : PSFMap) (r : SkyRegion) :
  let out := reduce_region self (Some (region_sky r)) in
  (forall idx,
      item (data (psf_map out)) idx = nanmean (region_values region_mask (psf_map self) r idx))
  /\ match exposure_map self, exposure_map out with
     | Some e, Some e' =>
         forall idx, item (data e') idx = nanmean (region_values region_mask e r idx)
     | None, None => True
     | _, _ => False
     end
  /\ (forall exposure',
        psf_map (reduce_region {| psf_map := psf_map self; exposure_map := exposure' |}
                               (Some (region_sky r)))
        = psf_map out)
  /\ (forall iy ix,
        region_mask (geom (psf_map self)) r = [(iy, ix)] ->
        forall idx,
          item (data (psf_map out)) idx
          = item (data (psf_map self))
                 (firstn (List.length (axes (geom (psf_map self)))) idx ++ [iy; ix])).
Proof.
  cbn zeta. unfold to_region_nd_map, region_values.
  split; [| split; [| split]].
  - intros idx. reflexivity.
  - destruct (exposure_map self) as [e |]; [| exact I].
    intros idx. reflexivity.
  - intros exposure'. reflexivity.
  - intros iy ix Hmask idx. cbn [psf_map Map_to_region_nd_map data item].
    rewrite Hmask. cbn [map]. apply nanmean_singleton.
Qed.

(** In the degenerate case of a position (the centre of the map when no
    region is given) the reduced map holds the PSF map evaluated at that
    position, by nearest-neighbour interpolation. *)
Lemma to_region_nd_map_position (self : PSFMap) (c : SkyCoord) (idx : list nat) :
  item (data (psf_map (reduce_region self (Some (region_coord c))))) idx
  = interp_by_coord (psf_map self)
      {| c_skycoord := c;
         c_axes := axes_coord log_center (geom (psf_map self)) idx |}
      nearest None
  /\ reduce_region self None
     = reduce_region self (Some (region_coord (center_skydir (geom (psf_map self))))).
Proof. split; reflexivity. Qed.

End Region.

Lemma to_region_nd_map_unweighted_mean_witness :
  item (data (psf_map (to_region_nd_map Demo.log_center Demo.interp_by_coord
                         Demo.region_mask Demo.flat_psf
                         (Some (region_sky [(0, 0)]))))) [1; 1; 0; 0]
  = item (data (psf_map Demo.flat_psf)) [1; 1; 0; 0].
Proof.
  apply (proj2 (proj2 (proj2
           (@to_region_nd_map_unweighted_mean Demo.log_center Demo.interp_by_coord
              Demo.SkyRegion Demo.region_mask Demo.flat_psf [(0, 0)])))
           0 0 eq_refl [1; 1; 0; 0]).
Defined.

(* ------------------------------------------------------------------ *)
(** ** Energy marginalisation *)

(** *** Division of sums *)

Lemma Qcinv_pos (w : Qc) : (0 < w)%Qc -> (0 < / w)%Qc.
Proof.
  unfold Qclt. intros H.
  change (this (/ w)%Qc) with (Qred (/ w)).
  rewrite Qred_correct. apply Qinv_lt_0_compat. exact H.
Qed.

Lemma Qcpos_compare (w : Qc) : (0 < w)%Qc -> (w ?= 0)%Qc = Gt.
Proof. intros H. apply Qcgt_alt. exact H. Qed.

Lemma div_add_distr (x y : float) (w : Qc) :
  w <> 0%Qc -> ((x + y) / Fin w = x / Fin w + y / Fin w)%fl.
Proof.
  intros Hw.
  destruct (w ?= 0)%Qc eqn:E.
  - apply Qceq_alt in E. contradiction.
  - destruct x as [a | | |], y as [b | | |];
      cbv beta iota delta [add div]; rewrite ?E; cbv beta iota;
      try reflexivity.
    f_equal. field. exact Hw.
  - destruct x as [a | | |], y as [b | | |];
      cbv beta iota delta [add div]; rewrite ?E; cbv beta iota;
      try reflexivity.
    f_equal. field. exact Hw.
Qed.

Lemma sum_div_distr {A : Type} (f : A -> float) (w : Qc) (l : list A) :
  w <> 0%Qc ->
  Float.sum (map (fun a => f a / Fin w)%fl l) = (Float.sum (map f l) / Fin w)%fl.
Proof.
  intros Hw. induction l as [| a l IH]; cbn [map].
  - rewrite sum_nil. unfold zero, div.
    destruct (w ?= 0)%Qc eqn:E.
    + apply Qceq_alt in E. contradiction.
    + f_equal. unfold Qcdiv. ring.
    + f_equal. unfold Qcdiv. ring.
  - rewrite !sum_cons, IH. symmetry. apply div_add_distr. exact Hw.
Qed.

Lemma sum_fin {A : Type} (a : A -> Qc) (l : list A) :
  Float.sum (map (fun e => Fin (a e)) l) = Fin (Qcsum (map a l)).
Proof.
  induction l as [| e l IH]; cbn [map].
  - reflexivity.
  - rewrite sum_cons, IH. reflexivity.
Qed.

(** *** Non-finite values *)

Lemma div_zero_not_finite (x : float) : is_finite (x / zero) = false.
Proof.
  destruct x as [a | | |]; unfold zero, div;
    replace (0 ?= 0)%Qc with Eq by reflexivity; try reflexivity.
  destruct (a ?= 0)%Qc; reflexivity.
Qed.

Lemma add_not_finite_l (x y : float) :
  is_finite x = false -> is_finite (x + y) = false.
Proof. destruct x, y; cbn; intros H; try reflexivity; discriminate H. Qed.

Lemma sum_not_finite (l : list float) :
  l <> [] ->
  Forall (fun x => is_finite x = false) l ->
  is_finite (Float.sum l) = false.
Proof.
  intros Hne H. destruct H as [| x l Hx _]; [contradiction |].
  rewrite sum_cons. apply add_not_finite_l. exact Hx.
Qed.

Lemma stretch_same (n i : nat) : i < n -> (if n =? 1 then 0 else i) = i.
Proof.
  intros H. destruct (n =? 1) eqn:E; [| reflexivity].
  apply Nat.eqb_eq in E. lia.
Qed.

Ltac broadcast_cases :=
  unfold broadcast_shapes; cbn [rev app broadcast_rev];
  rewrite ?Nat.eqb_refl;
  repeat match goal with
  | |- context [?a =? ?b] =>
      let E := fresh "E" in
      destruct (a =? b) eqn:E;
      [apply Nat.eqb_eq in E; try subst | apply Nat.eqb_neq in E];
      cbn [rev app option_map]; try congruence
  end;
  cbn [rev app option_map]; try reflexivity.

Lemma broadcast_exposure_psf (ne nr ny nx : nat) :
  broadcast_shapes [ne; 1; ny; nx] [ne; nr; ny; nx] = Some [ne; nr; ny; nx].
Proof. broadcast_cases. Qed.

Lemma broadcast_psf_sum_keepdims (ne nr ny nx : nat) :
  broadcast_shapes [ne; nr; ny; nx] [1; 1; ny; nx] = Some [ne; nr; ny; nx].
Proof. broadcast_cases. Qed.

Lemma broadcast_psf_sum_dropped (ne nr ny nx : nat) :
  broadcast_shapes [ne; nr; ny; nx] [1; ny; nx] = Some [ne; nr; ny; nx].
Proof. broadcast_cases. Qed.

Lemma index_data_energy (g : Geom) :
  map name (axes g) = ["rad"; "energy_true"] ->
  index_data "energy_true" g = Ok 0.
Proof.
  intros H. unfold index_data.
  destruct (axes g) as [| a [| b [| c l]]]; try discriminate H.
  injection H as Ha Hb. cbn [axes_index]. rewrite Ha, Hb. reflexivity.
Qed.

Lemma sum_over_energy (m : Map) (keepdims : bool) :
  map name (axes (geom m)) = ["rad"; "energy_true"] ->
  exists g,
    sum_over_axes m ["energy_true"] keepdims
    = Ok {| geom := g; data := reduce Float.sum 0 keepdims (data m); unit := unit m |}.
Proof.
  intros H. cbn [sum_over_axes]. unfold sum_over_axis.
  rewrite (index_data_energy _ H). cbn [bind]. eexists. reflexivity.
Qed.

Section ToImage.

Variable SpectralModel : Type.
Variable PowerLawSpectralModel : Qc -> SpectralModel.
Variable spectral_weight : SpectralModel -> MapAxis -> nat -> float.

Local Abbreviation image := (to_image PowerLawSpectralModel spectral_weight).
Local Abbreviation weight := (weighted_exposure spectral_weight).
Local Abbreviation total := (summed_exposure spectral_weight).

Local Abbreviation chosen := (spectrum_or_default PowerLawSpectralModel).

Lemma to_image_value
    (self : PSFMap) (spectrum : option SpectralModel) (keepdims : bool)
    (em : Map) (energy_axis : MapAxis) (ne nr ny nx : nat) :
  consistent self em energy_axis ne nr ny nx ->
  exists out exposure,
    image self spectrum keepdims = Ok out
    /\ exposure_map out = Some exposure
    /\ forall r y x, r < nr -> y < ny -> x < nx ->
         item (data exposure) (lead keepdims [0; y; x])
         = total em (chosen spectrum) energy_axis ne y x
         /\ item (data (psf_map out)) (lead keepdims [r; y; x])
            = Float.sum
                (map (fun e =>
                        (weight em (chosen spectrum) energy_axis y x e
                         * item (data (psf_map self)) [e; r; y; x]
                         / total em (chosen spectrum) energy_axis ne y x)%fl)
                     (seq 0 ne)).
Proof.
  intros (Hexp & Hpsf & (rad_axis & Hem & Hnr & Hne) & Hsp & Hse).
  unfold to_image. rewrite Hexp. cbn [bind].
  assert (Hnames : map name (axes (geom em)) = ["rad"; "energy_true"]).
  { rewrite Hem. cbn [map]. rewrite Hnr, Hne. reflexivity. }
  unfold _map_spectrum_weight, axes_get.
  rewrite Hem. cbn [find]. rewrite Hnr, Hne.
  replace (String.eqb "rad" "energy_true") with false by reflexivity.
  replace (String.eqb "energy_true" "energy_true") with true by reflexivity.
  cbn [bind]. rewrite (index_data_energy _ Hnames). cbn [bind].
  match goal with
  | |- context [sum_over_axes ?m _ _] =>
      destruct (@sum_over_energy m keepdims Hnames) as [g1 H1]; rewrite H1
  end.
  cbn [bind data unit geom].
  unfold multiply, divide, binary. cbn [shape].
  rewrite Hse, Hsp, broadcast_exposure_psf. cbn [bind shape].
  assert (Hin : forall e, In e (seq 0 ne) -> e < ne).
  { intros e He. apply in_seq in He. lia. }
  destruct keepdims;
    cbn [reduce shape set_at remove_at firstn skipn app];
    rewrite ?broadcast_psf_sum_keepdims, ?broadcast_psf_sum_dropped;
    cbn [bind from_geom];
    match goal with
    | |- context [sum_over_axes ?m _ ?k] =>
        destruct (@sum_over_energy m k Hpsf) as [g2 H2]; rewrite H2
    end;
    cbn [bind]; eexists; eexists;
    (split; [reflexivity |]); (split; [reflexivity |]);
    intros r y x Hr Hy Hx;
    unfold lead, summed_exposure, weighted_exposure;
    unfold from_geom, broadcast_index; cbn;
    rewrite ?(stretch_same Hy), ?(stretch_same Hx), ?(stretch_same Hr);
    (split; [reflexivity |]);
    apply sum_map_ext; intros e He; apply Hin in He;
    rewrite ?(stretch_same He); reflexivity.
Qed.


(** C8.  When the summed weighted exposure of a pixel is zero, [to_image]
    still returns: nothing guards the division, every quotient by that sum
    is NaN or infinite, and so is the value of the returned PSF map at every
    offset bin of that pixel. *)
Theorem to_image_zero_exposure
    (self : PSFMap) (spectrum : option SpectralModel) (keepdims : bool)
    (em : Map) (energy_axis : MapAxis) (ne nr ny nx y x : nat) :
  consistent self em energy_axis ne nr ny nx ->
  0 < ne -> y < ny -> x < nx ->
  total em (chosen spectrum) energy_axis ne y x = zero ->
  exists out,
    image self spectrum keepdims = Ok out
    /\ (forall v, is_finite (v / total em (chosen spectrum) energy_axis ne y x) = false)
    /\ forall r, r < nr ->
         is_finite (item (data (psf_map out)) (lead keepdims [r; y; x])) = false.
Proof.
  intros Hc Hne Hy Hx Hzero.
  destruct (to_image_value spectrum keepdims Hc) as (out & exposure & Hout & Hexp & Hval).
  exists out. split; [exact Hout |]. split.
  - intros v. rewrite Hzero. apply div_zero_not_finite.
  - intros r Hr. destruct (Hval r y x Hr Hy Hx) as [_ Hv].
    rewrite Hv, Hzero. apply sum_not_finite.
    + destruct ne; [lia |]. cbn [seq map]. discriminate.
    + apply Forall_forall. intros v Hin.
      apply in_map_iff in Hin. destruct Hin as (e & <- & _).
      apply div_zero_not_finite.
Qed.

End ToImage.

Lemma demo_consistent (v : float) (exposure : nat -> float) :
  consistent (Demo.psf_of v exposure)
             (from_geom Demo.exposure_geom
                {| shape := [2; 1; 1; 1]; item := fun idx => exposure (nth 0 idx 0) |}
                "m2 s")
             Demo.energy_axis 2 2 1 1.
Proof.
  repeat split. exists (squash_axis Demo.rad_axis). repeat split.
Qed.



Lemma to_image_zero_exposure_witness :
  exists out,
    to_image Demo.PowerLawSpectralModel Demo.spectral_weight Demo.empty_psf None true
    = Ok out
    /\ is_finite (item (data (psf_map out)) [0; 0; 0; 0]) = false.
Proof.
  destruct (@to_image_zero_exposure
              Demo.SpectralModel Demo.PowerLawSpectralModel Demo.spectral_weight
              Demo.empty_psf None true _ Demo.energy_axis 2 2 1 1 0 0
              (demo_consistent zero (fun _ => zero)))
    as (out & Hout & _ & Hnan); try lia.
  - unfold summed_exposure, zero. vm_compute. f_equal; try qc_eq.
  - exists out. split; [exact Hout |]. apply (Hnan 0). lia.
Defined.

(* ------------------------------------------------------------------ *)
(** ** Kernels *)

(** Clipping to [0, inf) replaces the negative values, minus infinity
    included, by zero and leaves the others (NaN included) as they are. *)
Lemma clip_nonnegative (v : float) :
  clip v zero inf = if (v <? zero)%fl then zero else v.
Proof.
  destruct v as [a | | |]; try reflexivity.
  unfold clip, maximum, inf. destruct (Fin a <? zero)%fl; reflexivity.
Qed.

Lemma map_flat_map {A B C : Type} (f : B -> C) (g : A -> list B) (l : list A) :
  map f (flat_map g l) = flat_map (fun a => map f (g a)) l.
Proof.
  induction l as [| a l IH]; cbn [flat_map map]; [reflexivity |].
  rewrite map_app, IH. reflexivity.
Qed.

(** The sum of an array, one axis at a time. *)
Lemma sum_indices_cons (it : list nat -> float) (n : nat) (s : list nat) :
  Float.sum (map it (indices (n :: s)))
  = Float.sum (map (fun i => Float.sum (map (fun idx => it (i :: idx)) (indices s)))
                   (seq 0 n)).
Proof.
  cbn [indices]. rewrite map_flat_map, sum_flat_map.
  apply sum_map_ext. intros i _. rewrite map_map. reflexivity.
Qed.

Lemma np_sum_3d (arr : ndarray) (a b c : nat) :
  shape arr = [a; b; c] ->
  np_sum arr
  = Float.sum (map (fun i =>
      Float.sum (map (fun j =>
        Float.sum (map (fun k => item arr [i; j; k]) (seq 0 c))) (seq 0 b))) (seq 0 a)).
Proof.
  intros Hs. unfold np_sum, ravel. rewrite Hs.
  rewrite sum_indices_cons. apply sum_map_ext. intros i _.
  rewrite sum_indices_cons. apply sum_map_ext. intros j _.
  rewrite sum_indices_cons. apply sum_map_ext. intros k _.
  cbn [indices map]. rewrite sum_cons, sum_nil. apply add_zero_r.
Qed.

(** Summing blocks of [f * f] entries of a grid, then the blocks, gives the
    sum of the grid. *)
Lemma sum_blocks_2d (h : nat -> nat -> float) (f ny nx : nat) :
  Float.sum (map (fun I =>
    Float.sum (map (fun J =>
      Float.sum (map (fun di =>
        Float.sum (map (fun dj => h (I * f + di) (J * f + dj)) (seq 0 f)))
        (seq 0 f))) (seq 0 nx))) (seq 0 ny))
  = Float.sum (map (fun i => Float.sum (map (h i) (seq 0 (nx * f)))) (seq 0 (ny * f))).
Proof.
  rewrite <- (sum_blocks (fun i => Float.sum (map (h i) (seq 0 (nx * f)))) f ny).
  apply sum_map_ext. intros I _.
  rewrite (sum_swap (fun J di =>
             Float.sum (map (fun dj => h (I * f + di) (J * f + dj)) (seq 0 f)))).
  apply sum_map_ext. intros di _.
  apply (sum_blocks (h (I * f + di)) f nx).
Qed.

Lemma ravel_map_array (f : float -> float) (a : ndarray) :
  ravel (map_array f a) = map f (ravel a).
Proof. unfold ravel, map_array. cbn [shape item]. rewrite map_map. reflexivity. Qed.

(** Dividing an array by its sum, when that sum is finite and not zero,
    gives an array of sum 1. *)
Lemma np_sum_normalized (a : ndarray) (s : Qc) :
  np_sum a = Fin s -> s <> 0%Qc ->
  np_sum (map_array (fun x => (x / np_sum a)%fl) a) = one.
Proof.
  intros Hs Hne. unfold np_sum at 1. rewrite ravel_map_array, Hs.
  rewrite (sum_div_distr (fun x => x) (ravel a) Hne), map_id.
  fold (np_sum a). rewrite Hs. unfold div, one.
  destruct (s ?= 0)%Qc eqn:E.
  - apply Qceq_alt in E. contradiction.
  - f_equal. field. exact Hne.
  - f_equal. field. exact Hne.
Qed.

Section Kernel.

Variable log_center : Qc -> Qc -> Qc.
Variable interp_by_coord : Map -> Coord -> interp_method -> option float -> float.
Variable to_odd_npix : Geom -> Qc -> Geom.
Variable separation : Geom -> SkyCoord -> nat -> nat -> Qc.

Local Abbreviation kernel :=
  (get_psf_kernel log_center interp_by_coord to_odd_npix separation).

(** C1, as amended.  [get_psf_kernel] interpolates the PSF map on the
    oversampled grid, replaces the negative interpolated values by zero,
    downsamples by the oversampling factor without changing the total sum,
    and divides by the total: the mass of the returned kernel is 1 whenever
    the sum of the clipped values is finite and positive. *)
Theorem get_psf_kernel_normalized
    (self : PSFMap) (position : option SkyCoord) (geom_ : Geom)
    (max_radius : option Qc) (factor : nat) (r : Qc) (energy_axis : MapAxis) :
  0 < factor ->
  kernel_max_radius log_center self geom_ max_radius = Ok r ->
  axes_get "energy_true" (to_odd_npix geom_ r) = Ok energy_axis ->
  let g := to_odd_npix geom_ r in
  let gu := upsample g factor in
  let pos := match position with
             | None => center_skydir (geom (psf_map self))
             | Some p => p
             end in
  let interpolated :=
    kernel_data interp_by_coord (psf_map self) pos (center log_center energy_axis)
                gu (separation gu (center_skydir g)) in
  let clipped := np_clip interpolated zero inf in
  exists down,
    downsample (from_geom gu clipped "") factor true = Ok down
    /\ kernel self position geom_ max_radius factor = Ok (PSFKernel_init down true)
    /\ (forall idx,
          item clipped idx
          = if (item interpolated idx <? zero)%fl then zero
            else item interpolated idx)
    /\ np_sum (data down) = np_sum clipped
    /\ (forall s,
          np_sum clipped = Fin s -> (0 < s)%Qc ->
          np_sum (data (psf_kernel_map (PSFKernel_init down true))) = one).
Proof.
  intros Hf Hr He g gu pos interpolated clipped.
  assert (Hf0 : (factor =? 0) = false) by (apply Nat.eqb_neq; lia).
  assert (Hdown : exists down,
             downsample (from_geom gu clipped "") factor true = Ok down
             /\ np_sum (data down) = np_sum clipped).
  { set (ny := snd (npix g)). set (nx := fst (npix g)).
    set (ne := List.length (center log_center energy_axis)).
    assert (Hshape : shape clipped = [ne; ny * factor; nx * factor]) by reflexivity.
    unfold downsample. rewrite Hf0. eexists. split; [reflexivity |].
    cbn [data from_geom]. rewrite Hshape.
    cbn [List.length Nat.sub firstn nth app].
    rewrite !Nat.div_mul by lia.
    erewrite np_sum_3d by reflexivity.
    erewrite (@np_sum_3d clipped) by exact Hshape.
    apply sum_map_ext. intros e _.
    etransitivity;
      [| apply (sum_blocks_2d (fun i j => item clipped [e; i; j]) factor ny nx)].
    apply sum_map_ext. intros I _. apply sum_map_ext. intros J _.
    cbn [item]. unfold block. cbn [List.length Nat.sub firstn nth app].
    rewrite map_flat_map, sum_flat_map.
    apply sum_map_ext. intros di _. rewrite map_map. reflexivity. }
  destruct Hdown as (down & Hd & Hsum).
  exists down. split; [exact Hd |]. split; [| split; [| split]].
  - unfold get_psf_kernel. rewrite Hr. cbn [bind]. rewrite He. cbn [bind].
    fold g. fold gu. fold pos. fold interpolated. fold clipped.
    rewrite Hd. reflexivity.
  - intros idx. unfold clipped, np_clip, map_array. cbn [item].
    apply clip_nonnegative.
  - exact Hsum.
  - intros s Hs Hpos. unfold PSFKernel_init. cbn [psf_kernel_map data].
    rewrite <- Hsum in Hs. apply (np_sum_normalized _ Hs).
    intros E. rewrite E in Hpos. discriminate Hpos.
Qed.

End Kernel.

Lemma get_psf_kernel_normalized_witness :
  exists k,
    get_psf_kernel Demo.log_center Demo.interp_by_coord Demo.to_odd_npix Demo.separation
                   Demo.flat_psf None Demo.kernel_geom None factor_default = Ok k
    /\ np_sum (data (psf_kernel_map k)) = one.
Proof.
  destruct (@get_psf_kernel_normalized
              Demo.log_center Demo.interp_by_coord Demo.to_odd_npix Demo.separation
              Demo.flat_psf None Demo.kernel_geom None factor_default
              (Demo.qc 3 4) Demo.energy_axis)
    as (down & _ & Hk & _ & _ & Hmass).
  - unfold factor_default. lia.
  - vm_compute. f_equal; try qc_eq.
  - reflexivity.
  - eexists. split; [exact Hk |].
    eapply Hmass.
    + vm_compute. reflexivity.
    + reflexivity.
Defined.

(** On the PSF map of zeros that [PSFMap.from_geom] creates, the clipped
    values sum to zero, the normalisation divides zero by zero and the mass
    of the returned kernel is NaN, not 1. *)
Lemma get_psf_kernel_zero_mass :
  exists k,
    get_psf_kernel Demo.log_center Demo.interp_by_coord Demo.to_odd_npix Demo.separation
                   Demo.empty_psf None Demo.kernel_geom None factor_default = Ok k
    /\ np_sum (data (psf_kernel_map k)) <> one.
Proof.
  eexists. split; [reflexivity |].
  vm_compute. discriminate.
Qed.

(* ------------------------------------------------------------------ *)
(** * Further properties of the code *)

(** ** Pixel axes of the IRF view *)

Lemma Qc_of_nat_succ (k : nat) : Qc_of_nat (S k) = (Qc_of_nat k + 1)%Qc.
Proof.
  unfold Qc_of_nat. apply Qc_is_canon.
  unfold Qcplus, Q2Qc. cbn [this]. rewrite !Qred_correct.
  rewrite Nat2Z.inj_succ. unfold Z.succ. rewrite inject_Z_plus. reflexivity.
Qed.

Lemma pairs_map_seq (f : nat -> Qc) (n a : nat) :
  pairs (map f (seq a (S n))) = map (fun k => (f k, f (S k))) (seq a n).
Proof.
  revert a. induction n as [| n IH]; intros a.
  - reflexivity.
  - change (seq a (S (S n))) with (a :: seq (S a) (S n)).
    cbn [map seq]. rewrite <- (IH (S a)). reflexivity.
Qed.

Lemma length_pairs (l : list Qc) : List.length (pairs l) = List.length l - 1.
Proof.
  induction l as [| a [| b l] IH]; try reflexivity.
  change (pairs (a :: b :: l)) with ((a, b) :: pairs (b :: l)).
  cbn [List.length] in *. rewrite IH. lia.
Qed.

Lemma length_center (log_center : Qc -> Qc -> Qc) (ax : MapAxis) :
  List.length (center log_center ax) = nbin ax.
Proof. unfold center, nbin. rewrite length_map. apply length_pairs. Qed.

(** The centres of the axis built on the edges [-1/2, 1/2, ..., n - 1/2] are
    the pixel indices 0, ..., n - 1. *)
Lemma center_pixel_edges (log_center : Qc -> Qc -> Qc) (n : nat) (nm : string) :
  center log_center (from_edges (pixel_edges n) nm) = map Qc_of_nat (seq 0 n).
Proof.
  unfold center, from_edges, pixel_edges. cbn [edges interp].
  replace (n + 1) with (S n) by lia.
  rewrite (pairs_map_seq (fun k => (Qc_of_nat k - Q2Qc (1 # 2))%Qc)), map_map.
  apply map_ext. intros k. cbv beta iota. rewrite Qc_of_nat_succ.
  assert (H2 : Q2Qc 2 = (1 + 1)%Qc) by qc_eq.
  assert (Hh : (Q2Qc (1 # 2) = 1 / (1 + 1))%Qc) by qc_eq.
  rewrite Hh, H2. field. discriminate.
Qed.

(** X1.  The IRF view of a PSF map indexes positions by pixel: its latitude
    and longitude axes have one bin per pixel row and column, and the bin
    centres are the pixel indices 0, 1, ..., so that the pixel coordinates
    computed by [_get_irf_coords] are coordinates on these axes.  The view
    exists as soon as the map has its energy and offset axes, and shares the
    data of the map. *)
Theorem psf_irf_pixel_axes
    (log_center : Qc -> Qc -> Qc) (self : PSFMap) (energy_axis rad_axis : MapAxis) :
  axes_get "energy_true" (geom (psf_map self)) = Ok energy_axis ->
  axes_get "rad" (geom (psf_map self)) = Ok rad_axis ->
  exists irf axis_lat axis_lon,
    _psf_irf self = Ok irf
    /\ irf_axes irf = [energy_axis; rad_axis; axis_lat; axis_lon]
    /\ irf_data irf = data (psf_map self)
    /\ name axis_lat = "lat_idx" /\ name axis_lon = "lon_idx"
    /\ center log_center axis_lon
       = map Qc_of_nat (seq 0 (fst (npix (geom (psf_map self)))))
    /\ center log_center axis_lat
       = map Qc_of_nat (seq 0 (snd (npix (geom (psf_map self))))).
Proof.
  intros He Hr. unfold _psf_irf.
  destruct (npix (geom (psf_map self))) as [npix_x npix_y].
  rewrite He, Hr. cbn [bind fst snd].
  eexists. eexists. eexists.
  split; [reflexivity |]. cbn [irf_axes irf_data].
  split; [reflexivity |]. split; [reflexivity |].
  split; [reflexivity |]. split; [reflexivity |].
  split; apply center_pixel_edges.
Qed.

Lemma psf_irf_pixel_axes_witness :
  exists irf axis_lat axis_lon,
    _psf_irf Demo.flat_psf = Ok irf
    /\ irf_axes irf = [Demo.energy_axis; Demo.rad_axis; axis_lat; axis_lon]
    /\ irf_data irf = data (psf_map Demo.flat_psf)
    /\ name axis_lat = "lat_idx" /\ name axis_lon = "lon_idx"
    /\ center Demo.log_center axis_lon = map Qc_of_nat (seq 0 1)
    /\ center Demo.log_center axis_lat = map Qc_of_nat (seq 0 1).
Proof.
  apply (@psf_irf_pixel_axes Demo.log_center Demo.flat_psf
           Demo.energy_axis Demo.rad_axis); reflexivity.
Defined.

(** ** Missing keys and axes *)

Lemma axes_get_absent (nm : string) (g : Geom) :
  Forall (fun ax => name ax <> nm) (axes g) ->
  axes_get nm g = Raise (KeyError nm).
Proof.
  unfold axes_get. intros H.
  destruct (find _ (axes g)) as [ax |] eqn:E; [| reflexivity].
  apply find_some in E. destruct E as [Hin E].
  apply String.eqb_eq in E.
  rewrite Forall_forall in H. elim (H ax Hin E).
Qed.

(** X2.  Coordinates without an [energy_true] entry make
    [containment_radius] raise [KeyError('energy_true')], whatever the
    fraction and the axes of the map: the key is looked up before anything
    else is checked. *)
Theorem containment_radius_missing_energy
    (log_center : Qc -> Qc -> Qc) (coord_to_pix : Geom -> SkyCoord -> Qc * Qc)
    (PSF_containment : IRFLikePSF -> Qc -> Qc -> Qc -> Qc -> float)
    (self : PSFMap) (fraction : Qc) (coords : MapCoord) :
  energy_true coords = None ->
  containment_radius log_center coord_to_pix PSF_containment self fraction coords
  = Raise (KeyError "energy_true").
Proof.
  intros H. unfold containment_radius, _get_irf_coords. rewrite H. reflexivity.
Qed.

Lemma containment_radius_missing_energy_witness :
  containment_radius Demo.log_center Demo.coord_to_pix Demo.PSF_containment
    Demo.flat_psf (Demo.qc 3 2)
    {| skycoord := [Demo.origin]; energy_true := None; rad := Some [Demo.qc 1 4] |}
  = Raise (KeyError "energy_true").
Proof.
  apply (@containment_radius_missing_energy
           Demo.log_center Demo.coord_to_pix Demo.PSF_containment
           Demo.flat_psf (Demo.qc 3 2)).
  reflexivity.
Defined.

(** ** The default radius of a kernel *)

Lemma Qcmax_ge_l (a b : Qc) : (a <= Qcmax a b)%Qc.
Proof.
  unfold Qcmax. destruct (a ?= b)%Qc eqn:E; try apply Qcle_refl.
  apply Qclt_le_weak, Qclt_alt, E.
Qed.

Lemma Qcmax_cases (a b : Qc) : Qcmax a b = a \/ Qcmax a b = b.
Proof. unfold Qcmax. destruct (a ?= b)%Qc; auto. Qed.

Lemma fold_Qcmax_in (l : list Qc) (a : Qc) : In (fold_left Qcmax l a) (a :: l).
Proof.
  revert a. induction l as [| b l IH]; intros a; cbn [fold_left].
  - left. reflexivity.
  - destruct (IH (Qcmax a b)) as [H | H].
    + rewrite <- H. destruct (Qcmax_cases a b) as [E | E]; rewrite E.
      * left. reflexivity.
      * right. left. reflexivity.
    + right. right. exact H.
Qed.

Lemma Qcmax_ge_r (a b : Qc) : (b <= Qcmax a b)%Qc.
Proof.
  unfold Qcmax. destruct (a ?= b)%Qc eqn:E.
  - apply Qceq_alt in E. rewrite E. apply Qcle_refl.
  - apply Qcle_refl.
  - apply Qclt_le_weak, Qcgt_alt, E.
Qed.

Lemma fold_Qcmax_ge_init (l : list Qc) (a : Qc) : (a <= fold_left Qcmax l a)%Qc.
Proof.
  revert a. induction l as [| b l IH]; intros a; cbn [fold_left].
  - apply Qcle_refl.
  - eapply Qcle_trans; [apply Qcmax_ge_l | apply IH].
Qed.

Lemma fold_Qcmax_upper (l : list Qc) (a : Qc) :
  Forall (fun x => (x <= fold_left Qcmax l a)%Qc) (a :: l).
Proof.
  revert a. induction l as [| b l IH]; intros a; cbn [fold_left].
  - constructor; [apply Qcle_refl | constructor].
  - specialize (IH (Qcmax a b)). inversion IH as [| ? ? Hm Hl]; subst.
    constructor; [| constructor].
    + eapply Qcle_trans; [apply Qcmax_ge_l | exact Hm].
    + eapply Qcle_trans; [apply Qcmax_ge_r | exact Hm].
    + exact Hl.
Qed.

Lemma py_min_le_l (a b : Qc) : (py_min a b <= a)%Qc.
Proof.
  unfold py_min. destruct (b ?= a)%Qc eqn:E; try apply Qcle_refl.
  apply Qclt_le_weak, Qclt_alt, E.
Qed.

Lemma Qccompare_not_lt (a b : Qc) : (a ?= b)%Qc <> Lt -> (b <= a)%Qc.
Proof.
  intros H. apply Qcnot_lt_le. intros Hlt. apply H, Qclt_alt, Hlt.
Qed.

Lemma py_min_le_r (a b : Qc) : (py_min a b <= b)%Qc.
Proof.
  unfold py_min. destruct (b ?= a)%Qc eqn:E; try apply Qcle_refl;
    apply Qccompare_not_lt; rewrite E; discriminate.
Qed.

Lemma np_min2_le (w : Qc * Qc) : (np_min2 w <= fst w /\ np_min2 w <= snd w)%Qc.
Proof.
  unfold np_min2. destruct (snd w ?= fst w)%Qc eqn:E.
  - split; [apply Qcle_refl |]. apply Qceq_alt in E. rewrite E. apply Qcle_refl.
  - split; [| apply Qcle_refl]. apply Qclt_le_weak, Qclt_alt, E.
  - split; [apply Qcle_refl |]. apply Qclt_le_weak, Qcgt_alt, E.
Qed.

Lemma Qchalf_le (a b : Qc) : (a <= b)%Qc -> (a / Q2Qc 2 <= b / Q2Qc 2)%Qc.
Proof.
  intros H. unfold Qcdiv. apply Qcmult_le_compat_r; [exact H |].
  apply Qclt_le_weak, Qcinv_pos. reflexivity.
Qed.

(** X3.  When no maximum radius is given, the radius that [get_psf_kernel]
    uses is at most half of either width of the target geometry and at most
    the largest offset bin centre of the PSF map: the kernel neither reaches
    outside the target geometry nor beyond the offsets on which the PSF is
    tabulated. *)
Theorem kernel_default_radius_bounded
    (log_center : Qc -> Qc -> Qc) (self : PSFMap) (geom_ : Geom) (r : Qc) :
  kernel_max_radius log_center self geom_ None = Ok r ->
  (r <= fst (width geom_) / Q2Qc 2)%Qc
  /\ (r <= snd (width geom_) / Q2Qc 2)%Qc
  /\ exists rad_axis c,
       axes_get "rad" (geom (psf_map self)) = Ok rad_axis
       /\ In c (center log_center rad_axis)
       /\ Forall (fun c' => (c' <= c)%Qc) (center log_center rad_axis)
       /\ (r <= c)%Qc.
Proof.
  unfold kernel_max_radius.
  destruct (axes_get "rad" (geom (psf_map self))) as [rad_axis | e]; [| discriminate].
  cbn [bind]. unfold np_max.
  destruct (center log_center rad_axis) as [| a l] eqn:Ec; [discriminate |].
  cbn [bind]. intros H. injection H as <-.
  destruct (np_min2_le (width geom_)) as [Hx Hy].
  split; [| split].
  - eapply Qcle_trans; [apply py_min_le_r | apply Qchalf_le, Hx].
  - eapply Qcle_trans; [apply py_min_le_r | apply Qchalf_le, Hy].
  - exists rad_axis, (fold_left Qcmax l a). split; [reflexivity |].
    rewrite Ec.
    split; [apply fold_Qcmax_in |].
    split; [apply fold_Qcmax_upper | apply py_min_le_l].
Qed.

Lemma kernel_default_radius_bounded_witness :
  (Demo.qc 3 4 <= fst (width Demo.kernel_geom) / Q2Qc 2)%Qc
  /\ (Demo.qc 3 4 <= snd (width Demo.kernel_geom) / Q2Qc 2)%Qc
  /\ exists rad_axis c,
       axes_get "rad" (geom (psf_map Demo.flat_psf)) = Ok rad_axis
       /\ In c (center Demo.log_center rad_axis)
       /\ Forall (fun c' => (c' <= c)%Qc) (center Demo.log_center rad_axis)
       /\ (Demo.qc 3 4 <= c)%Qc.
Proof.
  apply (@kernel_default_radius_bounded Demo.log_center Demo.flat_psf
           Demo.kernel_geom (Demo.qc 3 4)).
  vm_compute. f_equal; try qc_eq.
Defined.

(** X4.  [get_psf_kernel] fails with a [KeyError] when an axis it needs is
    missing: ['rad'] when the PSF map has no offset axis and no maximum
    radius is given, ['energy_true'] when the target geometry has no true
    energy axis.  With a maximum radius given, the offset axis of the PSF
    map is not looked up. *)
Theorem get_psf_kernel_missing_axis
    (log_center : Qc -> Qc -> Qc)
    (interp_by_coord : Map -> Coord -> interp_method -> option float -> float)
    (to_odd_npix : Geom -> Qc -> Geom)
    (separation : Geom -> SkyCoord -> nat -> nat -> Qc)
    (self : PSFMap) (position : option SkyCoord) (geom_ : Geom) (factor : nat) :
  (Forall (fun ax => name ax <> "rad") (axes (geom (psf_map self))) ->
   get_psf_kernel log_center interp_by_coord to_odd_npix separation
                  self position geom_ None factor
   = Raise (KeyError "rad"))
  /\ (forall max_radius r,
        kernel_max_radius log_center self geom_ max_radius = Ok r ->
        Forall (fun ax => name ax <> "energy_true") (axes (to_odd_npix geom_ r)) ->
        get_psf_kernel log_center interp_by_coord to_odd_npix separation
                       self position geom_ max_radius factor
        = Raise (KeyError "energy_true"))
  /\ (forall r, kernel_max_radius log_center self geom_ (Some r) = Ok r).
Proof.
  split; [| split].
  - intros H. unfold get_psf_kernel, kernel_max_radius.
    rewrite (axes_get_absent _ H). reflexivity.
  - intros max_radius r Hr H. unfold get_psf_kernel.
    rewrite Hr. cbn [bind]. rewrite (axes_get_absent _ H). reflexivity.
  - reflexivity.
Qed.

Lemma get_psf_kernel_missing_axis_witness :
  get_psf_kernel Demo.log_center Demo.interp_by_coord Demo.to_odd_npix Demo.separation
                 Demo.bare_psf None Demo.kernel_geom None factor_default
  = Raise (KeyError "rad")
  /\ get_psf_kernel Demo.log_center Demo.interp_by_coord Demo.to_odd_npix Demo.separation
                    Demo.flat_psf None Demo.bare_geom (Some (Demo.qc 1 2)) factor_default
     = Raise (KeyError "energy_true").
Proof.
  split.
  - apply (proj1 (@get_psf_kernel_missing_axis
             Demo.log_center Demo.interp_by_coord Demo.to_odd_npix Demo.separation
             Demo.bare_psf None Demo.kernel_geom factor_default)).
    constructor.
  - apply (proj1 (proj2 (@get_psf_kernel_missing_axis
             Demo.log_center Demo.interp_by_coord Demo.to_odd_npix Demo.separation
             Demo.flat_psf None Demo.bare_geom factor_default))
             (Some (Demo.qc 1 2)) (Demo.qc 1 2)).
    + reflexivity.
    + constructor.
Defined.

(** ** Geometry of a kernel *)

Lemma downsample_upsample (g : Geom) (factor : nat) :
  0 < factor -> Geom_downsample (upsample g factor) factor = g.
Proof.
  intros Hf. destruct g as [ax [nx ny] c w s].
  unfold Geom_downsample, upsample. cbn [axes npix center_skydir width is_allsky fst snd].
  rewrite !Nat.div_mul by lia. reflexivity.
Qed.

(** X5.  The oversampling of [get_psf_kernel] is internal: the kernel that is
    returned lives on the odd-sized geometry derived from the target
    geometry, with one slice per true energy bin and the pixel numbers of
    that geometry, whatever the oversampling factor. *)
Theorem get_psf_kernel_geometry
    (log_center : Qc -> Qc -> Qc)
    (interp_by_coord : Map -> Coord -> interp_method -> option float -> float)
    (to_odd_npix : Geom -> Qc -> Geom)
    (separation : Geom -> SkyCoord -> nat -> nat -> Qc)
    (self : PSFMap) (position : option SkyCoord) (geom_ : Geom)
    (max_radius : option Qc) (factor : nat) (r : Qc) (energy_axis : MapAxis) :
  0 < factor ->
  kernel_max_radius log_center self geom_ max_radius = Ok r ->
  axes_get "energy_true" (to_odd_npix geom_ r) = Ok energy_axis ->
  exists k,
    get_psf_kernel log_center interp_by_coord to_odd_npix separation
                   self position geom_ max_radius factor = Ok k
    /\ geom (psf_kernel_map k) = to_odd_npix geom_ r
    /\ shape (data (psf_kernel_map k))
       = [nbin energy_axis;
          snd (npix (to_odd_npix geom_ r));
          fst (npix (to_odd_npix geom_ r))].
Proof.
  intros Hf Hr He.
  assert (Hf0 : (factor =? 0) = false) by (apply Nat.eqb_neq; lia).
  unfold get_psf_kernel. rewrite Hr. cbn [bind]. rewrite He. cbn [bind].
  unfold downsample. rewrite Hf0. cbn [bind].
  eexists. split; [reflexivity |].
  unfold PSFKernel_init. cbn [psf_kernel_map geom data from_geom].
  split; [apply downsample_upsample, Hf |].
  unfold np_clip, map_array, kernel_data, upsample.
  cbn [shape npix fst snd List.length Nat.sub firstn nth app].
  rewrite !Nat.div_mul by lia. rewrite length_center. reflexivity.
Qed.

Lemma get_psf_kernel_geometry_witness :
  exists k,
    get_psf_kernel Demo.log_center Demo.interp_by_coord Demo.to_odd_npix Demo.separation
                   Demo.flat_psf None Demo.kernel_geom None factor_default = Ok k
    /\ geom (psf_kernel_map k) = Demo.to_odd_npix Demo.kernel_geom (Demo.qc 3 4)
    /\ shape (data (psf_kernel_map k)) = [2; 1; 1].
Proof.
  apply (@get_psf_kernel_geometry
           Demo.log_center Demo.interp_by_coord Demo.to_odd_npix Demo.separation
           Demo.flat_psf None Demo.kernel_geom None factor_default
           (Demo.qc 3 4) Demo.energy_axis).
  - unfold factor_default. lia.
  - vm_compute. f_equal; try qc_eq.
  - reflexivity.
Defined.

(** ** Sampling: one position per event, and failures *)

Lemma uniform_length
    (RandomState : Type) (random_sample : RandomState -> Qc * RandomState)
    (low high : Qc) (n : nat) (s : RandomState) :
  List.length (fst (uniform random_sample low high n s)) = n.
Proof.
  revert s. induction n as [| n IH]; intros s; cbn [uniform].
  - reflexivity.
  - destruct (random_sample s) as [u s']. specialize (IH s').
    destruct (uniform random_sample low high n s') as [us s''].
    cbn [fst List.length] in *. rewrite IH. reflexivity.
Qed.

Section SamplingMore.

Variable log_center : Qc -> Qc -> Qc.
Variable interp_by_coord : Map -> Coord -> interp_method -> option float -> float.
Variable directional_offset_by : SkyCoord -> Qc -> Qc -> SkyCoord.
Variable RandomState : Type.
Variable seed_state : Z -> RandomState.
Variable random_sample : RandomState -> Qc * RandomState.

Local Abbreviation sample :=
  (sample_coord log_center interp_by_coord directional_offset_by
                seed_state random_sample).

(** X6.  [sample_coord] returns one position per event: when the PSF map has
    an offset axis and the input carries one true energy per position, the
    call returns and the number of positions in the result is the number of
    positions in the input. *)
Theorem sample_coord_one_position_per_event
    (self : PSFMap) (map_coord : MapCoord)
    (random_state : random_state_arg RandomState) (w : World RandomState)
    (rad_axis : MapAxis) (energy : list Qc) :
  axes_get "rad" (geom (psf_map self)) = Ok rad_axis ->
  energy_true map_coord = Some energy ->
  List.length energy = List.length (skycoord map_coord) ->
  exists out w',
    sample self map_coord random_state w = (Ok out, w')
    /\ List.length (skycoord out) = List.length (skycoord map_coord).
Proof.
  intros Hr He Hlen. unfold sample_coord. rewrite Hr, He. cbn [getitem].
  unfold sample_axis.
  set (pdf := sample_pdf log_center interp_by_coord (psf_map self) rad_axis
                         (skycoord map_coord) energy).
  assert (Hpdf : List.length pdf = List.length (skycoord map_coord)).
  { unfold pdf, sample_pdf. rewrite length_map, length_combine. lia. }
  pose proof (uniform_length random_sample uniform_low_default 1%Qc
                (List.length pdf) (get_random_state seed_state random_state w)) as Hc.
  destruct (uniform random_sample uniform_low_default 1%Qc (List.length pdf) _)
    as [choice rs1].
  pose proof (uniform_length random_sample (Q2Qc 360) uniform_high_default
                (List.length (skycoord map_coord)) rs1) as Ha.
  destruct (uniform random_sample (Q2Qc 360) uniform_high_default _ rs1)
    as [angle rs2].
  cbn [fst] in Hc, Ha.
  eexists. eexists. split; [reflexivity |].
  cbn [skycoord]. rewrite length_map, !length_combine, !length_map, length_combine.
  lia.
Qed.

(** X7.  A failure of [sample_coord] draws no random number: on a PSF map
    without offset axis the call raises [KeyError('rad')], on coordinates
    without true energies [KeyError('energy_true')], and in both cases the
    state of the global generator is left as it was, also when the global
    generator is the one asked for. *)
Theorem sample_coord_failure_draws_nothing
    (self : PSFMap) (map_coord : MapCoord)
    (random_state : random_state_arg RandomState) (w : World RandomState) :
  (Forall (fun ax => name ax <> "rad") (axes (geom (psf_map self))) ->
   sample self map_coord random_state w = (Raise (KeyError "rad"), w))
  /\ (forall rad_axis,
        axes_get "rad" (geom (psf_map self)) = Ok rad_axis ->
        energy_true map_coord = None ->
        sample self map_coord random_state w = (Raise (KeyError "energy_true"), w)).
Proof.
  split.
  - intros H. unfold sample_coord. rewrite (axes_get_absent _ H). reflexivity.
  - intros rad_axis Hr He. unfold sample_coord. rewrite Hr, He. reflexivity.
Qed.

End SamplingMore.

Lemma sample_coord_one_position_per_event_witness :
  exists out w',
    sample_coord Demo.log_center Demo.interp_by_coord Demo.directional_offset_by
                 Demo.seed_state Demo.random_sample
                 Demo.flat_psf Demo.one_event rs_global_rng Demo.world = (Ok out, w')
    /\ List.length (skycoord out) = List.length (skycoord Demo.one_event).
Proof.
  apply (@sample_coord_one_position_per_event
           Demo.log_center Demo.interp_by_coord Demo.directional_offset_by
           Demo.RandomState Demo.seed_state Demo.random_sample
           Demo.flat_psf Demo.one_event rs_global_rng Demo.world
           Demo.rad_axis [Demo.qc 3 2]); reflexivity.
Defined.

Lemma sample_coord_failure_draws_nothing_witness :
  sample_coord Demo.log_center Demo.interp_by_coord Demo.directional_offset_by
               Demo.seed_state Demo.random_sample
               Demo.bare_psf Demo.one_event rs_global_rng Demo.world
  = (Raise (KeyError "rad"), Demo.world)
  /\ sample_coord Demo.log_center Demo.interp_by_coord Demo.directional_offset_by
                  Demo.seed_state Demo.random_sample
                  Demo.flat_psf
                  {| skycoord := [Demo.origin]; energy_true := None; rad := None |}
                  rs_global_rng Demo.world
     = (Raise (KeyError "energy_true"), Demo.world).
Proof.
  split.
  - apply (proj1 (@sample_coord_failure_draws_nothing
             Demo.log_center Demo.interp_by_coord Demo.directional_offset_by
             Demo.RandomState Demo.seed_state Demo.random_sample
             Demo.bare_psf Demo.one_event rs_global_rng Demo.world)).
    constructor.
  - apply (proj2 (@sample_coord_failure_draws_nothing
             Demo.log_center Demo.interp_by_coord Demo.directional_offset_by
             Demo.RandomState Demo.seed_state Demo.random_sample
             Demo.flat_psf
             {| skycoord := [Demo.origin]; energy_true := None; rad := None |}
             rs_global_rng Demo.world) Demo.rad_axis); reflexivity.
Defined.

(** ** Energy marginalisation: the role of [keepdims], the sign of the result *)



Section ToImageMore.

Variable SpectralModel : Type.
Variable PowerLawSpectralModel : Qc -> SpectralModel.
Variable spectral_weight : SpectralModel -> MapAxis -> nat -> float.

Local Abbreviation image := (to_image PowerLawSpectralModel spectral_weight).
Local Abbreviation weight := (weighted_exposure spectral_weight).
Local Abbreviation chosen := (spectrum_or_default PowerLawSpectralModel).

(** X8.  [keepdims] changes the shape of the result of [to_image] and
    nothing else: with and without it the call returns, and the two PSF maps
    and the two exposure maps hold the same values, at index [(0, r, y, x)]
    with the energy axis kept and [(r, y, x)] without.  In particular the
    division by the summed exposure broadcasts correctly in both cases. *)
Theorem to_image_keepdims_values
    (self : PSFMap) (spectrum : option SpectralModel)
    (em : Map) (energy_axis : MapAxis) (ne nr ny nx : nat) :
  consistent self em energy_axis ne nr ny nx ->
  exists kept dropped exposure_kept exposure_dropped,
    image self spectrum true = Ok kept
    /\ image self spectrum false = Ok dropped
    /\ exposure_map kept = Some exposure_kept
    /\ exposure_map dropped = Some exposure_dropped
    /\ forall r y x, r < nr -> y < ny -> x < nx ->
         item (data (psf_map kept)) [0; r; y; x]
         = item (data (psf_map dropped)) [r; y; x]
         /\ item (data exposure_kept) [0; 0; y; x]
            = item (data exposure_dropped) [0; y; x].
Proof.
  intros Hc.
  destruct (@to_image_value _ PowerLawSpectralModel spectral_weight
              self spectrum true em energy_axis ne nr ny nx Hc)
    as (kept & ek & Hk & Hek & Hvk).
  destruct (@to_image_value _ PowerLawSpectralModel spectral_weight
              self spectrum false em energy_axis ne nr ny nx Hc)
    as (dropped & ed & Hd & Hed & Hvd).
  exists kept, dropped, ek, ed. repeat (split; [assumption |]).
  intros r y x Hr Hy Hx.
  destruct (Hvk r y x Hr Hy Hx) as [Hk1 Hk2].
  destruct (Hvd r y x Hr Hy Hx) as [Hd1 Hd2].
  cbn [lead] in *. split; congruence.
Qed.


End ToImageMore.

Lemma to_image_keepdims_values_witness :
  exists kept dropped,
    to_image Demo.PowerLawSpectralModel Demo.spectral_weight Demo.flat_psf None true
    = Ok kept
    /\ to_image Demo.PowerLawSpectralModel Demo.spectral_weight Demo.flat_psf None false
       = Ok dropped
    /\ item (data (psf_map kept)) [0; 1; 0; 0] = item (data (psf_map dropped)) [1; 0; 0].
Proof.
  destruct (@to_image_keepdims_values
              Demo.SpectralModel Demo.PowerLawSpectralModel Demo.spectral_weight
              Demo.flat_psf None _ Demo.energy_axis 2 2 1 1
              (demo_consistent (Fin (Demo.qc 1 1)) (fun _ => Fin (Demo.qc 1 1))))
    as (kept & dropped & ek & ed & Hk & Hd & _ & _ & Hv).
  exists kept, dropped. split; [exact Hk |]. split; [exact Hd |].
  apply (Hv 1 0 0); lia.
Defined.


(** ** Means of values that no rounding touches *)

Lemma Qc_of_nat_pos (n : nat) : 0 < n -> (0 < Qc_of_nat n)%Qc.
Proof.
  intros Hn. unfold Qc_of_nat, Qclt.
  change (0 < Qred (inject_Z (Z.of_nat n)))%Q.
  rewrite Qred_correct. unfold Qlt, inject_Z. cbn [Qnum Qden]. lia.
Qed.

Lemma sum_repeat_zero (n : nat) : Float.sum (repeat zero n) = zero.
Proof.
  induction n as [| n IH]; cbn [repeat]; [reflexivity |].
  rewrite sum_cons, IH. apply add_zero_r.
Qed.

Lemma sum_repeat_inf (v : float) (n : nat) :
  v = PInf \/ v = NInf -> Float.sum (repeat v (S n)) = v.
Proof.
  intros Hv. induction n as [| n IH].
  - cbn [repeat]. rewrite sum_cons, sum_nil. apply add_zero_r.
  - change (repeat v (S (S n))) with (v :: repeat v (S n)).
    rewrite sum_cons, IH. destruct Hv as [-> | ->]; reflexivity.
Qed.

Lemma drop_nan_repeat (v : float) (n : nat) :
  drop_nan (repeat v n) = if is_nan v then [] else repeat v n.
Proof.
  unfold drop_nan. induction n as [| n IH]; cbn [repeat filter].
  - destruct (is_nan v); reflexivity.
  - rewrite IH. destruct (is_nan v); reflexivity.
Qed.

(** The mean of [n > 0] copies of zero, of an infinity or of NaN is that
    value: no rounding takes place. *)
Lemma nanmean_repeat (v : float) (n : nat) :
  0 < n -> v = zero \/ is_finite v = false -> nanmean (repeat v n) = v.
Proof.
  intros Hn Hv. unfold nanmean, nansum. rewrite drop_nan_repeat.
  destruct Hv as [-> | Hv].
  - cbn [is_nan zero]. fold zero. rewrite repeat_length, sum_repeat_zero.
    change (of_nat n) with (Fin (Qc_of_nat n)). unfold zero, div.
    rewrite (Qcpos_compare (Qc_of_nat_pos Hn)). f_equal. unfold Qcdiv. ring.
  - destruct v as [c | | |]; cbn [is_nan]; try discriminate Hv.
    + rewrite repeat_length. destruct n as [| n]; [lia |].
      rewrite sum_repeat_inf by auto.
      change (of_nat (S n)) with (Fin (Qc_of_nat (S n))). unfold div.
      rewrite (Qcpos_compare (Qc_of_nat_pos Hn)). reflexivity.
    + rewrite repeat_length. destruct n as [| n]; [lia |].
      rewrite sum_repeat_inf by auto.
      change (of_nat (S n)) with (Fin (Qc_of_nat (S n))). unfold div.
      rewrite (Qcpos_compare (Qc_of_nat_pos Hn)). reflexivity.
    + reflexivity.
Qed.

Lemma map_constant {A B : Type} (f : A -> B) (v : B) (l : list A) :
  (forall a, In a l -> f a = v) -> map f l = repeat v (List.length l).
Proof.
  induction l as [| a l IH]; intros H; cbn [map List.length repeat].
  - reflexivity.
  - rewrite (H a (or_introl eq_refl)), IH; [reflexivity |].
    intros b Hb. apply H. right. exact Hb.
Qed.

(** X10.  Reducing over a region keeps the values that mark missing or
    unbounded data: if, for some energy and offset bin, the PSF map is zero
    at all pixels of a non-empty region, or NaN at all of them, or the same
    infinity at all of them, the reduced map has that value in that bin. *)
Theorem to_region_nd_map_uniform
    (log_center : Qc -> Qc -> Qc)
    (interp_by_coord : Map -> Coord -> interp_method -> option float -> float)
    (SkyRegion : Type) (region_mask : Geom -> SkyRegion -> list (nat * nat))
    (self : PSFMap) (r : SkyRegion) (idx : list nat) (v : float) :
  region_mask (geom (psf_map self)) r <> [] ->
  v = zero \/ is_finite v = false ->
  (forall iy ix,
      In (iy, ix) (region_mask (geom (psf_map self)) r) ->
      item (data (psf_map self))
           (firstn (List.length (axes (geom (psf_map self)))) idx ++ [iy; ix]) = v) ->
  item (data (psf_map (to_region_nd_map log_center interp_by_coord region_mask
                         self (Some (region_sky r))))) idx
  = v.
Proof.
  intros Hne Hspecial Hv. unfold to_region_nd_map.
  cbn [psf_map Map_to_region_nd_map data item].
  rewrite (@map_constant _ _ _ v).
  - apply nanmean_repeat; [| exact Hspecial].
    destruct (region_mask (geom (psf_map self)) r); [contradiction | cbn; lia].
  - intros [iy ix] Hin. apply Hv, Hin.
Qed.

Lemma to_region_nd_map_uniform_witness :
  item (data (psf_map (to_region_nd_map Demo.log_center Demo.interp_by_coord
                         Demo.region_mask Demo.empty_psf
                         (Some (region_sky [(0, 0); (0, 0)]))))) [1; 0; 0; 0]
  = zero.
Proof.
  apply (@to_region_nd_map_uniform Demo.log_center Demo.interp_by_coord
           Demo.SkyRegion Demo.region_mask Demo.empty_psf
           [(0, 0); (0, 0)] [1; 0; 0; 0] zero).
  - discriminate.
  - left. reflexivity.
  - intros iy ix _. reflexivity.
Defined.

(** ** Constructors of PSF maps *)

Lemma nbin_squash_axis (ax : MapAxis) : nbin (squash_axis ax) = 1.
Proof. reflexivity. Qed.

Lemma squash_rad_axes (g : Geom) (rad_axis energy_axis : MapAxis) :
  axes g = [rad_axis; energy_axis] ->
  name rad_axis = "rad" -> name energy_axis = "energy_true" ->
  axes (squash "rad" g) = [squash_axis rad_axis; energy_axis].
Proof.
  intros Ha Hr He. unfold squash. cbn [axes]. rewrite Ha. cbn [map].
  rewrite Hr, He. reflexivity.
Qed.

(** X11.  [PSFMap.from_geom] builds a consistent pair of maps of zeros: on a
    geometry with the axes [rad, energy_true] the PSF map has the shape of
    the geometry, the exposure map has the same geometry with the offset
    axis reduced to one bin, and all values of both are zero. *)
Theorem from_geom_consistent_zeros (g : Geom) (rad_axis energy_axis : MapAxis) :
  axes g = [rad_axis; energy_axis] ->
  name rad_axis = "rad" -> name energy_axis = "energy_true" ->
  exists em,
    exposure_map (PSFMap_from_geom g) = Some em
    /\ geom (psf_map (PSFMap_from_geom g)) = g
    /\ consistent (PSFMap_from_geom g) em energy_axis
                  (nbin energy_axis) (nbin rad_axis) (snd (npix g)) (fst (npix g))
    /\ (forall idx, item (data (psf_map (PSFMap_from_geom g))) idx = zero)
    /\ (forall idx, item (data em) idx = zero).
Proof.
  intros Ha Hr He. unfold PSFMap_from_geom. eexists.
  split; [reflexivity |]. split; [reflexivity |].
  split; [| split; intros idx; reflexivity].
  unfold consistent. cbn [exposure_map psf_map geom data from_geom shape zeros].
  split; [reflexivity |].
  split; [rewrite Ha; cbn [map]; rewrite Hr, He; reflexivity |].
  split.
  - exists (squash_axis rad_axis).
    split; [apply squash_rad_axes; assumption |]. split; assumption.
  - unfold data_shape. rewrite (@squash_rad_axes g _ _ Ha Hr He), Ha.
    cbn [map rev app npix squash]. rewrite nbin_squash_axis.
    split; reflexivity.
Qed.

Lemma from_geom_consistent_zeros_witness :
  exists em,
    exposure_map (PSFMap_from_geom Demo.psf_geom) = Some em
    /\ geom (psf_map (PSFMap_from_geom Demo.psf_geom)) = Demo.psf_geom
    /\ consistent (PSFMap_from_geom Demo.psf_geom) em Demo.energy_axis 2 2 1 1
    /\ (forall idx, item (data (psf_map (PSFMap_from_geom Demo.psf_geom))) idx = zero)
    /\ (forall idx, item (data em) idx = zero).
Proof.
  apply (@from_geom_consistent_zeros Demo.psf_geom Demo.rad_axis Demo.energy_axis);
    reflexivity.
Defined.

Lemma mul_one_l (v : float) : (one * v = v)%fl.
Proof.
  destruct v as [c | | |]; try reflexivity.
  unfold one, mul. f_equal. ring.
Qed.

Lemma broadcast_exposure_table (ne ny nx : nat) :
  broadcast_shapes [ne; 1; ny; nx] [ne; 1; 1; 1] = Some [ne; 1; ny; nx].
Proof. broadcast_cases. Qed.

Section TablePSFProperties.

Variable log_center : Qc -> Qc -> Qc.
Variable table_evaluate : EnergyDependentTablePSF -> Qc -> Qc -> float.
Variable WcsGeom_create : nat * nat -> Qc -> list MapAxis -> Geom.

Local Abbreviation from_table :=
  (from_energy_dependent_table_psf log_center table_evaluate WcsGeom_create).

(** X12.  The PSF map made from a table PSF is the table at every position:
    on a geometry with the axes [rad, energy_true], and with one exposure
    value per energy bin, the maps are consistent, the PSF value at any pixel
    is the table evaluated at the centres of the energy and offset bins,
    and the exposure at any pixel is the exposure of the table at that
    energy. *)
Theorem from_table_psf_values
    (table_psf : EnergyDependentTablePSF) (g : Geom) (rad_axis energy_axis : MapAxis) :
  axes g = [rad_axis; energy_axis] ->
  name rad_axis = "rad" -> name energy_axis = "energy_true" ->
  List.length (table_exposure table_psf) = nbin energy_axis ->
  exists out em,
    from_table table_psf (Some g) = Ok out
    /\ exposure_map out = Some em
    /\ consistent out em energy_axis
                  (nbin energy_axis) (nbin rad_axis) (snd (npix g)) (fst (npix g))
    /\ (forall e r y x,
          item (data (psf_map out)) [e; r; y; x]
          = table_evaluate table_psf (pix_to_coord log_center energy_axis e)
                                     (pix_to_coord log_center rad_axis r))
    /\ (forall e y x,
          e < nbin energy_axis -> y < snd (npix g) -> x < fst (npix g) ->
          item (data em) [e; 0; y; x] = nth e (table_exposure table_psf) NaN).
Proof.
  intros Ha Hr He Hlen. unfold from_energy_dependent_table_psf.
  unfold axes_get, index_data. rewrite Ha. cbn [find axes_index List.length].
  rewrite Hr, He.
  replace (String.eqb "rad" "energy_true") with false by reflexivity.
  replace (String.eqb "energy_true" "energy_true") with true by reflexivity.
  replace (String.eqb "rad" "rad") with true by reflexivity.
  cbn [option_map bind Nat.sub].
  assert (Hds : data_shape (squash "rad" g)
                = [nbin energy_axis; 1; snd (npix g); fst (npix g)]).
  { unfold data_shape. rewrite (@squash_rad_axes g _ _ Ha Hr He). reflexivity. }
  unfold multiply, binary. cbn [data from_geom shape ones].
  rewrite !Hds, Hlen, broadcast_exposure_table. cbn [bind].
  eexists. eexists. split; [reflexivity |]. split; [reflexivity |].
  split; [| split].
  - unfold consistent. cbn [exposure_map psf_map geom data from_geom shape].
    split; [reflexivity |].
    split; [rewrite Ha; cbn [map]; rewrite Hr, He; reflexivity |].
    split.
    + exists (squash_axis rad_axis).
      split; [apply squash_rad_axes; assumption |]. split; assumption.
    + unfold data_shape. rewrite Ha. split; reflexivity.
  - intros e r y x. reflexivity.
  - intros e y x Hbe Hy Hx. cbn [data item].
    unfold broadcast_index. cbn.
    rewrite ?(stretch_same Hbe), ?(stretch_same Hy), ?(stretch_same Hx).
    apply mul_one_l.
Qed.

(** X13.  A geometry that lacks one of the two axes makes
    [from_energy_dependent_table_psf] fail with the [KeyError] of that axis,
    the true energy first. *)
Theorem from_table_psf_missing_axis
    (table_psf : EnergyDependentTablePSF) (g : Geom) :
  (Forall (fun ax => name ax <> "energy_true") (axes g) ->
   from_table table_psf (Some g) = Raise (KeyError "energy_true"))
  /\ (forall energy_axis,
        axes_get "energy_true" g = Ok energy_axis ->
        Forall (fun ax => name ax <> "rad") (axes g) ->
        from_table table_psf (Some g) = Raise (KeyError "rad")).
Proof.
  split.
  - intros H. unfold from_energy_dependent_table_psf.
    rewrite (axes_get_absent _ H). reflexivity.
  - intros energy_axis He H. unfold from_energy_dependent_table_psf.
    rewrite He. cbn [bind].
    assert (Hi : exists k, index_data "energy_true" g = Ok k).
    { unfold index_data, axes_get in *.
      destruct (find _ (axes g)) as [ax |] eqn:E; [| discriminate].
      clear He. revert E. induction (axes g) as [| a l IH]; [discriminate |].
      cbn [find axes_index]. destruct (String.eqb (name a) "energy_true").
      - intros _. eexists. reflexivity.
      - inversion H as [| ? ? Hn Hl]; subst. intros E.
        destruct (IH Hl E) as [k Hk].
        destruct (axes_index "energy_true" l); [| discriminate].
        eexists. reflexivity. }
    destruct Hi as [k Hk]. rewrite Hk. cbn [bind].
    rewrite (axes_get_absent _ H). reflexivity.
Qed.

End TablePSFProperties.

Lemma from_table_psf_values_witness :
  exists out em,
    from_energy_dependent_table_psf Demo.log_center Demo.table_evaluate
      Demo.WcsGeom_create Demo.table (Some Demo.psf_geom) = Ok out
    /\ exposure_map out = Some em
    /\ item (data em) [1; 0; 0; 0] = nth 1 (table_exposure Demo.table) NaN.
Proof.
  destruct (@from_table_psf_values Demo.log_center Demo.table_evaluate
              Demo.WcsGeom_create Demo.table Demo.psf_geom
              Demo.rad_axis Demo.energy_axis)
    as (out & em & Hout & Hem & _ & _ & Hexp); try reflexivity.
  exists out, em. split; [exact Hout |]. split; [exact Hem |].
  apply (Hexp 1 0 0); cbn; lia.
Defined.

Lemma from_table_psf_missing_axis_witness :
  from_energy_dependent_table_psf Demo.log_center Demo.table_evaluate
    Demo.WcsGeom_create Demo.table (Some Demo.bare_geom)
  = Raise (KeyError "energy_true")
  /\ from_energy_dependent_table_psf Demo.log_center Demo.table_evaluate
       Demo.WcsGeom_create Demo.table (Some Demo.energy_geom)
     = Raise (KeyError "rad").
Proof.
  split.
  - apply (proj1 (@from_table_psf_missing_axis Demo.log_center Demo.table_evaluate
             Demo.WcsGeom_create Demo.table Demo.bare_geom)).
    constructor.
  - apply (proj2 (@from_table_psf_missing_axis Demo.log_center Demo.table_evaluate
             Demo.WcsGeom_create Demo.table Demo.energy_geom) Demo.energy_axis).
    + reflexivity.
    + repeat constructor. discriminate.
Defined.

(** ** Maps of containment radii *)

Lemma flat_map_singleton {A B : Type} (f : A -> B) (l : list A) :
  flat_map (fun a => [f a]) l = map f l.
Proof. induction l as [| a l IH]; cbn [flat_map map app]; congruence. Qed.

Lemma nth_flat_map_blocks {A : Type} (g : nat -> list A) (n : nat) (d : A) :
  (forall i, List.length (g i) = n) ->
  forall m a k j, k < m -> j < n ->
    nth (k * n + j) (flat_map g (seq a m)) d = nth j (g (a + k)) d.
Proof.
  intros Hlen. induction m as [| m IH]; intros a k j Hk Hj; [lia |].
  cbn [seq flat_map]. destruct k as [| k].
  - rewrite app_nth1 by (rewrite Hlen; lia).
    rewrite Nat.add_0_r. reflexivity.
  - rewrite app_nth2 by (rewrite Hlen; lia).
    rewrite Hlen. replace (S k * n + j - n) with (k * n + j) by lia.
    rewrite IH by lia. f_equal. f_equal. lia.
Qed.

Lemma indices_1d (n : nat) : indices [n] = map (fun j => [j]) (seq 0 n).
Proof. cbn [indices map]. apply (flat_map_singleton (fun j => [j])). Qed.

(** Row-major order: entry [iy * nx + ix] of the flattened grid is the pixel
    [(iy, ix)]. *)
Lemma nth_indices_2d {A : Type} (F : list nat -> A) (ny nx iy ix : nat) (d : A) :
  iy < ny -> ix < nx ->
  nth (iy * nx + ix) (map F (indices [ny; nx])) d = F [iy; ix].
Proof.
  intros Hy Hx.
  change (indices [ny; nx])
    with (flat_map (fun i => map (cons i) (indices [nx])) (seq 0 ny)).
  rewrite indices_1d, map_flat_map.
  rewrite (@nth_flat_map_blocks _ _ nx).
  - cbn [Nat.add]. rewrite !map_map.
    rewrite (nth_indep _ d (F [iy; 0])) by (rewrite length_map, length_seq; lia).
    rewrite (map_nth (fun j => F [iy; j]) (seq 0 nx) 0 ix).
    rewrite seq_nth by lia. reflexivity.
  - intros i. rewrite !length_map, length_seq. reflexivity.
  - exact Hy.
  - exact Hx.
Qed.

Lemma combine_repeat_map {A B C : Type} (e : A) (f : C -> B) (l : list C) :
  combine (repeat e (List.length l)) (map f l) = map (fun c => (e, f c)) l.
Proof. induction l as [| c l IH]; cbn [List.length repeat map combine]; congruence. Qed.

Lemma combine_map_map {A B C : Type} (f : C -> A) (g : C -> B) (l : list C) :
  combine (map f l) (map g l) = map (fun c => (f c, g c)) l.
Proof. induction l as [| c l IH]; cbn [map combine]; congruence. Qed.

Section RadiusMap.

Variable log_center : Qc -> Qc -> Qc.
Variable coord_to_pix : Geom -> SkyCoord -> Qc * Qc.
Variable PSF_containment : IRFLikePSF -> Qc -> Qc -> Qc -> Qc -> float.
Variable pix_to_skycoord : Geom -> nat -> nat -> SkyCoord.
Variable radius_unit : string.

Local Abbreviation radius := (containment_radius log_center coord_to_pix PSF_containment).
Local Abbreviation radius_map :=
  (containment_radius_map log_center coord_to_pix PSF_containment
                          pix_to_skycoord radius_unit).

(** The radii at a sequence of positions with one common energy are the
    radii at each position on its own. *)
Lemma containment_radius_pointwise
    (self : PSFMap) (fraction e : Qc) (energy_axis rad_axis : MapAxis) :
  (0 <= fraction)%Qc -> (fraction <= 1)%Qc ->
  axes_get "energy_true" (geom (psf_map self)) = Ok energy_axis ->
  axes_get "rad" (geom (psf_map self)) = Ok rad_axis ->
  exists G : SkyCoord -> Qc,
    (forall ps,
        radius self fraction
               {| skycoord := ps;
                  energy_true := Some (repeat e (List.length ps));
                  rad := None |}
        = Ok (map G ps)).
Proof.
  intros H0 H1 He Hr.
  pose proof (axes_get_name _ _ He) as Hne.
  pose proof (axes_get_name _ _ Hr) as Hnr.
  destruct (npix (geom (psf_map self))) as [npix_x npix_y] eqn:En.
  eexists. intros ps.
  unfold containment_radius, _get_irf_coords, _psf_irf.
  cbn [energy_true getitem bind skycoord].
  rewrite En, He, Hr. cbn [bind].
  unfold PSF_containment_radius. cbn [irf_axes find].
  rewrite Hne, Hnr. cbn [String.eqb Ascii.eqb Bool.eqb].
  cbn [irf_energy_true lat_idx lon_idx].
  assert (Hc0 : (fraction ?= 0)%Qc <> Lt).
  { intros E. apply (Qcle_not_lt _ _ H0). apply Qclt_alt. exact E. }
  assert (Hc1 : (fraction ?= 1)%Qc <> Gt).
  { apply Qcle_alt. exact H1. }
  rewrite !map_map.
  rewrite (combine_map_map (fun p => snd (coord_to_pix _ p))
                           (fun p => fst (coord_to_pix _ p))).
  rewrite combine_repeat_map, map_map.
  destruct (fraction ?= 0)%Qc; destruct (fraction ?= 1)%Qc;
    try contradiction; reflexivity.
Qed.

(** X14.  [containment_radius_map] evaluates the containment radius pixel by
    pixel: for a fraction in [0, 1] on a PSF map with its two axes, the
    result is an image on the spatial geometry of the PSF map, and its value
    at the pixel [(iy, ix)] is the containment radius at the sky position of
    that pixel and the given energy. *)
Theorem containment_radius_map_pixels
    (self : PSFMap) (fraction e : Qc) (energy_axis rad_axis : MapAxis) :
  (0 <= fraction)%Qc -> (fraction <= 1)%Qc ->
  axes_get "energy_true" (geom (psf_map self)) = Ok energy_axis ->
  axes_get "rad" (geom (psf_map self)) = Ok rad_axis ->
  let g := Geom_to_image (geom (psf_map self)) in
  exists m,
    radius_map self e fraction = Ok m
    /\ geom m = g
    /\ shape (data m) = [snd (npix g); fst (npix g)]
    /\ forall iy ix, iy < snd (npix g) -> ix < fst (npix g) ->
         exists rho,
           radius self fraction
                  {| skycoord := [pix_to_skycoord g iy ix];
                     energy_true := Some [e];
                     rad := None |}
           = Ok [rho]
           /\ item (data m) [iy; ix] = Fin rho.
Proof.
  intros H0 H1 He Hr g.
  destruct (@containment_radius_pointwise self fraction e energy_axis rad_axis
              H0 H1 He Hr) as [G HG].
  unfold containment_radius_map. fold g.
  rewrite HG. cbn [bind].
  eexists. split; [reflexivity |]. split; [reflexivity |]. split; [reflexivity |].
  intros iy ix Hy Hx. exists (G (pix_to_skycoord g iy ix)).
  split; [apply (HG [pix_to_skycoord g iy ix]) |].
  cbn [data from_geom item nth]. f_equal.
  rewrite map_map.
  apply (nth_indices_2d (fun idx => G (pix_to_skycoord g (nth 0 idx 0) (nth 1 idx 0)))
                        0%Qc Hy Hx).
Qed.

End RadiusMap.

Lemma containment_radius_map_pixels_witness :
  exists m rho,
    containment_radius_map Demo.log_center Demo.coord_to_pix Demo.PSF_containment
      Demo.pix_to_skycoord "deg" Demo.flat_psf (Demo.qc 3 2) fraction_default = Ok m
    /\ item (data m) [0; 0] = Fin rho.
Proof.
  destruct (@containment_radius_map_pixels
              Demo.log_center Demo.coord_to_pix Demo.PSF_containment
              Demo.pix_to_skycoord "deg" Demo.flat_psf fraction_default (Demo.qc 3 2)
              Demo.energy_axis Demo.rad_axis)
    as (m & Hm & _ & _ & Hpix); try reflexivity; try discriminate.
  destruct (Hpix 0 0) as (rho & _ & Hrho); try (cbn; lia).
  exists m, rho. split; assumption.
Defined.

(** ** Values of a kernel *)

Lemma in_indices_cons (n : nat) (s idx : list nat) :
  In idx (indices (n :: s)) <-> exists i t, idx = i :: t /\ i < n /\ In t (indices s).
Proof.
  cbn [indices]. rewrite in_flat_map. split.
  - intros (i & Hi & Hin). apply in_map_iff in Hin. destruct Hin as (t & <- & Ht).
    apply in_seq in Hi. exists i, t. repeat split; [lia | exact Ht].
  - intros (i & t & -> & Hi & Ht). exists i. split.
    + apply in_seq. lia.
    + apply in_map. exact Ht.
Qed.

Lemma in_indices_3d (a b c : nat) (idx : list nat) :
  In idx (indices [a; b; c])
  <-> exists i j k, idx = [i; j; k] /\ i < a /\ j < b /\ k < c.
Proof.
  rewrite in_indices_cons. split.
  - intros (i & t & -> & Hi & Ht). apply in_indices_cons in Ht.
    destruct Ht as (j & t' & -> & Hj & Ht'). apply in_indices_cons in Ht'.
    destruct Ht' as (k & t'' & -> & Hk & Ht''). cbn [indices In] in Ht''.
    destruct Ht'' as [<- | []]. exists i, j, k. auto.
  - intros (i & j & k & -> & Hi & Hj & Hk).
    exists i, [j; k]. split; [reflexivity |]. split; [exact Hi |].
    apply in_indices_cons. exists j, [k]. split; [reflexivity |]. split; [exact Hj |].
    apply in_indices_cons. exists k, []. split; [reflexivity |]. split; [exact Hk |].
    left. reflexivity.
Qed.

Lemma add_finite_inv (x y : float) :
  is_finite (x + y) = true -> is_finite x = true /\ is_finite y = true.
Proof. destruct x, y; cbn; intros H; try discriminate H; auto. Qed.

Lemma sum_finite_all (l : list float) :
  is_finite (Float.sum l) = true -> Forall (fun v => is_finite v = true) l.
Proof.
  induction l as [| x l IH]; intros H; constructor.
  - rewrite sum_cons in H. apply (add_finite_inv _ _ H).
  - apply IH. rewrite sum_cons in H. apply (add_finite_inv _ _ H).
Qed.

Lemma clip_finite_nonnegative (v : float) (a : Qc) :
  clip v zero inf = Fin a -> (0 <= a)%Qc.
Proof.
  rewrite clip_nonnegative. destruct v as [c | | |]; cbn [ltb].
  - unfold zero. destruct (c ?= 0)%Qc eqn:E; intros H; injection H as <-.
    + apply Qceq_alt in E. rewrite E. apply Qcle_refl.
    + apply Qcle_refl.
    + apply Qclt_le_weak, Qcgt_alt, E.
  - discriminate.
  - intros H. injection H as <-. apply Qcle_refl.
  - discriminate.
Qed.

Lemma finite_nonnegative_list (l : list float) :
  Forall (fun v => exists a, v = Fin a /\ (0 <= a)%Qc) l ->
  exists qs, l = map Fin qs /\ Forall (Qcle 0) qs.
Proof.
  induction 1 as [| v l (a & -> & Ha) _ (qs & -> & Hqs)].
  - exists []. split; [reflexivity | constructor].
  - exists (a :: qs). split; [reflexivity | constructor; assumption].
Qed.

Lemma sum_map_Fin (qs : list Qc) : Float.sum (map Fin qs) = Fin (Qcsum qs).
Proof.
  rewrite <- (map_id qs) at 2. apply (sum_fin (fun q => q)).
Qed.

Lemma Qcsum_nonnegative (qs : list Qc) : Forall (Qcle 0) qs -> (0 <= Qcsum qs)%Qc.
Proof.
  induction 1 as [| q qs Hq _ IH]; cbn [Qcsum fold_right].
  - apply Qcle_refl.
  - fold (Qcsum qs). replace 0%Qc with (0 + 0)%Qc by ring.
    apply Qcplus_le_compat; assumption.
Qed.

Lemma Qcsum_ge_member (qs : list Qc) (b : Qc) :
  Forall (Qcle 0) qs -> In b qs -> (b <= Qcsum qs)%Qc.
Proof.
  induction 1 as [| q qs Hq Hqs IH]; intros Hin; [contradiction |].
  cbn [Qcsum fold_right]. fold (Qcsum qs). destruct Hin as [-> | Hin].
  - replace b with (b + 0)%Qc at 1 by ring.
    apply Qcplus_le_compat; [apply Qcle_refl | apply Qcsum_nonnegative, Hqs].
  - replace b with (0 + b)%Qc by ring.
    apply Qcplus_le_compat; [exact Hq | apply IH, Hin].
Qed.

Lemma Fin_injective (a b : Qc) : Fin a = Fin b -> a = b.
Proof. intros H. injection H as H. exact H. Qed.

(** Downsampling an array of shape [(ne, ny * f, nx * f)]: shape, values and
    sum of the result. *)
Lemma downsample_blocks (m : Map) (f ne ny nx : nat) :
  0 < f ->
  shape (data m) = [ne; ny * f; nx * f] ->
  exists down,
    downsample m f true = Ok down
    /\ geom down = Geom_downsample (geom m) f
    /\ shape (data down) = [ne; ny; nx]
    /\ (forall e I J,
          item (data down) [e; I; J]
          = Float.sum (map (fun di =>
              Float.sum (map (fun dj => item (data m) [e; I * f + di; J * f + dj])
                             (seq 0 f))) (seq 0 f)))
    /\ np_sum (data down) = np_sum (data m).
Proof.
  intros Hf Hs.
  assert (Hf0 : (f =? 0) = false) by (apply Nat.eqb_neq; lia).
  unfold downsample. rewrite Hf0, Hs.
  cbn [List.length Nat.sub firstn nth app]. rewrite !Nat.div_mul by lia.
  eexists. split; [reflexivity |]. split; [reflexivity |]. split; [reflexivity |].
  cbn [data item].
  assert (Hitem : forall e I J,
             Float.sum (map (item (data m)) (block f [e; I; J]))
             = Float.sum (map (fun di =>
                 Float.sum (map (fun dj => item (data m) [e; I * f + di; J * f + dj])
                                (seq 0 f))) (seq 0 f))).
  { intros e I J. unfold block. cbn [List.length Nat.sub firstn nth app].
    rewrite map_flat_map, sum_flat_map.
    apply sum_map_ext. intros di _. rewrite map_map. reflexivity. }
  split; [exact Hitem |].
  erewrite np_sum_3d by reflexivity.
  erewrite (@np_sum_3d (data m)) by exact Hs.
  apply sum_map_ext. intros e _.
  etransitivity;
    [| apply (sum_blocks_2d (fun i j => item (data m) [e; i; j]) f ny nx)].
  apply sum_map_ext. intros I _. apply sum_map_ext. intros J _.
  cbn [item]. apply Hitem.
Qed.

Section KernelValues.

Variable log_center : Qc -> Qc -> Qc.
Variable interp_by_coord : Map -> Coord -> interp_method -> option float -> float.
Variable to_odd_npix : Geom -> Qc -> Geom.
Variable separation : Geom -> SkyCoord -> nat -> nat -> Qc.

(** X15.  The values of a kernel are fractions of its mass: whenever the
    clipped interpolated values have a finite, positive sum, every value of
    the kernel that [get_psf_kernel] returns is a finite number between 0
    and 1. *)
Theorem get_psf_kernel_values_in_unit_interval
    (self : PSFMap) (position : option SkyCoord) (geom_ : Geom)
    (max_radius : option Qc) (factor : nat) (r : Qc) (energy_axis : MapAxis) (s : Qc) :
  0 < factor ->
  kernel_max_radius log_center self geom_ max_radius = Ok r ->
  axes_get "energy_true" (to_odd_npix geom_ r) = Ok energy_axis ->
  let g := to_odd_npix geom_ r in
  let gu := upsample g factor in
  let pos := match position with
             | None => center_skydir (geom (psf_map self))
             | Some p => p
             end in
  let clipped :=
    np_clip (kernel_data interp_by_coord (psf_map self) pos
                         (center log_center energy_axis) gu
                         (separation gu (center_skydir g)))
            zero inf in
  np_sum clipped = Fin s -> (0 < s)%Qc ->
  exists k,
    get_psf_kernel log_center interp_by_coord to_odd_npix separation
                   self position geom_ max_radius factor = Ok k
    /\ forall e I J,
         e < nbin energy_axis -> I < snd (npix g) -> J < fst (npix g) ->
         exists q,
           item (data (psf_kernel_map k)) [e; I; J] = Fin q
           /\ (0 <= q)%Qc /\ (q <= 1)%Qc.
Proof.
  intros Hf Hr He g gu pos clipped Hs Hpos.
  set (ny := snd (npix g)). set (nx := fst (npix g)).
  set (ne := nbin energy_axis).
  assert (Hshape : shape clipped = [ne; ny * factor; nx * factor]).
  { unfold clipped, np_clip, map_array, kernel_data, gu, upsample.
    cbn [shape npix fst snd]. rewrite length_center. reflexivity. }
  destruct (@downsample_blocks (from_geom gu clipped "") factor ne ny nx Hf Hshape)
    as (down & Hd & _ & Hdshape & Hditem & Hdsum).
  cbn [data from_geom] in Hditem, Hdsum.
  (* every entry of the clipped grid inside its shape is finite, not negative *)
  assert (Hfin : forall e i j, e < ne -> i < ny * factor -> j < nx * factor ->
                   exists a, item clipped [e; i; j] = Fin a /\ (0 <= a)%Qc).
  { intros e i j Hbe Hi Hj.
    assert (Hall : Forall (fun v => is_finite v = true) (ravel clipped)).
    { apply sum_finite_all. fold (np_sum clipped). rewrite Hs. reflexivity. }
    rewrite Forall_forall in Hall.
    assert (Hin : In (item clipped [e; i; j]) (ravel clipped)).
    { unfold ravel. apply in_map. rewrite Hshape. apply in_indices_3d.
      exists e, i, j. auto. }
    specialize (Hall _ Hin).
    destruct (item clipped [e; i; j]) as [a | | |] eqn:E; try discriminate Hall.
    exists a. split; [reflexivity |].
    apply (clip_finite_nonnegative _ E). }
  (* every block sums to a finite, non-negative number *)
  assert (Hblock : forall e I J, e < ne -> I < ny -> J < nx ->
                     exists b, item (data down) [e; I; J] = Fin b /\ (0 <= b)%Qc).
  { intros e I J Hbe HI HJ. rewrite Hditem.
    assert (Hrows : Forall (fun v => exists a, v = Fin a /\ (0 <= a)%Qc)
              (map (fun di =>
                 Float.sum (map (fun dj => item clipped [e; I * factor + di; J * factor + dj])
                                (seq 0 factor))) (seq 0 factor))).
    { apply Forall_forall. intros v Hv. apply in_map_iff in Hv.
      destruct Hv as (di & <- & Hdi). apply in_seq in Hdi.
      assert (Hrow : Forall (fun v => exists a, v = Fin a /\ (0 <= a)%Qc)
                (map (fun dj => item clipped [e; I * factor + di; J * factor + dj])
                     (seq 0 factor))).
      { apply Forall_forall. intros v Hv. apply in_map_iff in Hv.
        destruct Hv as (dj & <- & Hdj). apply in_seq in Hdj.
        apply Hfin; [exact Hbe | nia | nia]. }
      destruct (finite_nonnegative_list Hrow) as (qs & -> & Hqs).
      exists (Qcsum qs). split; [apply sum_map_Fin | apply Qcsum_nonnegative, Hqs]. }
    destruct (finite_nonnegative_list Hrows) as (qs & -> & Hqs).
    exists (Qcsum qs). split; [apply sum_map_Fin | apply Qcsum_nonnegative, Hqs]. }
  (* the blocks together sum to [s] *)
  assert (Hravel : Forall (fun v => exists a, v = Fin a /\ (0 <= a)%Qc)
                          (ravel (data down))).
  { apply Forall_forall. intros v Hv. unfold ravel in Hv.
    apply in_map_iff in Hv. destruct Hv as (idx & <- & Hidx).
    rewrite Hdshape in Hidx. apply in_indices_3d in Hidx.
    destruct Hidx as (e & I & J & -> & Hbe & HI & HJ). apply Hblock; assumption. }
  destruct (finite_nonnegative_list Hravel) as (qs & Hqs & Hnn).
  assert (Htotal : Qcsum qs = s).
  { apply Fin_injective. rewrite <- sum_map_Fin, <- Hqs.
    fold (np_sum (data down)). rewrite Hdsum. exact Hs. }
  assert (Hsne : s <> 0%Qc).
  { intros E. rewrite E in Hpos. discriminate Hpos. }
  exists (PSFKernel_init down true). split.
  - unfold get_psf_kernel. rewrite Hr. cbn [bind]. rewrite He. cbn [bind].
    fold g. fold gu. fold pos. fold clipped. rewrite Hd. reflexivity.
  - intros e I J Hbe HI HJ.
    destruct (Hblock e I J Hbe HI HJ) as (b & Hb & Hb0).
    unfold PSFKernel_init. cbn [psf_kernel_map data map_array item].
    rewrite Hb, Hdsum, Hs. unfold div. rewrite (Qcpos_compare Hpos).
    exists (b / s)%Qc. split; [reflexivity |].
    assert (Hi : (0 <= / s)%Qc) by apply Qclt_le_weak, Qcinv_pos, Hpos.
    split.
    + replace 0%Qc with (0 * / s)%Qc by ring. unfold Qcdiv.
      apply Qcmult_le_compat_r; assumption.
    + replace 1%Qc with (s * / s)%Qc by (field; exact Hsne). unfold Qcdiv.
      apply Qcmult_le_compat_r; [| exact Hi].
      rewrite <- Htotal. apply Qcsum_ge_member; [exact Hnn |].
      assert (Hin : In (Fin b) (map Fin qs)).
      { rewrite <- Hqs, <- Hb. unfold ravel. apply in_map.
        rewrite Hdshape. apply in_indices_3d. exists e, I, J. auto. }
      apply in_map_iff in Hin. destruct Hin as (b' & Hb' & Hin).
      apply Fin_injective in Hb'. subst b'. exact Hin.
Qed.

End KernelValues.

Lemma get_psf_kernel_values_in_unit_interval_witness :
  exists k q,
    get_psf_kernel Demo.log_center Demo.interp_by_coord Demo.to_odd_npix Demo.separation
                   Demo.flat_psf None Demo.kernel_geom None factor_default = Ok k
    /\ item (data (psf_kernel_map k)) [1; 0; 0] = Fin q
    /\ (0 <= q)%Qc /\ (q <= 1)%Qc.
Proof.
  destruct (@get_psf_kernel_values_in_unit_interval
              Demo.log_center Demo.interp_by_coord Demo.to_odd_npix Demo.separation
              Demo.flat_psf None Demo.kernel_geom None factor_default
              (Demo.qc 3 4) Demo.energy_axis (Demo.qc 32 1))
    as (k & Hk & Hv).
  - unfold factor_default. lia.
  - vm_compute. f_equal; try qc_eq.
  - reflexivity.
  - vm_compute. f_equal; try qc_eq.
  - reflexivity.
  - destruct (Hv 1 0 0) as (q & Hq); try (cbn; lia).
    exists k, q. split; assumption.
Defined.

(* ------------------------------------------------------------------ *)
(** ** Contours *)

Lemma float_eqb_eq (x y : float) : float_eqb x y = true -> x = y.
Proof.
  destruct x as [a | | |], y as [b | | |]; cbn [float_eqb]; try discriminate;
    try reflexivity.
  destruct (a ?= b)%Qc eqn:E; try discriminate.
  intros _. f_equal. apply Qceq_alt. exact E.
Qed.

Lemma float_eqb_refl (x : float) : is_nan x = false -> float_eqb x x = true.
Proof.
  destruct x as [a | | |]; cbn [float_eqb is_nan]; try reflexivity; try discriminate.
  intros _. rewrite (proj1 (Qceq_alt a a) eq_refl). reflexivity.
Qed.

Lemma last_item_app (l : list float) (a : float) : last_item (l ++ [a]) = Ok a.
Proof.
  destruct l as [| b l]; [reflexivity |].
  cbn [app last_item]. f_equal. apply last_last.
Qed.

Lemma first_item_app (l : list float) (a b : float) :
  first_item ((a :: l) ++ [b]) = Ok a.
Proof. reflexivity. Qed.

(** X16.  [plot_contour_line] closes the contour it is given: on non-empty
    coordinate arrays the contour that is drawn ends on its first point,
    keeps the given points in their order and has at most that one point
    more; with an empty array of either coordinate the closing raises
    [IndexError]. *)
Theorem close_contour_closed (x y : list float) :
  (x = [] \/ y = [] -> raises (close_contour x y))
  /\ (forall x0 x' y0 y',
        x = x0 :: x' -> y = y0 :: y' ->
        exists xf yf,
          close_contour x y = Ok (xf, yf)
          /\ first_item xf = Ok x0 /\ last_item xf = Ok x0
          /\ first_item yf = Ok y0 /\ last_item yf = Ok y0
          /\ ((xf, yf) = (x, y) \/ (xf, yf) = (x ++ [x0], y ++ [y0]))).
Proof.
  split.
  - intros [-> | ->].
    + eexists. reflexivity.
    + unfold close_contour.
      destruct x as [| x0 x']; [eexists; reflexivity |].
      cbn [first_item last_item bind].
      destruct (float_eqb x0 (last x' x0)); cbn [first_item bind];
        eexists; reflexivity.
  - intros x0 x' y0 y' -> ->. unfold close_contour.
    cbn [first_item last_item bind].
    destruct (float_eqb x0 (last x' x0)) eqn:Ex; cbn [bind].
    + destruct (float_eqb y0 (last y' y0)) eqn:Ey; cbn [bind first_item].
      * apply float_eqb_eq in Ex, Ey.
        exists (x0 :: x'), (y0 :: y'). cbn [first_item last_item].
        rewrite <- Ex, <- Ey. repeat split; auto.
      * exists ((x0 :: x') ++ [x0]), ((y0 :: y') ++ [y0]).
        rewrite !last_item_app. repeat split; auto.
    + exists ((x0 :: x') ++ [x0]), ((y0 :: y') ++ [y0]).
      rewrite !last_item_app. repeat split; auto.
Qed.

Lemma close_contour_closed_witness :
  exists xf yf,
    close_contour [zero; one] [one; one] = Ok (xf, yf)
    /\ first_item xf = Ok zero /\ last_item xf = Ok zero
    /\ first_item yf = Ok one /\ last_item yf = Ok one
    /\ ((xf, yf) = ([zero; one], [one; one])
        \/ (xf, yf) = ([zero; one] ++ [zero], [one; one] ++ [one])).
Proof.
  apply (proj2 (close_contour_closed [zero; one] [one; one]) zero [one] one [one]);
    reflexivity.
Defined.

(** X17.  Closing is idempotent on contours whose first point is a number:
    closing the result of a closing changes nothing.  A contour whose first
    abscissa is NaN is never seen as closed, and gets a point more at every
    closing. *)
Theorem close_contour_idempotent (x y xf yf : list float) :
  close_contour x y = Ok (xf, yf) ->
  (forall x0 y0, first_item x = Ok x0 -> first_item y = Ok y0 ->
     is_nan x0 = false -> is_nan y0 = false ->
     close_contour xf yf = Ok (xf, yf))
  /\ (first_item x = Ok NaN -> (xf, yf) = (x ++ [NaN], y ++ firstn 1 y)).
Proof.
  intros H.
  destruct x as [| x0 x']; [discriminate H |].
  destruct y as [| y0 y'].
  { unfold close_contour in H. cbn [first_item last_item bind] in H.
    destruct (float_eqb x0 (last x' x0)); discriminate H. }
  destruct (proj2 (close_contour_closed (x0 :: x') (y0 :: y')) x0 x' y0 y' eq_refl eq_refl)
    as (xf' & yf' & Hc & Hfx & Hlx & Hfy & Hly & _).
  rewrite H in Hc. injection Hc as <- <-.
  split.
  - intros a b Ha Hb Hna Hnb. injection Ha as <-. injection Hb as <-.
    unfold close_contour. rewrite Hfx, Hlx. cbn [bind].
    rewrite (float_eqb_refl _ Hna), Hfy, Hly. cbn [bind].
    rewrite (float_eqb_refl _ Hnb). reflexivity.
  - intros Ha. injection Ha as ->.
    unfold close_contour in H. cbn [first_item last_item bind float_eqb] in H.
    injection H as <- <-. reflexivity.
Qed.

Lemma close_contour_idempotent_witness :
  close_contour [zero; one; zero] [one; one; one] = Ok ([zero; one; zero], [one; one; one]).
Proof.
  apply (proj1 (@close_contour_idempotent [zero; one] [one; one]
                  [zero; one; zero] [one; one; one] eq_refl) zero one);
    reflexivity.
Defined.

(** ** Keyword arguments *)

Lemma dict_get_set_same (k : string) (v : value) (d : kwargs_dict) :
  dict_get k (dict_set k v d) = Some v.
Proof.
  induction d as [| [k' v'] d IH]; cbn [dict_set dict_get].
  - rewrite String.eqb_refl. reflexivity.
  - destruct (String.eqb k' k) eqn:E; cbn [dict_get].
    + rewrite String.eqb_refl. reflexivity.
    + rewrite E. exact IH.
Qed.

Lemma dict_get_set_other (k k' : string) (v : value) (d : kwargs_dict) :
  k' <> k -> dict_get k' (dict_set k v d) = dict_get k' d.
Proof.
  intros Hne. apply String.eqb_neq in Hne.
  induction d as [| [k1 v1] d IH]; cbn [dict_set dict_get].
  - rewrite String.eqb_sym, Hne. reflexivity.
  - destruct (String.eqb k1 k) eqn:E; cbn [dict_get].
    + apply String.eqb_eq in E. subst k1.
      rewrite String.eqb_sym, Hne. reflexivity.
    + rewrite IH. reflexivity.
Qed.

Lemma dict_get_remove_same (k : string) (d : kwargs_dict) :
  dict_get k (dict_remove k d) = None.
Proof.
  unfold dict_remove. induction d as [| [k' v'] d IH]; cbn [filter fst]; [reflexivity |].
  destruct (String.eqb k' k) eqn:E; cbn [negb]; [exact IH |].
  cbn [dict_get]. rewrite E. exact IH.
Qed.

Lemma dict_get_remove_other (k k' : string) (d : kwargs_dict) :
  k' <> k -> dict_get k' (dict_remove k d) = dict_get k' d.
Proof.
  intros Hne. apply String.eqb_neq in Hne. unfold dict_remove.
  induction d as [| [k1 v1] d IH]; cbn [filter fst dict_get]; [reflexivity |].
  destruct (String.eqb k1 k) eqn:E; cbn [negb dict_get].
  - apply String.eqb_eq in E. subst k1.
    rewrite String.eqb_sym, Hne. exact IH.
  - rewrite IH. reflexivity.
Qed.

Lemma dict_get_not_in (k : string) (d : kwargs_dict) :
  ~ In k (map fst d) -> dict_get k d = None.
Proof.
  induction d as [| [k' v'] d IH]; cbn [map fst dict_get In]; [reflexivity |].
  intros H. destruct (String.eqb k' k) eqn:E.
  - apply String.eqb_eq in E. elim H. left. exact E.
  - apply IH. intros Hin. apply H. right. exact Hin.
Qed.

(** Updating with a dict of distinct keys: its bindings win. *)
Lemma dict_get_update (k : string) (other d : kwargs_dict) :
  NoDup (map fst other) ->
  dict_get k (dict_update d other)
  = match dict_get k other with
    | Some v => Some v
    | None => dict_get k d
    end.
Proof.
  unfold dict_update. revert d.
  induction other as [| [k1 v1] other IH]; intros d Hnd; cbn [fold_left fst snd].
  - reflexivity.
  - cbn [map fst] in Hnd. inversion Hnd as [| ? ? Hnotin Hnd']; subst.
    rewrite (IH _ Hnd'). cbn [dict_get].
    destruct (String.eqb k1 k) eqn:E.
    + apply String.eqb_eq in E. subst k1.
      rewrite (dict_get_not_in _ _ Hnotin). apply dict_get_set_same.
    + destruct (dict_get k other); [reflexivity |].
      apply dict_get_set_other. apply String.eqb_neq.
      rewrite String.eqb_sym. exact E.
Qed.

Lemma dict_get_setdefault (k k' : string) (v : value) (d : kwargs_dict) :
  dict_get k' (dict_setdefault k v d)
  = match dict_get k' d with
    | Some x => Some x
    | None => if String.eqb k k' then Some v else None
    end.
Proof.
  unfold dict_setdefault. destruct (String.eqb k k') eqn:E.
  - apply String.eqb_eq in E. subst k'.
    destruct (dict_get k d) eqn:G; [rewrite G; reflexivity |].
    apply dict_get_set_same.
  - destruct (dict_get k d) eqn:G.
    + destruct (dict_get k' d); reflexivity.
    + rewrite dict_get_set_other.
      * destruct (dict_get k' d); reflexivity.
      * apply String.eqb_neq. rewrite String.eqb_sym. exact E.
Qed.

Ltac dict_solve :=
  repeat first
    [ rewrite dict_get_remove_same
    | rewrite dict_get_remove_other by (assumption || discriminate) ];
  try assumption; try reflexivity.

Section ContourPlot.

Variable np_sqrt : float -> float.
Variable cubic_spline :
  list float -> list float -> list float -> list float -> result (list (float * float)).

(** X18.  The style of a contour plot: the marker and the colour are those
    given as keyword arguments, ["+"] and ["b"] otherwise, curve and points
    have the same colour, and the keyword arguments handed on with the curve
    hold neither [marker] nor [color], every other argument as given. *)
Theorem plot_contour_line_style
    (x y : list float) (kwargs : kwargs_dict) (p : contour_plot) :
  plot_contour_line np_sqrt cubic_spline x y kwargs = Ok p ->
  points_marker p = match dict_get "marker" kwargs with
                    | Some v => v
                    | None => VStr "+"
                    end
  /\ points_color p = match dict_get "color" kwargs with
                      | Some v => v
                      | None => VStr "b"
                      end
  /\ curve_color p = points_color p
  /\ dict_get "marker" (curve_kwargs p) = None
  /\ dict_get "color" (curve_kwargs p) = None
  /\ (forall k, k <> "marker" -> k <> "color" ->
        dict_get k (curve_kwargs p) = dict_get k kwargs)
  /\ close_contour x y = Ok (points_x p, points_y p).
Proof.
  unfold plot_contour_line.
  destruct (close_contour x y) as [[xf yf] | e]; [| discriminate].
  cbn [bind].
  destruct (contour_parameter np_sqrt xf yf) as [t | e]; [| discriminate].
  cbn [bind].
  destruct (last_item t) as [t_last | e]; [| discriminate].
  cbn [bind].
  destruct (cubic_spline t xf yf (linspace_50 t_last)) as [out | e]; [| discriminate].
  cbn [bind]. unfold pop_or.
  assert (Hmc : "color" <> "marker") by discriminate.
  destruct (dict_get "marker" kwargs) as [m |] eqn:Em;
    [rewrite (dict_get_remove_other kwargs Hmc) |];
    destruct (dict_get "color" kwargs) as [c |] eqn:Ec;
    intros H; injection H as <-;
    cbn [points_marker points_color curve_color curve_kwargs points_x points_y];
    (split; [reflexivity |]); (split; [reflexivity |]); (split; [reflexivity |]);
    (split; [dict_solve |]); (split; [dict_solve |]); (split; [| reflexivity]);
    intros k Hk1 Hk2; dict_solve.
Qed.

End ContourPlot.

Lemma plot_contour_line_style_witness :
  exists p,
    plot_contour_line Demo.np_sqrt Demo.cubic_spline [zero; one] [one; one]
                      [("marker", VStr "o"); ("lw", VNum (Q2Qc 2))] = Ok p
    /\ points_marker p = VStr "o"
    /\ points_color p = VStr "b"
    /\ dict_get "marker" (curve_kwargs p) = None
    /\ dict_get "lw" (curve_kwargs p) = Some (VNum (Q2Qc 2)).
Proof.
  destruct (plot_contour_line Demo.np_sqrt Demo.cubic_spline [zero; one] [one; one]
              [("marker", VStr "o"); ("lw", VNum (Q2Qc 2))]) as [p | e] eqn:E;
    [| vm_compute in E; discriminate E].
  destruct (@plot_contour_line_style Demo.np_sqrt Demo.cubic_spline
              [zero; one] [one; one] [("marker", VStr "o"); ("lw", VNum (Q2Qc 2))] p E)
    as (Hm & Hc & _ & Hkm & _ & Hk & _).
  exists p. split; [reflexivity |]. split; [exact Hm |]. split; [exact Hc |].
  split; [exact Hkm |]. rewrite Hk by discriminate. reflexivity.
Defined.

(** ** The curve parameter of a contour *)

Lemma length_np_diff (l : list float) : List.length (np_diff l) = List.length l - 1.
Proof.
  induction l as [| a [| b l] IH]; try reflexivity.
  change (np_diff (a :: b :: l)) with (float_sub b a :: np_diff (b :: l)).
  cbn [List.length] in *. rewrite IH. lia.
Qed.

Lemma length_cumsum_from (acc : float) (l : list float) :
  List.length (cumsum_from acc l) = List.length l.
Proof.
  revert acc. induction l as [| x l IH]; intros acc; cbn [cumsum_from List.length];
    [reflexivity | rewrite IH; reflexivity].
Qed.

Lemma broadcast_1d_same (n : nat) : broadcast_shapes [n] [n] = Some [n].
Proof. broadcast_cases. Qed.

Lemma broadcast_1d_mismatch (a b : nat) :
  a <> b -> a <> 1 -> b <> 1 -> broadcast_shapes [a] [b] = None.
Proof.
  intros Hab Ha Hb. unfold broadcast_shapes. cbn [rev app broadcast_rev].
  apply Nat.eqb_neq in Hab, Ha, Hb. rewrite Hab, Ha, Hb. reflexivity.
Qed.

(** X19.  The curve parameter of a contour: for coordinate arrays of the
    same length the parameter has one value per point and starts at 0; for
    arrays whose numbers of segments differ, neither being 1, the sum of the
    squared differences cannot be formed and the computation raises
    [ValueError]. *)
Theorem contour_parameter_shape (np_sqrt : float -> float) (xf yf : list float) :
  (List.length xf = List.length yf -> 0 < List.length xf ->
   exists t,
     contour_parameter np_sqrt xf yf = Ok t
     /\ List.length t = List.length xf
     /\ first_item t = Ok zero)
  /\ (List.length xf - 1 <> List.length yf - 1 ->
      List.length xf - 1 <> 1 -> List.length yf - 1 <> 1 ->
      contour_parameter np_sqrt xf yf
      = Raise (ValueError "operands could not be broadcast together")).
Proof.
  unfold contour_parameter, binary, of_list. cbn [shape].
  rewrite !length_map, !length_np_diff. split.
  - intros Hlen Hpos. rewrite <- Hlen, broadcast_1d_same. cbn [bind].
    eexists. split; [reflexivity |]. split.
    + unfold cumsum. rewrite length_cumsum_from. cbn [List.length].
      rewrite length_map. unfold ravel. cbn [shape].
      rewrite length_map, indices_1d, length_map, length_seq. lia.
    + unfold cumsum. cbn [cumsum_from first_item]. rewrite add_zero_l. reflexivity.
  - intros Hne Hx Hy. rewrite (broadcast_1d_mismatch Hne Hx Hy). reflexivity.
Qed.

Lemma contour_parameter_shape_witness :
  (exists t,
      contour_parameter Demo.np_sqrt [zero; one; zero] [one; one; one] = Ok t
      /\ List.length t = 3 /\ first_item t = Ok zero)
  /\ contour_parameter Demo.np_sqrt [zero; one; zero] [one; one; one; one]
     = Raise (ValueError "operands could not be broadcast together").
Proof.
  split.
  - apply (proj1 (contour_parameter_shape Demo.np_sqrt
                    [zero; one; zero] [one; one; one])); cbn; lia.
  - apply (proj2 (contour_parameter_shape Demo.np_sqrt
                    [zero; one; zero] [one; one; one; one])); cbn; lia.
Defined.

(* ------------------------------------------------------------------ *)
(** ** Off regions of spectrum datasets *)

Lemma map_snd_combine_seq {A : Type} (l : list A) (a : nat) :
  map snd (combine (seq a (List.length l)) l) = l.
Proof.
  revert a. induction l as [| x l IH]; intros a; cbn [List.length seq combine map snd];
    [reflexivity | rewrite IH; reflexivity].
Qed.

Lemma zip_cycle_datasets (cycle : list kwargs_dict) (datasets : list Dataset) :
  cycle <> [] -> map snd (zip_cycle cycle datasets) = datasets.
Proof.
  intros Hne. unfold zip_cycle. destruct cycle as [| c cycle]; [contradiction |].
  rewrite map_map.
  etransitivity; [| apply (map_snd_combine_seq datasets 0)].
  apply map_ext. intros [i d]. reflexivity.
Qed.

Lemma zip_cycle_props (cycle : list kwargs_dict) (datasets : list Dataset) :
  Forall (fun pd => In (fst pd) cycle) (zip_cycle cycle datasets).
Proof.
  unfold zip_cycle. destruct cycle as [| c cycle]; [constructor |].
  assert (Hlen : List.length (c :: cycle) <> 0) by discriminate.
  revert Hlen. generalize (c :: cycle). intros cy Hlen.
  apply Forall_forall. intros [props d] Hin. apply in_map_iff in Hin.
  destruct Hin as ([i d'] & H & _). injection H as <- _. cbn [fst].
  apply nth_In. apply Nat.mod_upper_bound. exact Hlen.
Qed.

(** X20.  [plot_spectrum_datasets_off_regions] draws the off region of every
    dataset once, in the order of the datasets, however short the property
    cycle is (the cycle is repeated); with an empty cycle it draws nothing.
    Without axes and without datasets there is no dataset to take the
    projection from and the call raises [IndexError]. *)
Theorem off_regions_drawn
    (rc_prop_cycle : list kwargs_dict) (datasets : list Dataset)
    (ax : option (option (list handle * list string)))
    (legend : option bool) (legend_kwargs : option kwargs_dict)
    (prop_cycle : option (list kwargs_dict)) (kwargs : kwargs_dict) :
  (ax = None -> datasets = [] ->
   plot_spectrum_datasets_off_regions rc_prop_cycle datasets ax legend
     legend_kwargs prop_cycle kwargs
   = Raise (IndexError "list index out of range"))
  /\ (ax <> None \/ datasets <> [] ->
      exists p,
        plot_spectrum_datasets_off_regions rc_prop_cycle datasets ax legend
          legend_kwargs prop_cycle kwargs = Ok p
        /\ (chosen_cycle rc_prop_cycle prop_cycle <> [] ->
            map fst (region_calls p) = datasets)
        /\ (chosen_cycle rc_prop_cycle prop_cycle = [] -> region_calls p = [])).
Proof.
  split.
  - intros -> ->. reflexivity.
  - intros Hok. unfold plot_spectrum_datasets_off_regions.
    set (cycle := chosen_cycle rc_prop_cycle prop_cycle).
    set (drawn := map (fun '(props, dataset) => (dataset, region_kwargs kwargs props))
                      (zip_cycle cycle datasets)).
    assert (Hax : exists l,
               match ax with
               | None => match datasets with
                         | [] => Raise (IndexError "list index out of range")
                         | _ => Ok None
                         end
               | Some l => Ok l
               end = Ok l).
    { destruct ax as [l |]; [eexists; reflexivity |].
      destruct datasets; [destruct Hok; contradiction | eexists; reflexivity]. }
    destruct Hax as [l Hl]. rewrite Hl. cbn [bind].
    assert (Hdrawn : (cycle <> [] -> map fst drawn = datasets)
                     /\ (cycle = [] -> drawn = [])).
    { split.
      - intros Hne. unfold drawn. rewrite map_map.
        etransitivity; [| apply (zip_cycle_datasets datasets Hne)].
        apply map_ext. intros [props d]. reflexivity.
      - intros E. unfold drawn. rewrite E. reflexivity. }
    destruct (wants_legend legend datasets).
    + destruct l as [[old_handles old_texts] |]; eexists; (split; [reflexivity |]);
        exact Hdrawn.
    + eexists. split; [reflexivity |]. exact Hdrawn.
Qed.

(** X21.  The keyword arguments of every region that is drawn: a property
    of the cycle wins over everything else; otherwise the face colour is
    ["None"], whatever the call gives; otherwise the keyword argument of the
    call is used; and the edge colour, when nobody sets it, is [None].  The
    properties are those of an entry of the cycle, a dictionary, so that its
    keys are distinct. *)
Theorem off_regions_kwargs_priority
    (rc_prop_cycle : list kwargs_dict) (datasets : list Dataset)
    (ax : option (option (list handle * list string)))
    (legend : option bool) (legend_kwargs : option kwargs_dict)
    (prop_cycle : option (list kwargs_dict)) (kwargs : kwargs_dict)
    (p : off_regions_plot) :
  Forall (fun props => NoDup (map fst props)) (chosen_cycle rc_prop_cycle prop_cycle) ->
  plot_spectrum_datasets_off_regions rc_prop_cycle datasets ax legend
    legend_kwargs prop_cycle kwargs = Ok p ->
  Forall (fun call =>
            exists props,
              In props (chosen_cycle rc_prop_cycle prop_cycle)
              /\ forall k,
                   dict_get k (snd call)
                   = match dict_get k props with
                     | Some v => Some v
                     | None =>
                         if String.eqb "facecolor" k then Some (VStr "None")
                         else match dict_get k kwargs with
                              | Some v => Some v
                              | None =>
                                  if String.eqb "edgecolor" k then Some VNone else None
                              end
                     end)
         (region_calls p).
Proof.
  intros Hnd H.
  set (cycle := chosen_cycle rc_prop_cycle prop_cycle) in *.
  assert (Hcalls : region_calls p
                   = map (fun '(props, dataset) => (dataset, region_kwargs kwargs props))
                         (zip_cycle cycle datasets)).
  { unfold plot_spectrum_datasets_off_regions in H. fold cycle in H.
    destruct (match ax with
              | None => match datasets with
                        | [] => Raise (IndexError "list index out of range")
                        | _ => Ok None
                        end
              | Some l => Ok l
              end) as [l | e]; [| discriminate H].
    cbn [bind] in H.
    destruct (wants_legend legend datasets).
    - destruct l as [[old_handles old_texts] |]; injection H as <-; reflexivity.
    - injection H as <-. reflexivity. }
  rewrite Hcalls. apply Forall_forall. intros call Hin.
  apply in_map_iff in Hin. destruct Hin as ([props d] & <- & Hin).
  pose proof (zip_cycle_props cycle datasets) as Hprops.
  rewrite Forall_forall in Hprops. specialize (Hprops _ Hin). cbn [fst] in Hprops.
  exists props. split; [exact Hprops |].
  intros k. cbn [snd]. unfold region_kwargs.
  rewrite Forall_forall in Hnd.
  rewrite (@dict_get_update k props _ (Hnd _ Hprops)).
  destruct (dict_get k props); [reflexivity |].
  rewrite dict_get_setdefault.
  destruct (String.eqb "facecolor" k) eqn:E.
  - apply String.eqb_eq in E. subst k. rewrite dict_get_set_same. reflexivity.
  - rewrite dict_get_set_other; [reflexivity |].
    apply String.eqb_neq. rewrite String.eqb_sym. exact E.
Qed.

(** X22.  The legend of the off regions: no legend is made when [legend] is
    false, or when it is not given and there are more than 10 datasets; a
    legend that is made always uses the handler map of the function, whatever
    [legend_kwargs] holds, pads the handles by the given [handletextpad], 0.5
    when none is given, shows every handle as a pair of twice the same
    handle, and lists the entries of the legend that was already there
    before the names of the datasets. *)
Theorem off_regions_legend
    (rc_prop_cycle : list kwargs_dict) (datasets : list Dataset)
    (ax : option (option (list handle * list string)))
    (legend : option bool) (legend_kwargs : option kwargs_dict)
    (prop_cycle : option (list kwargs_dict)) (kwargs : kwargs_dict)
    (p : off_regions_plot) :
  plot_spectrum_datasets_off_regions rc_prop_cycle datasets ax legend
    legend_kwargs prop_cycle kwargs = Ok p ->
  (legend_call p = None
   <-> legend = Some false \/ (legend = None /\ 10 < List.length datasets))
  /\ forall handles labels kw,
       legend_call p = Some (handles, labels, kw) ->
       dict_get "handler_map" kw = Some VHandlerMap
       /\ dict_get "handletextpad" kw
          = Some match legend_kwargs with
                 | Some d => match dict_get "handletextpad" d with
                             | Some v => v
                             | None => VNum (Q2Qc (1 # 2))
                             end
                 | None => VNum (Q2Qc (1 # 2))
                 end
       /\ Forall (fun h => exists h', h = handle_pair h' h') handles
       /\ exists old_texts,
            labels = old_texts ++ map (fun call => ds_name (fst call)) (region_calls p)
            /\ (old_texts = []
                \/ exists old_handles, ax = Some (Some (old_handles, old_texts))).
Proof.
  unfold plot_spectrum_datasets_off_regions.
  set (cycle := chosen_cycle rc_prop_cycle prop_cycle).
  set (drawn := map (fun '(props, dataset) => (dataset, region_kwargs kwargs props))
                    (zip_cycle cycle datasets)).
  set (user := match legend_kwargs with
               | None | Some [] => []
               | Some d => d
               end).
  assert (Huser : dict_get "handletextpad" user
                  = match legend_kwargs with
                    | Some d => dict_get "handletextpad" d
                    | None => None
                    end).
  { unfold user. destruct legend_kwargs as [[| kv d] |]; reflexivity. }
  assert (Hax : forall l,
             match ax with
             | None => match datasets with
                       | [] => Raise (IndexError "list index out of range")
                       | _ => Ok None
                       end
             | Some l' => Ok l'
             end = Ok l ->
             l = None \/ exists oh ot, l = Some (oh, ot) /\ ax = Some (Some (oh, ot))).
  { intros l. destruct ax as [l' |].
    - intros H. injection H as <-. destruct l' as [[oh ot] |]; [right | left; reflexivity].
      exists oh, ot. split; reflexivity.
    - destruct datasets; [discriminate |]. intros H. injection H as <-.
      left. reflexivity. }
  destruct (match ax with
            | None => match datasets with
                      | [] => Raise (IndexError "list index out of range")
                      | _ => Ok None
                      end
            | Some l => Ok l
            end) as [l | e]; [| discriminate].
  specialize (Hax l eq_refl). cbn [bind].
  assert (Hlabels : map (fun '(dataset, _) => ds_name dataset) drawn
                    = map (fun call : Dataset * kwargs_dict => ds_name (fst call)) drawn).
  { apply map_ext. intros [d kw]. reflexivity. }
  assert (Hkw : forall d0,
             dict_get "handler_map"
               (dict_set "handler_map" VHandlerMap
                  (dict_setdefault "handletextpad" (VNum (Q2Qc (1 # 2))) d0))
             = Some VHandlerMap
             /\ dict_get "handletextpad"
                  (dict_set "handler_map" VHandlerMap
                     (dict_setdefault "handletextpad" (VNum (Q2Qc (1 # 2))) d0))
                = Some match dict_get "handletextpad" d0 with
                       | Some v => v
                       | None => VNum (Q2Qc (1 # 2))
                       end).
  { intros d0. split; [apply dict_get_set_same |].
    rewrite dict_get_set_other by discriminate.
    rewrite dict_get_setdefault. destruct (dict_get "handletextpad" d0); reflexivity. }
  destruct (wants_legend legend datasets) eqn:Ew.
  - assert (Hno : ~ (legend = Some false \/ (legend = None /\ 10 < List.length datasets))).
    { unfold wants_legend in Ew. intros [-> | [-> Hlen]]; [discriminate Ew |].
      apply Nat.leb_le in Ew. lia. }
    fold user.
    destruct Hax as [-> | (oh & ot & -> & Hax)]; intros H; injection H as <-;
      cbn [legend_call region_calls].
    + split; [split; [discriminate | intros Hc; elim (Hno Hc)] |].
      intros handles labels kw Hcall. injection Hcall as <- <- <-.
      destruct (Hkw user) as [Hh Hp]. split; [exact Hh |]. split.
      { rewrite Hp, Huser. destruct legend_kwargs; reflexivity. }
      split.
      { apply Forall_forall. intros h Hin. apply in_map_iff in Hin.
        destruct Hin as (h' & <- & _). exists h'. reflexivity. }
      exists []. split; [exact Hlabels | left; reflexivity].
    + split; [split; [discriminate | intros Hc; elim (Hno Hc)] |].
      intros handles labels kw Hcall. injection Hcall as <- <- <-.
      destruct (Hkw user) as [Hh Hp]. split; [exact Hh |]. split.
      { rewrite Hp, Huser. destruct legend_kwargs; reflexivity. }
      split.
      { apply Forall_forall. intros h Hin. apply in_map_iff in Hin.
        destruct Hin as (h' & <- & _). exists h'. reflexivity. }
      exists ot. split; [rewrite Hlabels; reflexivity |].
      right. exists oh. exact Hax.
  - intros H. injection H as <-. cbn [legend_call]. split.
    + split; [intros _ | reflexivity].
      unfold wants_legend in Ew. destruct legend as [[|] |];
        [discriminate Ew | left; reflexivity |].
      right. split; [reflexivity |]. apply Nat.leb_gt in Ew. exact Ew.
    + intros handles labels kw Hcall. discriminate Hcall.
Qed.

Lemma off_regions_drawn_witness :
  plot_spectrum_datasets_off_regions Demo.color_cycle [] None None None None []
  = Raise (IndexError "list index out of range")
  /\ exists p,
       plot_spectrum_datasets_off_regions Demo.color_cycle
         [Demo.off_a; Demo.off_b; Demo.off_a] None None None None [] = Ok p
       /\ map fst (region_calls p) = [Demo.off_a; Demo.off_b; Demo.off_a].
Proof.
  split.
  - apply (proj1 (off_regions_drawn Demo.color_cycle [] None None None None []));
      reflexivity.
  - destruct (proj2 (off_regions_drawn Demo.color_cycle
                       [Demo.off_a; Demo.off_b; Demo.off_a] None None None None []))
      as (p & Hp & Hne & _).
    + right. discriminate.
    + exists p. split; [exact Hp |]. apply Hne. cbn. discriminate.
Defined.

Lemma off_regions_kwargs_priority_witness :
  exists p,
    plot_spectrum_datasets_off_regions [] [Demo.off_a; Demo.off_b] None None None
      (Some Demo.color_cycle) [("edgecolor", VStr "cyan")] = Ok p
    /\ Forall (fun call =>
                 exists props,
                   In props (chosen_cycle [] (Some Demo.color_cycle))
                   /\ forall k,
                        dict_get k (snd call)
                        = match dict_get k props with
                          | Some v => Some v
                          | None =>
                              if String.eqb "facecolor" k then Some (VStr "None")
                              else match dict_get k [("edgecolor", VStr "cyan")] with
                                   | Some v => Some v
                                   | None =>
                                       if String.eqb "edgecolor" k then Some VNone
                                       else None
                                   end
                          end)
              (region_calls p).
Proof.
  destruct (plot_spectrum_datasets_off_regions [] [Demo.off_a; Demo.off_b] None None
              None (Some Demo.color_cycle) [("edgecolor", VStr "cyan")])
    as [p | e] eqn:E; [| vm_compute in E; discriminate E].
  exists p. split; [reflexivity |].
  apply (@off_regions_kwargs_priority [] [Demo.off_a; Demo.off_b] None None None
           (Some Demo.color_cycle) [("edgecolor", VStr "cyan")] p); [| exact E].
  cbn. repeat constructor; cbn; intuition discriminate.
Defined.

Lemma off_regions_legend_witness :
  exists p,
    plot_spectrum_datasets_off_regions Demo.color_cycle [Demo.off_a; Demo.off_b]
      (Some (Some ([old_handle 0], ["on"]))) None
      (Some [("handler_map", VStr "mine"); ("ncol", VNum (Demo.qc 2 1))]) None []
    = Ok p
    /\ (legend_call p = None
        <-> @None bool = Some false
            \/ (@None bool = None /\ 10 < List.length [Demo.off_a; Demo.off_b]))
    /\ forall handles labels kw,
         legend_call p = Some (handles, labels, kw) ->
         dict_get "handler_map" kw = Some VHandlerMap
         /\ dict_get "handletextpad" kw = Some (VNum (Q2Qc (1 # 2)))
         /\ Forall (fun h => exists h', h = handle_pair h' h') handles
         /\ exists old_texts,
              labels = old_texts ++ map (fun call => ds_name (fst call)) (region_calls p)
              /\ (old_texts = []
                  \/ exists old_handles,
                       Some (Some ([old_handle 0], ["on"]))
                       = Some (Some (old_handles, old_texts))).
Proof.
  destruct (plot_spectrum_datasets_off_regions Demo.color_cycle [Demo.off_a; Demo.off_b]
              (Some (Some ([old_handle 0], ["on"]))) None
              (Some [("handler_map", VStr "mine"); ("ncol", VNum (Demo.qc 2 1))]) None [])
    as [p | e] eqn:E; [| vm_compute in E; discriminate E].
  exists p. split; [reflexivity |].
  exact (@off_regions_legend Demo.color_cycle [Demo.off_a; Demo.off_b]
           (Some (Some ([old_handle 0], ["on"]))) None
           (Some [("handler_map", VStr "mine"); ("ncol", VNum (Demo.qc 2 1))]) None [] p E).
Defined.

(* ------------------------------------------------------------------ *)
(** ** The scaling of the bands of an RGB image *)

Lemma maximum_not_nan (x y : float) :
  is_nan x = false -> is_nan y = false ->
  maximum x y = if (x <? y)%fl then y else x.
Proof. destruct x, y; intros Hx Hy; try discriminate; reflexivity. Qed.

Lemma leb_refl_not_nan (x : float) : is_nan x = false -> (x <=? x)%fl = true.
Proof.
  destruct x as [a | | |]; intros H; try discriminate; try reflexivity.
  apply leb_fin_le. apply Qcle_refl.
Qed.

Lemma ltb_leb (x y : float) : (x <? y)%fl = true -> (x <=? y)%fl = true.
Proof.
  destruct x as [a | | |], y as [b | | |]; cbn; try discriminate; try reflexivity.
  destruct (a ?= b)%Qc; try discriminate; reflexivity.
Qed.

Lemma ltb_false_leb (x y : float) :
  is_nan x = false -> is_nan y = false -> (x <? y)%fl = false -> (y <=? x)%fl = true.
Proof.
  destruct x as [a | | |], y as [b | | |]; cbn; try discriminate; try reflexivity.
  intros _ _. unfold Qccompare. rewrite <- (Qcompare_antisym a b).
  destruct (a ?= b)%Q; try discriminate; reflexivity.
Qed.

Lemma leb_trans (x y z : float) :
  (x <=? y)%fl = true -> (y <=? z)%fl = true -> (x <=? z)%fl = true.
Proof.
  destruct x as [a | | |], y as [b | | |], z as [c | | |]; cbn [leb];
    try discriminate; try reflexivity.
  intros H1 H2. apply leb_fin_le.
  apply Qcle_trans with b; apply leb_fin_inv; assumption.
Qed.

(** The running maximum of values that are not NaN is one of them and
    bounds them all. *)
Lemma fold_maximum_spec (l : list float) :
  forall a : float,
    is_nan a = false -> Forall (fun x => is_nan x = false) l ->
    In (fold_left maximum l a) (a :: l)
    /\ forall x, In x (a :: l) -> (x <=? fold_left maximum l a)%fl = true.
Proof.
  induction l as [| y l IH]; intros a Ha Hl; cbn [fold_left].
  - split; [left; reflexivity |].
    intros x [<- | []]. apply leb_refl_not_nan. exact Ha.
  - inversion Hl as [| ? ? Hy Hl']; subst.
    rewrite (maximum_not_nan a y Ha Hy).
    assert (Hm : is_nan (if (a <? y)%fl then y else a) = false)
      by (destruct (a <? y)%fl; assumption).
    assert (Hbound : (a <=? (if (a <? y)%fl then y else a))%fl = true
                     /\ (y <=? (if (a <? y)%fl then y else a))%fl = true).
    { destruct (a <? y)%fl eqn:E.
      - split; [apply ltb_leb; exact E | apply leb_refl_not_nan; exact Hy].
      - split; [apply leb_refl_not_nan; exact Ha | apply ltb_false_leb; assumption]. }
    assert (Hin : (if (a <? y)%fl then y else a) = a
                  \/ (if (a <? y)%fl then y else a) = y)
      by (destruct (a <? y)%fl; [right | left]; reflexivity).
    destruct (IH _ Hm Hl') as [IHin IHle].
    revert Hbound Hin IHin IHle.
    generalize (if (a <? y)%fl then y else a). intros m [Hma Hmy] Hin IHin IHle.
    split.
    + destruct IHin as [E | Hr].
      * rewrite <- E. destruct Hin as [-> | ->]; [left | right; left]; reflexivity.
      * right. right. exact Hr.
    + intros x [<- | [<- | Hx]].
      * apply leb_trans with m; [exact Hma | apply IHle; left; reflexivity].
      * apply leb_trans with m; [exact Hmy | apply IHle; left; reflexivity].
      * apply IHle. right. exact Hx.
Qed.

Lemma in_drop_nan (x : float) (l : list float) :
  In x (drop_nan l) <-> In x l /\ is_nan x = false.
Proof.
  unfold drop_nan. rewrite filter_In.
  destruct (is_nan x); cbn; intuition congruence.
Qed.

(** [np.nanmax], when it is not NaN, is an entry of the array and bounds
    every entry that is not NaN. *)
Lemma np_nanmax_spec (l : list float) (m : float) :
  np_nanmax l = Ok m -> is_nan m = false ->
  In m l /\ forall x, In x l -> x = NaN \/ (x <=? m)%fl = true.
Proof.
  unfold np_nanmax. destruct l as [| x0 l0]; [discriminate |].
  destruct (drop_nan (x0 :: l0)) as [| a l'] eqn:E.
  - intros H. injection H as <-. discriminate.
  - intros H _. injection H as <-.
    assert (Hall : Forall (fun x => is_nan x = false) (a :: l')).
    { apply Forall_forall. intros x Hx. rewrite <- E in Hx.
      apply in_drop_nan in Hx. apply Hx. }
    inversion Hall as [| ? ? Ha Hl']; subst.
    destruct (@fold_maximum_spec l' a Ha Hl') as [Hin Hle].
    split.
    + rewrite <- E in Hin. apply in_drop_nan in Hin. apply Hin.
    + intros x Hx. destruct (is_nan x) eqn:En.
      * left. destruct x; try discriminate En. reflexivity.
      * right. apply Hle. rewrite <- E. apply in_drop_nan. split; assumption.
Qed.

Lemma in_ravel (a : ndarray) (x : float) :
  In x (ravel a) <-> exists idx, In idx (indices (shape a)) /\ item a idx = x.
Proof.
  unfold ravel. rewrite in_map_iff. split; intros (idx & H1 & H2); exists idx.
  - split; [exact H2 | exact H1].
  - split; [exact H2 | exact H1].
Qed.

Lemma Qcpos_nonzero (q : Qc) : (0 < q)%Qc -> q <> 0%Qc.
Proof.
  intros H E. apply Qcpos_compare in H. rewrite E in H.
  vm_compute in H. discriminate H.
Qed.

Lemma Qcdiv_le_one (b q : Qc) : (0 < q)%Qc -> (b <= q)%Qc -> (b / q <= 1)%Qc.
Proof.
  intros Hq Hb. pose proof (Qcinv_pos Hq) as Hi.
  assert (E : (q / q = 1)%Qc).
  { unfold Qcdiv. apply Qcmult_inv_r. apply Qcpos_nonzero. exact Hq. }
  rewrite <- E. unfold Qcdiv. apply Qcmult_le_compat_r; [exact Hb |].
  apply Qclt_le_weak. exact Hi.
Qed.

(** X23.  The scaling of a band in [plot_map_rgb]: a band whose largest
    value that is not NaN is finite and positive is scaled without error to
    a band of the same shape in which every value is NaN or at most 1, the
    value 1 is reached, and the NaN values are those of the band. *)
Theorem scale_slice_peak_one (data_slice : ndarray) (q : Qc) :
  np_nanmax (ravel data_slice) = Ok (Fin q) -> (0 < q)%Qc ->
  exists scaled,
    scale_slice data_slice = Ok scaled
    /\ shape scaled = shape data_slice
    /\ (forall idx, In idx (indices (shape data_slice)) ->
          item scaled idx = NaN \/ (item scaled idx <=? one)%fl = true)
    /\ (exists idx, In idx (indices (shape data_slice)) /\ item scaled idx = one)
    /\ forall idx, item scaled idx = NaN <-> item data_slice idx = NaN.
Proof.
  intros Hmax Hq. unfold scale_slice. rewrite Hmax. cbn [bind].
  eexists. split; [reflexivity |]. cbn [shape item map_array].
  destruct (@np_nanmax_spec _ _ Hmax eq_refl) as [Hin Hle].
  pose proof (Qcpos_compare Hq) as Hc.
  split; [reflexivity |]. split; [| split].
  - intros idx Hidx.
    destruct (Hle (item data_slice idx)) as [E | E].
    { apply in_ravel. exists idx. split; [exact Hidx | reflexivity]. }
    + left. rewrite E. reflexivity.
    + right. destruct (item data_slice idx) as [b | | |]; try discriminate E.
      * cbn [div]. rewrite Hc. apply leb_fin_le. apply Qcdiv_le_one; [exact Hq |].
        apply leb_fin_inv. exact E.
      * cbn [div]. rewrite Hc. reflexivity.
  - apply in_ravel in Hin. destruct Hin as (idx & Hidx & E).
    exists idx. split; [exact Hidx |]. rewrite E. cbn [div]. rewrite Hc.
    unfold one. f_equal. unfold Qcdiv. apply Qcmult_inv_r.
    apply Qcpos_nonzero. exact Hq.
  - intros idx. destruct (item data_slice idx) as [b | | |]; cbn [div]; rewrite ?Hc;
      split; intros H; try discriminate H; reflexivity.
Qed.

Lemma scale_slice_peak_one_witness :
  exists scaled,
    scale_slice Demo.band = Ok scaled
    /\ shape scaled = shape Demo.band
    /\ (forall idx, In idx (indices (shape Demo.band)) ->
          item scaled idx = NaN \/ (item scaled idx <=? one)%fl = true)
    /\ (exists idx, In idx (indices (shape Demo.band)) /\ item scaled idx = one)
    /\ forall idx, item scaled idx = NaN <-> item Demo.band idx = NaN.
Proof.
  apply (@scale_slice_peak_one Demo.band (Demo.qc 2 1)).
  - vm_compute. repeat (f_equal; try qc_eq).
  - reflexivity.
Defined.

(** X24.  The scaling of a band in [plot_map_rgb] at its edges: a band
    without pixels raises [ValueError], and a band whose largest value is 0,
    such as a band without counts, is scaled without error to a band that
    holds no finite value: NaN where the band is 0 or NaN, an infinity
    elsewhere. *)
Theorem scale_slice_zero_peak (data_slice : ndarray) :
  (ravel data_slice = [] ->
   scale_slice data_slice
   = Raise (ValueError "zero-size array to reduction operation fmax which has no identity"))
  /\ (np_nanmax (ravel data_slice) = Ok zero ->
      exists scaled,
        scale_slice data_slice = Ok scaled
        /\ forall idx, In idx (indices (shape data_slice)) ->
             (item scaled idx = NaN
              /\ (item data_slice idx = zero \/ item data_slice idx = NaN))
             \/ ((item scaled idx = NInf \/ item scaled idx = PInf)
                 /\ item data_slice idx <> zero /\ item data_slice idx <> NaN)).
Proof.
  split.
  - intros E. unfold scale_slice. rewrite E. reflexivity.
  - intros Hmax. unfold scale_slice. rewrite Hmax. cbn [bind].
    eexists. split; [reflexivity |]. cbn [item map_array].
    destruct (@np_nanmax_spec _ _ Hmax eq_refl) as [_ Hle].
    intros idx Hidx.
    destruct (Hle (item data_slice idx)) as [E | E].
    { apply in_ravel. exists idx. split; [exact Hidx | reflexivity]. }
    + left. rewrite E. split; [reflexivity | right; reflexivity].
    + destruct (item data_slice idx) as [b | | |]; try discriminate E.
      * unfold zero in *. apply leb_fin_inv in E.
        destruct (Qc_dec b 0) as [[Hlt | Hgt] | Heq].
        -- right. cbn. rewrite (proj1 (Qclt_alt b 0) Hlt).
           split; [left; reflexivity |]. split; [| discriminate].
           intros H. injection H as H. rewrite H in Hlt.
           vm_compute in Hlt. discriminate Hlt.
        -- exfalso. exact (Qclt_not_le _ _ Hgt E).
        -- subst b. left. split; [reflexivity | left; reflexivity].
      * right. split; [left; reflexivity |]. split; discriminate.
Qed.

Lemma scale_slice_zero_peak_witness :
  scale_slice (zeros [0; 2])
  = Raise (ValueError "zero-size array to reduction operation fmax which has no identity")
  /\ exists scaled,
       scale_slice Demo.dark_band = Ok scaled
       /\ forall idx, In idx (indices (shape Demo.dark_band)) ->
            (item scaled idx = NaN
             /\ (item Demo.dark_band idx = zero \/ item Demo.dark_band idx = NaN))
            \/ ((item scaled idx = NInf \/ item scaled idx = PInf)
                /\ item Demo.dark_band idx <> zero /\ item Demo.dark_band idx <> NaN).
Proof.
  split.
  - apply (proj1 (scale_slice_zero_peak (zeros [0; 2]))). reflexivity.
  - apply (proj2 (scale_slice_zero_peak Demo.dark_band)). reflexivity.
Defined.
